(** * ese200.trajectories: dynamics, trajectory fitting and simulation

    A shallow embedding of [src/ese200/trajectories.py].

    Numbers.  Every finite double is a rational, so array entries are
    modelled as [Q] with exact arithmetic; equality of numeric results is
    [Qeq], lifted entrywise to vectors and arrays.  Rounding and infinities
    are outside the model.  The range of a double is modelled where it
    decides between a result and an exception, the power [dt ** 2] of
    [get_dynamics] ([get_dynamics_call]); the constructor of the simulator
    and the batch generator are modelled for time steps in that range.  NaN
    is modelled where the module can produce it from numbers, the
    assignment of [None] into a float array.

    Arrays.  A 2-D ndarray is a list of rows, a 3-D one a list of 2-D ones.
    Where a claim is about identity and mutation of objects (the Simulator)
    arrays, generators and instances live in an object store.

    Failure.  A Python exception is a [Raise]: code that can raise returns a
    [result]. *)

From Stdlib Require Import QArith Qround ZArith List Lia Lqa.
From stdpp Require Import base option list gmap strings.

(** ** Exceptions *)

Inductive exn : Type :=
| ValueError
| IndexError
| TypeError
| ZeroDivisionError
| OverflowError
| SolverError.

Inductive result (A : Type) : Type :=
| Ok (a : A)
| Raise (e : exn).
Arguments Ok {A} a.
Arguments Raise {A} e.

#[export] Instance result_ret : MRet result := fun _ a => Ok a.
#[export] Instance result_bind : MBind result := fun _ _ f m =>
  match m with
  | Ok a => f a
  | Raise e => Raise e
  end.

Definition is_ok {A} (r : result A) : bool :=
  match r with Ok _ => true | Raise _ => false end.

(** ** The numpy fragment the module uses *)

Module np.

Definition vector := list Q.
Definition matrix := list vector.
Definition tensor3 := list matrix.

(** Entrywise numeric equality. *)
Definition veq : vector -> vector -> Prop := Forall2 Qeq.
Definition meq : matrix -> matrix -> Prop := Forall2 veq.

(** Decidable counterparts, used where a solver checks a candidate. *)
Fixpoint veqb (a b : vector) : bool :=
  match a, b with
  | [], [] => true
  | x :: a', y :: b' => Qeq_bool x y && veqb a' b'
  | _, _ => false
  end.

Fixpoint meqb (a b : matrix) : bool :=
  match a, b with
  | [], [] => true
  | r :: a', s :: b' => veqb r s && meqb a' b'
  | _, _ => false
  end.

(** [m] has [r] rows, each of [c] entries. *)
Definition has_shape (r c : nat) (m : matrix) : Prop :=
  length m = r /\ Forall (fun row => length row = c) m.

Definition has_shape3 (n r c : nat) (a : tensor3) : Prop :=
  length a = n /\ Forall (has_shape r c) a.

Definition ncols (m : matrix) : nat := length (hd [] m).

(** [np.zeros((r, c))]. *)
Definition zeros (r c : nat) : matrix := repeat (repeat 0%Q c) r.

(** [np.zeros((n, r, c))]. *)
Definition zeros3 (n r c : nat) : tensor3 := repeat (zeros r c) n.

(** [np.eye(n)]. *)
Definition eye (n : nat) : matrix :=
  map (fun i => map (fun j => if (i =? j)%nat then 1%Q else 0%Q) (seq 0 n))
      (seq 0 n).

(** [m.T]. *)
Definition transpose (m : matrix) : matrix :=
  fold_right (zip_with cons) (repeat [] (ncols m)) m.

Definition dot (a b : vector) : Q :=
  fold_right Qplus 0%Q (zip_with Qmult a b).

(** [a @ v] for a 2-D [a] and a 1-D [v]: every row of [a] must be as long
    as [v], otherwise numpy raises ValueError. *)
Definition matvec (a : matrix) (v : vector) : result vector :=
  if forallb (fun row => length row =? length v)%nat a
  then Ok (map (fun row => dot row v) a)
  else Raise ValueError.

(** [x @ m] for 2-D operands: the rows of [x] must be as long as [m] has
    rows. *)
Definition matmul (x m : matrix) : result matrix :=
  if forallb (fun row => length row =? length m)%nat x
  then Ok (map (fun row => map (dot row) (transpose m)) x)
  else Raise ValueError.

(** Broadcasting along one axis: equal lengths pair up, a length-1 operand
    is stretched, anything else is a ValueError. *)
Definition broadcast {A} (f : A -> A -> result A) (a b : list A)
  : result (list A) :=
  if (length a =? length b)%nat then mapM (fun p => f (fst p) (snd p)) (zip a b)
  else match a, b with
       | [x], _ => mapM (f x) b
       | _, [y] => mapM (fun x => f x y) a
       | _, _ => Raise ValueError
       end.

(** [a + b] on 1-D and 2-D arrays. *)
Definition vadd : vector -> vector -> result vector :=
  broadcast (fun x y => Ok (x + y)%Q).
Definition add : matrix -> matrix -> result matrix :=
  broadcast vadd.

(** [a + b] on 3-D arrays. *)
Definition add3 : tensor3 -> tensor3 -> result tensor3 :=
  broadcast add.

(** Entries that may be NaN: [None] is NaN.  NaN enters the module in one
    way only, the assignment of [None] into a float array, which numpy
    stores as NaN; so only the two arrays [generate_expert_trajectories]
    fills and returns hold such entries. *)
Definition entry := option Q.
Definition nan : entry := None.
Definition nmatrix := list (list entry).
Definition ntensor3 := list nmatrix.

(** An array of numbers, as an array that may hold NaN. *)
Definition finite2 (m : matrix) : nmatrix := map (map Some) m.
Definition finite3 (a : tensor3) : ntensor3 := map finite2 a.

(** [np.full((r, c), np.nan)]. *)
Definition full_nan (r c : nat) : nmatrix := repeat (repeat nan c) r.

(** [x + y] on entries: NaN when either is. *)
Definition nadd (x y : entry) : entry :=
  match x, y with
  | Some a, Some b => Some (a + b)%Q
  | _, _ => nan
  end.

(** [a + b] on 2-D and 3-D arrays that may hold NaN. *)
Definition nadd2 : nmatrix -> nmatrix -> result nmatrix :=
  broadcast (broadcast (fun x y => Ok (nadd x y))).
Definition nadd3 : ntensor3 -> ntensor3 -> result ntensor3 :=
  broadcast nadd2.

(** [a * s] for a scalar [s]. *)
Definition scale (s : Q) (a : matrix) : matrix :=
  map (map (fun x => x * s)%Q) a.

(** [q.astype(int)]: the C cast, truncation toward zero. *)
Definition astype_int (q : Q) : Z :=
  if Qle_bool 0 q then Qfloor q else Qceiling q.

(** [np.linspace(start, stop, num)] with the default [endpoint=True]:
    [arange(0, num) * step + start] with [step = (stop - start) / (num - 1)],
    and the last entry overwritten by [stop] when [num > 1].  With
    [num = 1] there is no division and the single entry is [start].  The
    quotient and the products are exact here; numpy rounds each to a
    double. *)
Definition linspace (start stop : Q) (num : nat) : list Q :=
  let div := (num - 1)%nat in
  let delta := (stop - start)%Q in
  let y :=
    if (0 <? div)%nat
    then map (fun i => inject_Z (Z.of_nat i) * (delta / inject_Z (Z.of_nat div)) + start)%Q
             (seq 0 num)
    else map (fun i => inject_Z (Z.of_nat i) * delta + start)%Q (seq 0 num) in
  if (1 <? num)%nat then removelast y ++ [stop] else y.

(** [np.arange(start, stop, step)] on Python floats:
    [ceil((stop - start) / step)] entries (none when that is negative).  The
    length is computed with Python's division, which raises
    ZeroDivisionError on a zero step; the quotient is exact here, where
    Python rounds it to a double before the ceiling is taken. *)
Definition arange (start stop step : Q) : result (list Q) :=
  if Qeq_bool step 0 then Raise ZeroDivisionError
  else
    let n := Z.to_nat (Qceiling ((stop - start) / step)) in
    Ok (map (fun i => start + inject_Z (Z.of_nat i) * step)%Q (seq 0 n)).

End np.

(** ** The dynamics model *)

(** [get_dynamics(dt)]: the pair [(A, B)] of lines 113-129, for a time step
    whose square is in the range of a double. *)
Definition get_dynamics (dt : Q) : np.matrix * np.matrix :=
  let A := [ [1; 0; dt; 0];
             [0; 1; 0; dt];
             [0; 0; 1; 0];
             [0; 0; 0; 1] ]%Q in
  let B := [ [(1 # 2) * dt ^ 2; 0];
             [0; (1 # 2) * dt ^ 2];
             [dt; 0];
             [0; dt] ]%Q in
  (A, B).

(** ** Python floats *)

Module py.

(** The least magnitude that rounds to infinity in binary64: halfway between
    the largest double, [2^1024 - 2^971], and [2^1024]. *)
Definition float_overflow : Q := inject_Z (2 ^ 1024 - 2 ^ 970).

(** [x ** 2] on a float.  Python raises OverflowError when the square leaves
    the range of a double; the products and sums of the module overflow
    silently, so this power is the one place where the range of a double
    decides between a result and an exception. *)
Definition float_sqr (x : Q) : result Q :=
  if Qle_bool float_overflow (x * x) then Raise OverflowError
  else Ok (x ^ 2)%Q.

End py.

(** The call [get_dynamics(dt)] on a Python float.  Nothing about [dt] is
    checked.  [A] is built first; the two powers [dt**2] are evaluated while
    the rows of [B] are built (lines 124-125), and are what can raise. *)
Definition get_dynamics_call (dt : Q) : result (np.matrix * np.matrix) :=
  let A := [ [1; 0; dt; 0];
             [0; 1; 0; dt];
             [0; 0; 1; 0];
             [0; 0; 0; 1] ]%Q in
  sq1 ← py.float_sqr dt;
  sq2 ← py.float_sqr dt;
  let B := [ [(1 # 2) * sq1; 0];
             [0; (1 # 2) * sq2];
             [dt; 0];
             [0; dt] ]%Q in
  Ok (A, B).

(** ** Configuration *)

(** Modelled from the spec: the class [ese200.config.Config] is imported by
    the module but is not part of the sources; its fields are the scalar
    parameters the spec lists ([time_step], [trajectory_noise],
    [state_noise], [trajectory_radius], [trajectory_margin], [duration],
    [n_trajectories]).  The values [Config()] gives them are unknown, so a
    configuration is always a parameter. *)
Record Config : Type := {
  time_step : Q;
  trajectory_noise : Q;
  state_noise : Q;
  trajectory_radius : Q;
  trajectory_margin : Q;
  duration : Q;
  n_trajectories : nat
}.

(** ** The random source *)

(** A [numpy.random.Generator]: the standard-normal samples its bit
    generator will produce, and how many have been consumed. *)
Record Generator : Type := {
  stream : nat -> Q;
  pos : nat
}.

Module random.

Definition advance (g : Generator) (n : nat) : Generator :=
  {| stream := stream g; pos := (pos g + n)%nat |}.

(** The next [n] samples, scaled. *)
Definition samples (g : Generator) (scale : Q) (n : nat) : list Q :=
  map (fun i => (stream g (pos g + i)%nat * scale)%Q) (seq 0 n).

(** Row-major reshape of a flat buffer into [r] rows of [c]. *)
Fixpoint reshape (r c : nat) (l : list Q) : np.matrix :=
  match r with
  | O => []
  | S r' => take c l :: reshape r' c (drop c l)
  end.

Fixpoint reshape3 (n r c : nat) (l : list Q) : np.tensor3 :=
  match n with
  | O => []
  | S n' => reshape r c (take (r * c) l) :: reshape3 n' r c (drop (r * c) l)
  end.

(** [rng.normal(scale=scale, size=(r, c))]: a negative scale is a
    ValueError; otherwise [r * c] samples are consumed. *)
Definition normal (g : Generator) (scale : Q) (r c : nat)
  : result (np.matrix * Generator) :=
  if Qle_bool 0 scale
  then Ok (reshape r c (samples g scale (r * c)), advance g (r * c))
  else Raise ValueError.

(** [rng.normal(scale=scale, size=(n, r, c))]. *)
Definition normal3 (g : Generator) (scale : Q) (n r c : nat)
  : result (np.tensor3 * Generator) :=
  if Qle_bool 0 scale
  then Ok (reshape3 n r c (samples g scale (n * (r * c))),
           advance g (n * (r * c)))
  else Raise ValueError.

End random.

(** ** The cvxpy fragment [optimize] uses *)

Module cp.

(** The two [cp.Variable]s of [optimize]. *)
Inductive var : Type := X | U.

(** A value of an expression: 1-D or 2-D. *)
Inductive value : Type :=
| V1 (v : np.vector)
| V2 (m : np.matrix).

Inductive expr : Type :=
| Var (v : var)
| Const (m : np.matrix)
| Slice (e : expr) (start stop : option Z)   (* e[start:stop] *)
| Row (e : expr) (i : Z)                     (* e[i] *)
| Take (e : expr) (idx : list Z) (stop : Z)  (* e[idx, :stop] *)
| MatMul (e : expr) (m : np.matrix)          (* e @ m *)
| Add (e1 e2 : expr).                        (* e1 + e2 *)

(** [lhs == rhs]. *)
Inductive constraint : Type :=
| Eq (lhs rhs : expr).

(** [cp.Minimize(cp.sum_squares(e))]. *)
Inductive objective : Type :=
| MinimizeSumSquares (e : expr).

Record Problem : Type := {
  x_shape : nat * nat;
  u_shape : nat * nat;
  goal : objective;
  constraints : list constraint
}.

Inductive status : Type :=
| optimal
| optimal_inaccurate
| infeasible
| infeasible_inaccurate
| unbounded
| unbounded_inaccurate
| user_limit.

(** What is left in the variables after [prob.solve()]. *)
Record Solved : Type := {
  prob_status : status;
  x_value : option np.matrix;
  u_value : option np.matrix
}.

(** Python's index normalisation on an axis of length [n]. *)
Definition index (n : nat) (i : Z) : result nat :=
  let n' := Z.of_nat n in
  if (0 <=? i)%Z && (i <? n')%Z then Ok (Z.to_nat i)
  else if (- n' <=? i)%Z && (i <? 0)%Z then Ok (Z.to_nat (n' + i))
  else Raise IndexError.

(** Python's slice bound on an axis of length [n]: negative bounds count
    from the end and everything is clamped into [0, n]. *)
Definition bound (n : nat) (dflt : nat) (b : option Z) : nat :=
  match b with
  | None => dflt
  | Some i =>
      let n' := Z.of_nat n in
      let j := if (i <? 0)%Z then (n' + i)%Z else i in
      Z.to_nat (Z.min n' (Z.max 0 j))
  end.

Definition slice {A} (l : list A) (start stop : option Z) : list A :=
  let lo := bound (length l) 0 start in
  let hi := bound (length l) (length l) stop in
  take (hi - lo) (drop lo l).

Definition getitem {A} (l : list A) (i : Z) : result A :=
  k ← index (length l) i;
  match l !! k with
  | Some a => Ok a
  | None => Raise IndexError
  end.

Definition as_matrix (v : value) : result np.matrix :=
  match v with
  | V2 m => Ok m
  | V1 _ => Raise ValueError
  end.

(** The value of an expression once the variables are given values. *)
Fixpoint eval (x u : np.matrix) (e : expr) : result value :=
  match e with
  | Var X => Ok (V2 x)
  | Var U => Ok (V2 u)
  | Const m => Ok (V2 m)
  | Slice e start stop =>
      m ← eval x u e ≫= as_matrix;
      Ok (V2 (slice m start stop))
  | Row e i =>
      m ← eval x u e ≫= as_matrix;
      r ← getitem m i;
      Ok (V1 r)
  | Take e idx stop =>
      m ← eval x u e ≫= as_matrix;
      rows ← mapM (getitem m) idx;
      Ok (V2 (map (fun r => slice r None (Some stop)) rows))
  | MatMul e m =>
      a ← eval x u e ≫= as_matrix;
      p ← np.matmul a m;
      Ok (V2 p)
  | Add e1 e2 =>
      a ← eval x u e1 ≫= as_matrix;
      b ← eval x u e2 ≫= as_matrix;
      s ← np.add a b;
      Ok (V2 s)
  end.

Definition same_shape (a b : value) : bool :=
  match a, b with
  | V1 v, V1 w => (length v =? length w)%nat
  | V2 m, V2 n =>
      (length m =? length n)%nat
      && forallb (fun p => (length (fst p) =? length (snd p))%nat) (zip m n)
  | _, _ => false
  end.

Definition value_eq (a b : value) : Prop :=
  match a, b with
  | V1 v, V1 w => np.veq v w
  | V2 m, V2 n => np.meq m n
  | _, _ => False
  end.

Definition value_eqb (a b : value) : bool :=
  match a, b with
  | V1 v, V1 w => np.veqb v w
  | V2 m, V2 n => np.meqb m n
  | _, _ => false
  end.

(** Building [lhs == rhs] fails when a side cannot be formed (an index out
    of range, operands that do not fit) or when the sides differ in shape.
    That depends on shapes only, so the sides are formed on zero values of
    the variables' shapes.  Releases of cvxpy that stretch shapes as numpy
    does accept some sides of different shapes (waypoints of one column);
    on waypoints of two coordinates, which is what [optimize] is given, the
    two agree. *)
Definition check (xs us : nat * nat) (c : constraint) : result unit :=
  let x0 := np.zeros (fst xs) (snd xs) in
  let u0 := np.zeros (fst us) (snd us) in
  match c with
  | Eq lhs rhs =>
      l ← eval x0 u0 lhs;
      r ← eval x0 u0 rhs;
      if same_shape l r then Ok tt else Raise ValueError
  end.

(** The constraint holds for the values [x], [u] of the variables. *)
Definition sat (x u : np.matrix) (c : constraint) : Prop :=
  match c with
  | Eq lhs rhs =>
      exists l r, eval x u lhs = Ok l /\ eval x u rhs = Ok r /\ value_eq l r
  end.

Definition satb (x u : np.matrix) (c : constraint) : bool :=
  match c with
  | Eq lhs rhs =>
      match eval x u lhs, eval x u rhs with
      | Ok l, Ok r => value_eqb l r
      | _, _ => false
      end
  end.

Definition shapeb (s : nat * nat) (m : np.matrix) : bool :=
  (length m =? fst s)%nat && forallb (fun row => (length row =? snd s)%nat) m.

(** [x], [u] are values the variables of [p] can take and meet every
    constraint of [p]. *)
Definition feasible (p : Problem) (x u : np.matrix) : Prop :=
  np.has_shape (fst (x_shape p)) (snd (x_shape p)) x
  /\ np.has_shape (fst (u_shape p)) (snd (u_shape p)) u
  /\ Forall (sat x u) (constraints p).

Definition feasibleb (p : Problem) (x u : np.matrix) : bool :=
  shapeb (x_shape p) x && shapeb (u_shape p) u
  && forallb (satb x u) (constraints p).

(** [cp.sum_squares(e)] at given values (0 when [e] has no value). *)
Definition sum_squares (x u : np.matrix) (e : expr) : Q :=
  match eval x u e with
  | Ok (V2 m) => fold_right Qplus 0%Q (map (fun r => np.dot r r) m)
  | Ok (V1 v) => np.dot v v
  | Raise _ => 0%Q
  end.

Definition cost (p : Problem) (x u : np.matrix) : Q :=
  match goal p with
  | MinimizeSumSquares e => sum_squares x u e
  end.

End cp.

(** ** The trajectory fitter *)

(** Lines 88-89 of [optimize]:
[[
    point_idx = np.linspace(0, len(t) - 1, len(points) + 1).astype(int)[:-1]
    point_idx[0] = 0
]]
    [raw_point_idx] is the first line; the assignment raises IndexError on
    an empty array. *)
Definition raw_point_idx (T P : nat) : list Z :=
  removelast
    (map np.astype_int
         (np.linspace 0 (inject_Z (Z.of_nat T - 1)) (P + 1))).

Definition set_first (idx : list Z) (v : Z) : result (list Z) :=
  match idx with
  | [] => Raise IndexError
  | _ :: rest => Ok (v :: rest)
  end.

Definition point_indices (T P : nat) : result (list Z) :=
  set_first (raw_point_idx T P) 0%Z.

Section Fitter.

(** [prob.solve()]: the numerical solver behind cvxpy is a parameter.  It
    either raises or leaves a status and, possibly, values. *)
Variable solve : cp.Problem -> result cp.Solved.

(** The problem [optimize] hands to the solver, or the exception raised
    while its constraints are built. *)
Definition optimize_problem (A B : np.matrix) (t : list Q) (points : np.matrix)
  : result cp.Problem :=
  let u := cp.Var cp.U in
  let x := cp.Var cp.X in
  let xs := (length t, 4%nat) in
  let us := (length t, 2%nat) in
  point_idx ← point_indices (length t) (length points);
  let objective := cp.MinimizeSumSquares u in
  let constraints := [
    (* dynamics *)
    cp.Eq (cp.Slice x (Some 1%Z) None)
          (cp.Add (cp.MatMul (cp.Slice x None (Some (-1)%Z)) (np.transpose A))
                  (cp.MatMul (cp.Slice u None (Some (-1)%Z)) (np.transpose B)));
    (* pass through points *)
    cp.Eq (cp.Take x point_idx 2%Z) (cp.Const points);
    (* final state should be equal to initial state *)
    cp.Eq (cp.Row x (-1)%Z) (cp.Row x 0%Z)
  ] in
  _ ← mapM (cp.check xs us) constraints;
  Ok {| cp.x_shape := xs; cp.u_shape := us;
        cp.goal := objective; cp.constraints := constraints |}.

(** [optimize(A, B, t, points)]: returns [(x.value, u.value)]. *)
Definition optimize (A B : np.matrix) (t : list Q) (points : np.matrix)
  : result (option np.matrix * option np.matrix) :=
  prob ← optimize_problem A B t points;
  sol ← solve prob;
  Ok (cp.x_value sol, cp.u_value sol).

(** ** The batch generator *)

(** [a[i] = v] for a 3-D float array [a] whose entries have shape [(r, c)].
    [None] is converted to NaN, which fills the entry: nothing is raised.
    An array of another shape does not fit (ValueError; shapes that numpy
    would stretch do not occur, a variable's value has the variable's
    shape). *)
Definition setitem (a : np.ntensor3) (r c : nat) (i : nat)
    (v : option np.matrix) : result np.ntensor3 :=
  if negb (i <? length a)%nat then Raise IndexError
  else match v with
       | None => Ok (<[i := np.full_nan r c]> a)
       | Some m =>
           if cp.shapeb (r, c) m then Ok (<[i := np.finite2 m]> a)
           else Raise ValueError
       end.

Definition template : np.matrix :=
  [ [-1; 0]; [-1; 2]; [0; 3]; [1; 2]; [1; 1]; [2; 1]; [3; 0]; [2; -1]; [0; -1] ]%Q.

(** The body of the loop [for i in range(config.n_trajectories)], threaded
    over the arrays [x] and [u] it assigns into. *)
Definition fit_one (A B : np.matrix) (t : list Q) (points : np.tensor3)
    (xu : np.ntensor3 * np.ntensor3) (i : nat)
  : result (np.ntensor3 * np.ntensor3) :=
  pts ← cp.getitem points (Z.of_nat i);
  r ← optimize A B t pts;
  x ← setitem (fst xu) (length t) 4 i (fst r);
  u ← setitem (snd xu) (length t) 2 i (snd r);
  Ok (x, u).

Fixpoint for_each {S} (body : S -> nat -> result S) (s : S) (range : list nat)
  : result S :=
  match range with
  | [] => Ok s
  | i :: rest => s' ← body s i; for_each body s' rest
  end.

(** Lines 47-66: the template scaled by the radius, and one perturbed copy
    of it per trajectory.  [points[None, ...]] is the one-element batch
    [[points]], stretched over the batch of draws. *)
Definition perturbed_points (config : Config) (rng : Generator)
  : result (np.tensor3 * Generator) :=
  let points := np.scale (trajectory_radius config) template in
  d ← random.normal3 rng (trajectory_noise config)
        (n_trajectories config) (length points) (np.ncols points);
  points ← np.add3 [points] (fst d);
  Ok (points, snd d).

(** [generate_expert_trajectories()], given the configuration [Config()]
    returns, with a time step in the range [get_dynamics] accepts, and the
    generator [np.random.default_rng()] returns. *)
Definition generate_expert_trajectories (config : Config) (rng : Generator)
  : result (np.ntensor3 * np.ntensor3 * np.tensor3) :=
  let '(A, B) := get_dynamics (time_step config) in
  t ← np.arange 0 (duration config) (time_step config);
  let n := n_trajectories config in
  let x := np.finite3 (np.zeros3 n (length t) 4) in
  let u := np.finite3 (np.zeros3 n (length t) 2) in
  (* generate random trajectories *)
  pr ← perturbed_points config rng;
  let '(points, rng) := pr in
  xu ← for_each (fit_one A B t points) (x, u) (seq 0 n);
  let '(x, u) := xu in
  d ← random.normal3 rng (state_noise config * time_step config) n (length t) 4;
  x' ← np.nadd3 x (np.finite3 (fst d));
  Ok (x', u, points).

End Fitter.

(** ** The simulator, over an object store *)

Definition loc := nat.

(** The attributes of a [Simulator] instance. *)
Record Simulator : Type := {
  config : Config;
  A : loc;
  B : loc;
  rng : loc
}.

Inductive object : Type :=
| Ndarray (m : np.matrix)
| GeneratorObj (g : Generator)
| SimulatorObj (s : Simulator).

(** The store, and the operating system's entropy: the sample stream the
    [k]-th generator seeded from it will produce. *)
Record World : Type := {
  heap : gmap loc object;
  entropy : nat -> nat -> Q;
  seeded : nat
}.

(** A computation on the store: its outcome and the store it leaves, also
    when it raises. *)
Definition M (A : Type) : Type := World -> result A * World.

#[export] Instance M_ret : MRet M := fun _ a w => (Ok a, w).
#[export] Instance M_bind : MBind M := fun _ _ f m w =>
  match m w with
  | (Ok a, w') => f a w'
  | (Raise e, w') => (Raise e, w')
  end.

Definition lift {A} (r : result A) : M A := fun w => (r, w).

Definition with_heap (h : gmap loc object) (w : World) : World :=
  {| heap := h; entropy := entropy w; seeded := seeded w |}.

(** A new object, at an address not in use. *)
Definition alloc (o : object) : M loc := fun w =>
  let l := fresh (dom (heap w)) in
  (Ok l, with_heap (<[l := o]> (heap w)) w).

Definition load_ndarray (l : loc) : M np.matrix := fun w =>
  match heap w !! l with
  | Some (Ndarray m) => (Ok m, w)
  | _ => (Raise TypeError, w)
  end.

Definition load_generator (l : loc) : M Generator := fun w =>
  match heap w !! l with
  | Some (GeneratorObj g) => (Ok g, w)
  | _ => (Raise TypeError, w)
  end.

Definition load_simulator (l : loc) : M Simulator := fun w =>
  match heap w !! l with
  | Some (SimulatorObj s) => (Ok s, w)
  | _ => (Raise TypeError, w)
  end.

Definition store (l : loc) (o : object) : M unit := fun w =>
  (Ok tt, with_heap (<[l := o]> (heap w)) w).

(** [np.random.default_rng()]: a new generator, seeded from fresh
    entropy. *)
Definition default_rng : M loc := fun w =>
  alloc (GeneratorObj {| stream := entropy w (seeded w); pos := 0 |})
        {| heap := heap w; entropy := entropy w; seeded := S (seeded w) |}.

(** [g.normal(scale=scale, size=(r, c))] on the generator object at [g]:
    the samples go to a new array and the generator moves on. *)
Definition normal_at (g : loc) (scale : Q) (r c : nat) : M loc :=
  gen ← load_generator g;
  d ← lift (random.normal gen scale r c);
  _ ← store g (GeneratorObj (snd d));
  alloc (Ndarray (fst d)).

(** [a @ b.T] on array objects; [b.T] is a view, the product a new
    array. *)
Definition matmul_T_at (a b : loc) : M loc :=
  av ← load_ndarray a;
  bv ← load_ndarray b;
  p ← lift (np.matmul av (np.transpose bv));
  alloc (Ndarray p).

(** [a + b] on array objects: a new array. *)
Definition add_at (a b : loc) : M loc :=
  av ← load_ndarray a;
  bv ← load_ndarray b;
  s ← lift (np.add av bv);
  alloc (Ndarray s).

(** [x.shape] of a 2-D array. *)
Definition shape_at (x : loc) : M (nat * nat) :=
  xv ← load_ndarray x;
  mret (length xv, np.ncols xv).

(** [get_dynamics] with its two arrays allocated. *)
Definition get_dynamics_at (dt : Q) : M (loc * loc) :=
  let AB := get_dynamics dt in
  a ← alloc (Ndarray (fst AB));
  b ← alloc (Ndarray (snd AB));
  mret (a, b).

Module Sim.

(** [Simulator(config)], for a time step in the range [get_dynamics]
    accepts. *)
Definition init (cfg : Config) : M loc :=
  ab ← get_dynamics_at (time_step cfg);
  g ← default_rng;
  alloc (SimulatorObj {| config := cfg; A := fst ab; B := snd ab; rng := g |}).

(** [self.step(x, u)]. *)
Definition step (self x u : loc) : M loc :=
  s ← load_simulator self;
  sh ← shape_at x;
  noise ← normal_at (rng s)
            (trajectory_noise (config s) * time_step (config s))%Q
            (fst sh) (snd sh);
  xa ← matmul_T_at x (A s);
  ub ← matmul_T_at u (B s);
  xaub ← add_at xa ub;
  add_at xaub noise.

(** The instance at [self] as [init] leaves it: its attributes [s], the
    dynamics of its time step in the arrays [A] and [B], and the generator
    [g] at [rng]. *)
Definition is_instance (w : World) (self : loc) (s : Simulator) (g : Generator)
  : Prop :=
  heap w !! self = Some (SimulatorObj s)
  /\ heap w !! A s = Some (Ndarray (fst (get_dynamics (time_step (config s)))))
  /\ heap w !! B s = Some (Ndarray (snd (get_dynamics (time_step (config s)))))
  /\ heap w !! rng s = Some (GeneratorObj g).

End Sim.

(** ** The solver's contract, and a solver to run the code with *)

(** What is required of [prob.solve()]: with status [optimal], both
    variables have values, of the variables' shapes, that meet every
    constraint. *)
Definition solver_sound (solve : cp.Problem -> result cp.Solved) : Prop :=
  forall p sol,
    solve p = Ok sol ->
    cp.prob_status sol = cp.optimal ->
    exists x u,
      cp.x_value sol = Some x /\ cp.u_value sol = Some u /\ cp.feasible p x u.

(** A solver that tries the zero trajectory only.  Zero inputs cost nothing,
    so when the zero trajectory is feasible it is optimal; every other
    problem is reported infeasible, with no values. *)
Definition zero_solver (p : cp.Problem) : result cp.Solved :=
  let x0 := np.zeros (fst (cp.x_shape p)) (snd (cp.x_shape p)) in
  let u0 := np.zeros (fst (cp.u_shape p)) (snd (cp.u_shape p)) in
  if cp.feasibleb p x0 u0
  then Ok {| cp.prob_status := cp.optimal;
             cp.x_value := Some x0; cp.u_value := Some u0 |}
  else Ok {| cp.prob_status := cp.infeasible;
             cp.x_value := None; cp.u_value := None |}.

(** A solver that stops before it has converged: it reports
    [optimal_inaccurate] and leaves its last iterate, here all ones, in the
    variables. *)
Definition early_solver (p : cp.Problem) : result cp.Solved :=
  let ones (s : nat * nat) := repeat (repeat 1%Q (snd s)) (fst s) in
  Ok {| cp.prob_status := cp.optimal_inaccurate;
        cp.x_value := Some (ones (cp.x_shape p));
        cp.u_value := Some (ones (cp.u_shape p)) |}.

(** The zero-trajectory solver, for the objective of [optimize] only:
    [sum_squares] of the inputs, which zero inputs minimise.  Any other
    objective it gives up on. *)
Definition zero_input_solver (p : cp.Problem) : result cp.Solved :=
  match cp.goal p with
  | cp.MinimizeSumSquares (cp.Var cp.U) => zero_solver p
  | _ => Ok {| cp.prob_status := cp.user_limit;
               cp.x_value := None; cp.u_value := None |}
  end.

(** ** A store to run the simulator in *)

Definition demo_config : Config :=
  {| time_step := 1 # 2; trajectory_noise := 1; state_noise := 0;
     trajectory_radius := 1; trajectory_margin := 1 # 4;
     duration := 2; n_trajectories := 1 |}.

Definition demo_simulator : Simulator :=
  {| config := demo_config; A := 0; B := 1; rng := 2 |}.

Definition demo_generator : Generator :=
  {| stream := fun i => inject_Z (Z.of_nat i); pos := 0 |}.

Definition demo_states : np.matrix := [[0; 0; 1; 2]; [1; 1; 0; 0]]%Q.
Definition demo_inputs : np.matrix := [[2; 0]; [0; 4]]%Q.

(** The instance at address 3, a batch of two states at 4 and of two
    inputs at 5. *)
Definition demo_world : World :=
  {| heap := list_to_map
       [ (0%nat, Ndarray (fst (get_dynamics (1 # 2))));
         (1%nat, Ndarray (snd (get_dynamics (1 # 2))));
         (2%nat, GeneratorObj demo_generator);
         (3%nat, SimulatorObj demo_simulator);
         (4%nat, Ndarray demo_states);
         (5%nat, Ndarray demo_inputs) ];
     entropy := fun k i => inject_Z (Z.of_nat (k + i));
     seeded := 1 |}.

(** ** Vocabulary of the statements *)

(** What the assignment [a[i] = v] leaves in the entry [a[i]] of shape
    [(r, c)]: the values of [v], or NaN throughout when [v] is [None]. *)
Definition assigned (r c : nat) (v : option np.matrix) : np.nmatrix :=
  match v with
  | Some m => np.finite2 m
  | None => np.full_nan r c
  end.

(** A value, if there is one, has the shape [(r, c)]. *)
Definition value_shape (r c : nat) (v : option np.matrix) : Prop :=
  forall m, v = Some m -> np.has_shape r c m.

(** The object [o'] is [o], possibly with the position of its random
    stream moved on. *)
Definition advanced (o o' : object) : Prop :=
  o' = o
  \/ exists gen n, o = GeneratorObj gen
                   /\ o' = GeneratorObj (random.advance gen n).

(** From [w] to [w'] every object is still there; none has changed but,
    possibly, the stream position of the generator at [g]; the entropy
    source is untouched. *)
Definition moves (g : loc) (w w' : World) : Prop :=
  entropy w' = entropy w /\ seeded w' = seeded w
  /\ forall l o, heap w !! l = Some o ->
       exists o', heap w' !! l = Some o' /\ (l <> g -> o' = o) /\ advanced o o'.

(** From [w] to [w'] objects have been added only. *)
Definition grows (w w' : World) : Prop :=
  entropy w' = entropy w /\ seeded w' = seeded w /\ heap w ⊆ heap w'.

(** Consecutive entries of [idx] all differ by the same amount. *)
Definition evenly_spaced (idx : list Z) : Prop :=
  exists d : Z, forall (i : nat) (a b : Z),
    idx !! i = Some a -> idx !! S i = Some b -> (b - a)%Z = d.

(** The kinematic update of one state by one input over [dt]: positions
    move by [v·dt + ½·a·dt²], velocities by [a·dt]. *)
Definition kinematic_step (dt : Q) (state input : np.vector) : np.vector :=
  match state, input with
  | [px; py; vx; vy], [ax; ay] =>
      [ px + vx * dt + (1 # 2) * ax * dt ^ 2;
        py + vy * dt + (1 # 2) * ay * dt ^ 2;
        vx + ax * dt;
        vy + ay * dt ]%Q
  | _, _ => []
  end.

(** [A · state + B · input] for the pair [(A, B)] of [get_dynamics]: one
    noise-free step of a single state. *)
Definition propagate (AB : np.matrix * np.matrix) (state input : np.vector)
  : result np.vector :=
  xa ← np.matvec (fst AB) state;
  ub ← np.matvec (snd AB) input;
  np.vadd xa ub.

(** The two products of the dynamics constraint, row by row, for the
    matrices of [get_dynamics dt]. *)
Definition dynamics_rhs (dt : Q) (T : nat) (x u : np.matrix) : np.matrix :=
  zip_with (zip_with Qplus)
    (map (fun row => map (np.dot row)
            (np.transpose (np.transpose (fst (get_dynamics dt)))))
         (take (T - 1) x))
    (map (fun row => map (np.dot row)
            (np.transpose (np.transpose (snd (get_dynamics dt)))))
         (take (T - 1) u)).

(** The sum of the squares of the entries of an array. *)
Definition sumsq (m : np.matrix) : Q :=
  fold_right Qplus 0%Q (map (fun r => np.dot r r) m).

(** What is further required of [prob.solve()] for its [optimal]: no
    feasible values of the variables cost less. *)
Definition solver_optimal (solve : cp.Problem -> result cp.Solved) : Prop :=
  forall p sol x u,
    solve p = Ok sol ->
    cp.prob_status sol = cp.optimal ->
    cp.x_value sol = Some x -> cp.u_value sol = Some u ->
    forall x' u', cp.feasible p x' u' -> (cp.cost p x u <= cp.cost p x' u')%Q.

(** ** The obstacle plot *)

(** A [matplotlib.patches.Circle]. *)
Record Circle : Type := {
  xy : Q * Q;
  radius : Q;
  color : string;
  fill : bool
}.

(** The part of a matplotlib axes [plot_obstacles] touches: its aspect and
    the patches added to it, oldest first. *)
Record Axes : Type := {
  aspect : string;
  patches : list Circle
}.

Definition set_aspect (ax : Axes) (a : string) : Axes :=
  {| aspect := a; patches := patches ax |}.

Definition add_patch (ax : Axes) (p : Circle) : Axes :=
  {| aspect := aspect ax; patches := patches ax ++ [p] |}.

(** [plot_obstacles(ax)], given the configuration [Config()] returns; the
    axes object is changed in place, here it is passed through. *)
Definition plot_obstacles (config : Config) (ax : Axes) : Axes :=
  let ax := set_aspect ax "equal" in
  fold_left (fun ax i =>
    fold_left (fun ax j =>
      add_patch ax
        {| xy := (trajectory_radius config * inject_Z (2 * Z.of_nat i),
                  trajectory_radius config * inject_Z (2 * Z.of_nat j))%Q;
           radius := (trajectory_radius config - trajectory_margin config)%Q;
           color := "k";
           fill := false |})
      (seq 0 2) ax)
    (seq 0 2) ax.

(** The point [p] lies strictly outside the circle [c] (squared distances,
    for a circle of non-negative radius). *)
Definition outside (c : Circle) (p : Q * Q) : Prop :=
  ((radius c) ^ 2 < (fst p - fst (xy c)) ^ 2 + (snd p - snd (xy c)) ^ 2)%Q.

(** Two circles of non-negative radius have no point in common: their
    centres are further apart than the sum of the radii. *)
Definition apart (c d : Circle) : Prop :=
  ((radius c + radius d) ^ 2
   < (fst (xy c) - fst (xy d)) ^ 2 + (snd (xy c) - snd (xy d)) ^ 2)%Q.

(** ** The script *)

(** The files the script can see: the directories that exist and the
    arrays saved, by path. *)
Record FileSystem : Type := {
  directories : gset string;
  files : gmap string np.ntensor3
}.

Inductive outcome : Type :=
| Finished
| Raised (e : exn)
| RaisedFileNotFoundError.

(** [np.save(dir + "/" + name, arr)]: the file is created or overwritten;
    opening it fails when the directory does not exist. *)
Definition save (dir name : string) (arr : np.ntensor3) (fs : FileSystem)
  : option FileSystem :=
  if decide (dir ∈ directories fs)
  then Some {| directories := directories fs;
               files := <[String.append dir (String.append "/" name) := arr]>
                          (files fs) |}
  else None.

Section Script.

Variable solve : cp.Problem -> result cp.Solved.

(** The block under [if __name__ == "__main__"], given the configuration
    and the generator [generate_expert_trajectories] makes for itself. *)
Definition main (config : Config) (rng : Generator) (fs : FileSystem)
  : outcome * FileSystem :=
  match generate_expert_trajectories solve config rng with
  | Raise e => (Raised e, fs)
  | Ok (x, u, points) =>
      match save "data" "states.npy" x fs with
      | None => (RaisedFileNotFoundError, fs)
      | Some fs1 =>
          match save "data" "inputs.npy" u fs1 with
          | None => (RaisedFileNotFoundError, fs1)
          | Some fs2 => (Finished, fs2)
          end
      end
  end.

End Script.

(** * Properties *)

(** ** Results and entrywise equality *)

Lemma bind_Ok {A B} (f : A -> result B) (m : result A) (b : B) :
  m ≫= f = Ok b -> exists a, m = Ok a /\ f a = Ok b.
Proof. destruct m as [a|e]; simpl; [eauto | discriminate]. Qed.

Lemma mapM_Ok_map {A B} (f : A -> result B) (g : A -> B) (l : list A) :
  Forall (fun a => f a = Ok (g a)) l -> mapM f l = Ok (map g l).
Proof.
  induction 1 as [|a l Ha _ IH]; [reflexivity|].
  simpl. rewrite Ha. simpl. rewrite IH. reflexivity.
Qed.

Lemma mapM_Ok_inv {A B} (f : A -> result B) (l : list A) (k : list B) :
  mapM f l = Ok k -> Forall2 (fun a b => f a = Ok b) l k.
Proof.
  revert k. induction l as [|a l IH]; intros k H; simpl in H.
  - injection H as <-. constructor.
  - apply bind_Ok in H as [b [Hb H]].
    apply bind_Ok in H as [k' [Hk H]].
    injection H as <-. constructor; auto.
Qed.

#[export] Instance veq_equiv : Equivalence np.veq.
Proof.
  split.
  - intros v. induction v; constructor; [reflexivity | assumption].
  - intros v w H. induction H; constructor; [symmetry |]; assumption.
  - intros a b c H. revert c. induction H; intros c Hc; inversion Hc; subst;
      constructor; [etransitivity; eassumption | apply IHForall2; assumption].
Qed.

#[export] Instance meq_equiv : Equivalence np.meq.
Proof.
  split.
  - intros v. induction v; constructor; [reflexivity | assumption].
  - intros v w H. induction H; constructor; [symmetry |]; assumption.
  - intros a b c H. revert c. induction H; intros c Hc; inversion Hc; subst;
      constructor; [etransitivity; eassumption | apply IHForall2; assumption].
Qed.

Lemma veqb_veq (a b : np.vector) : np.veqb a b = true <-> np.veq a b.
Proof.
  revert b. induction a as [|x a IH]; intros [|y b]; simpl.
  - split; [constructor | reflexivity].
  - split; [discriminate | inversion 1].
  - split; [discriminate | inversion 1].
  - rewrite andb_true_iff, Qeq_bool_iff, IH. split.
    + intros [? ?]. constructor; assumption.
    + inversion 1; subst. split; assumption.
Qed.

Lemma meqb_meq (a b : np.matrix) : np.meqb a b = true <-> np.meq a b.
Proof.
  revert b. induction a as [|x a IH]; intros [|y b]; simpl.
  - split; [constructor | reflexivity].
  - split; [discriminate | inversion 1].
  - split; [discriminate | inversion 1].
  - rewrite andb_true_iff, veqb_veq, IH. split.
    + intros [? ?]. constructor; assumption.
    + inversion 1; subst. split; assumption.
Qed.

Lemma shapeb_has_shape (r c : nat) (m : np.matrix) :
  cp.shapeb (r, c) m = true <-> np.has_shape r c m.
Proof.
  unfold cp.shapeb, np.has_shape. simpl.
  rewrite andb_true_iff, Nat.eqb_eq, forallb_forall, List.Forall_forall.
  split; intros [H1 H2]; split; auto; intros x Hx.
  - apply Nat.eqb_eq. auto.
  - apply Nat.eqb_eq. auto.
Qed.

(** ** The dynamics model *)

(** C1.  For every time step [dt], state [[px; py; vx; vy]] and input
    [[ax; ay]], the matrices [(A, B)] of [get_dynamics dt] give
    [A · state + B · input =
     [px + vx·dt + ½·ax·dt²; py + vy·dt + ½·ay·dt²; vx + ax·dt; vy + ay·dt]]:
    one step of constant-acceleration kinematics. *)
Theorem get_dynamics_kinematics (dt px py vx vy ax ay : Q) :
  exists xa ub s,
    np.matvec (fst (get_dynamics dt)) [px; py; vx; vy] = Ok xa
    /\ np.matvec (snd (get_dynamics dt)) [ax; ay] = Ok ub
    /\ np.vadd xa ub = Ok s
    /\ np.veq s [ px + vx * dt + (1 # 2) * ax * dt ^ 2;
                  py + vy * dt + (1 # 2) * ay * dt ^ 2;
                  vx + ax * dt;
                  vy + ay * dt ]%Q.
Proof.
  do 3 eexists. repeat split; try reflexivity.
  cbn [np.dot fold_right zip_with].
  repeat (apply List.Forall2_cons; [simpl; ring|]). apply List.Forall2_nil.
Qed.

(** ** Waypoint indices *)

Lemma map_fmap {A B} (f : A -> B) (l : list A) : map f l = f <$> l.
Proof. reflexivity. Qed.

(** The cast truncates toward zero, whatever fraction represents the
    number. *)
Lemma astype_int_frac (a : Z) (b : positive) (q : Q) :
  (q == a # b)%Q -> np.astype_int q = Z.quot a (Z.pos b).
Proof.
  intros H. unfold np.astype_int.
  rewrite (Qleb_comp 0%Q 0%Q (Qeq_refl 0%Q) _ _ H).
  destruct (Qle_bool 0%Q (a # b)) eqn:E.
  - rewrite (Qfloor_comp _ _ H). apply Qle_bool_iff in E.
    unfold Qle in E. simpl in E. simpl.
    rewrite Z.quot_div_nonneg; lia.
  - rewrite (Qceiling_comp _ _ H).
    assert (Hneg : (a < 0)%Z).
    { destruct (Z_lt_le_dec a 0) as [?|Hge]; [assumption|].
      assert (Qle_bool 0%Q (a # b) = true); [|congruence].
      apply Qle_bool_iff. unfold Qle. simpl. lia. }
    unfold Qceiling. simpl.
    rewrite <- (Z.opp_involutive a) at 2.
    rewrite Z.quot_opp_l by lia.
    rewrite Z.quot_div_nonneg; lia.
Qed.

Lemma linspace_entry (i m : Z) (p : positive) :
  (inject_Z i * ((inject_Z m - 0) / inject_Z (Z.pos p)) + 0 == (i * m) # p)%Q.
Proof.
  rewrite (Qmake_Qdiv (i * m) p), inject_Z_mult.
  field. discriminate.
Qed.

(** The entries [linspace] computes before the last one is overwritten. *)
Lemma linspace_succ (start stop : Q) (n : nat) :
  (1 <= n)%nat ->
  np.linspace start stop (n + 1) =
    map (fun i => inject_Z (Z.of_nat i)
                  * ((stop - start) / inject_Z (Z.of_nat n)) + start)%Q
        (seq 0 n) ++ [stop].
Proof.
  intros Hn. unfold np.linspace.
  replace (n + 1 - 1)%nat with n by lia.
  destruct (Nat.ltb_spec 0 n) as [_|?]; [|lia].
  destruct (Nat.ltb_spec 1 (n + 1)) as [_|?]; [|lia].
  rewrite seq_app, map_app. simpl.
  rewrite removelast_last. reflexivity.
Qed.

(** Line 88 in exact arithmetic: entry [i] is [i * (T - 1)] divided by [P],
    truncated toward zero.  numpy multiplies [i] by the rounded quotient,
    which can leave an entry that is an integer here just below it; the
    theorems on the indices do not state this form. *)
Lemma raw_point_idx_closed (T P : nat) :
  (1 <= P)%nat ->
  raw_point_idx T P =
    map (fun i => Z.quot (Z.of_nat i * (Z.of_nat T - 1)) (Z.of_nat P)) (seq 0 P).
Proof.
  intros HP. unfold raw_point_idx.
  rewrite linspace_succ by assumption.
  rewrite map_app. cbn [map]. rewrite removelast_last, map_map.
  apply map_ext. intros i.
  assert (Hq : exists q, Z.of_nat P = Z.pos q).
  { destruct (Z.of_nat P) eqn:E; try lia. eexists. reflexivity. }
  destruct Hq as [q ->].
  apply astype_int_frac, linspace_entry.
Qed.

Lemma raw_point_idx_length (T P : nat) : length (raw_point_idx T P) = P.
Proof.
  unfold raw_point_idx.
  destruct P as [|p].
  - reflexivity.
  - rewrite linspace_succ by lia.
    rewrite map_app. cbn [map]. rewrite removelast_last.
    rewrite !length_map, length_seq. reflexivity.
Qed.

Lemma raw_point_idx_lookup (T P i : nat) (a : Z) :
  (1 <= T)%nat ->
  raw_point_idx T P !! i = Some a ->
  (i < P)%nat /\ a = (Z.of_nat i * (Z.of_nat T - 1) / Z.of_nat P)%Z.
Proof.
  intros HT H.
  assert (Hi : (i < P)%nat).
  { apply lookup_lt_Some in H. rewrite raw_point_idx_length in H. exact H. }
  split; [exact Hi|].
  rewrite raw_point_idx_closed, map_fmap, list_lookup_fmap in H by lia.
  rewrite lookup_seq_lt in H by exact Hi. simpl in H.
  injection H as <-. apply Z.quot_div_nonneg; nia.
Qed.

Lemma raw_point_idx_head (T P : nat) :
  (1 <= P)%nat -> exists rest, raw_point_idx T P = 0%Z :: rest.
Proof.
  intros HP. rewrite raw_point_idx_closed by assumption.
  destruct P as [|p]; [lia|]. simpl. eexists. reflexivity.
Qed.

Lemma point_indices_raw (T P : nat) :
  (1 <= P)%nat -> point_indices T P = Ok (raw_point_idx T P).
Proof.
  intros HP. unfold point_indices.
  destruct (raw_point_idx_head T P HP) as [rest ->]. reflexivity.
Qed.

(** C10.  The assignment [point_idx[0] = 0] changes nothing: for a grid of
    length [T ≥ 1] and [P ≥ 1] waypoints the first entry of
    [linspace(0, T-1, P+1)] cast to integers is already 0, so the indices
    with the forced assignment are those computed without it. *)
Theorem forced_first_index_redundant (T P : nat) :
  (1 <= T)%nat -> (1 <= P)%nat ->
  point_indices T P = Ok (raw_point_idx T P).
Proof.
  intros _ HP. apply point_indices_raw. exact HP.
Qed.

Lemma forced_first_index_redundant_witness :
  point_indices 11 4 = Ok (raw_point_idx 11 4).
Proof. apply forced_first_index_redundant; lia. Defined.

(** Two consecutive truncated multiples of [m / p] differ by the truncated
    step or by one more. *)
Lemma floor_gap (i m p : Z) :
  (0 <= i)%Z -> (0 <= m)%Z -> (0 < p)%Z ->
  ((i + 1) * m / p - i * m / p = m / p
   \/ (i + 1) * m / p - i * m / p = m / p + 1)%Z.
Proof.
  intros Hi Hm Hp.
  pose proof (Z.div_mod (i * m) p ltac:(lia)) as E1.
  pose proof (Z.mod_pos_bound (i * m) p Hp) as B1.
  pose proof (Z.div_mod ((i + 1) * m) p ltac:(lia)) as E2.
  pose proof (Z.mod_pos_bound ((i + 1) * m) p Hp) as B2.
  pose proof (Z.div_mod m p ltac:(lia)) as E0.
  pose proof (Z.mod_pos_bound m p Hp) as B0.
  set (a := (i * m / p)%Z) in *. set (b := ((i + 1) * m / p)%Z) in *.
  set (q := (m / p)%Z) in *.
  set (r1 := ((i * m) mod p)%Z) in *. set (r2 := (((i + 1) * m) mod p)%Z) in *.
  set (r0 := (m mod p)%Z) in *.
  assert (Hk : (p * (b - a - q) = r0 + r1 - r2)%Z) by lia.
  assert (0 <= b - a - q < 2)%Z by nia.
  lia.
Qed.

Lemma floor_gap_divides (i m p : Z) :
  (0 < p)%Z -> (p | m)%Z ->
  ((i + 1) * m / p - i * m / p = m / p)%Z.
Proof.
  intros Hp [k ->].
  replace ((i + 1) * (k * p))%Z with ((i + 1) * k * p)%Z by ring.
  replace (i * (k * p))%Z with (i * k * p)%Z by ring.
  rewrite !Z.div_mul by lia. ring.
Qed.

(** C3, as the code has it.  For a grid of length [T ≥ 2] and [P ≥ 1]
    waypoints, [optimize] takes as indices the first [P] entries of
    [linspace(0, T-1, P+1)] cast to integers, the first forced to 0.  There
    are [P] of them, the first is 0, and every one is below [T-1], the index
    of the loop closure.  They are evenly spaced up to the truncation:
    consecutive indices differ by [⌊(T-1)/P⌋] or by one more, and by exactly
    [(T-1)/P] when [P] divides [T-1]. *)
Theorem point_indices_spacing (T P : nat) :
  (2 <= T)%nat -> (1 <= P)%nat ->
  exists idx,
    point_indices T P = Ok idx
    /\ idx = 0%Z :: tail (take P (map np.astype_int
                   (np.linspace 0 (inject_Z (Z.of_nat T - 1)) (P + 1))))
    /\ length idx = P
    /\ idx !! 0%nat = Some 0%Z
    /\ (forall (i : nat) (a : Z), idx !! i = Some a ->
          (0 <= a < Z.of_nat T - 1)%Z)
    /\ (forall (i : nat) (a b : Z), idx !! i = Some a -> idx !! S i = Some b ->
          (b - a = (Z.of_nat T - 1) / Z.of_nat P
           \/ b - a = (Z.of_nat T - 1) / Z.of_nat P + 1)%Z)
    /\ ((Z.of_nat P | Z.of_nat T - 1)%Z -> evenly_spaced idx).
Proof.
  intros HT HP.
  exists (raw_point_idx T P).
  assert (Hentry : forall (i : nat) (a : Z), raw_point_idx T P !! i = Some a ->
            a = (Z.of_nat i * (Z.of_nat T - 1) / Z.of_nat P)%Z).
  { intros i a H. apply raw_point_idx_lookup in H; [tauto | lia]. }
  split; [apply point_indices_raw; assumption|].
  split.
  { destruct (raw_point_idx_head T P HP) as [rest E]. rewrite E.
    f_equal. unfold raw_point_idx in E.
    rewrite removelast_firstn_len, length_map in E.
    rewrite linspace_succ in E by assumption.
    rewrite length_app, length_map, length_seq in E. simpl in E.
    replace (Init.Nat.pred (P + 1)) with P in E by lia.
    rewrite <- linspace_succ in E by assumption.
    rewrite E. reflexivity. }
  split; [apply raw_point_idx_length|].
  split.
  { destruct (raw_point_idx_head T P HP) as [rest ->]. reflexivity. }
  split.
  { intros i a H. pose proof (Hentry i a H) as ->.
    apply raw_point_idx_lookup in H as [Hi _]; [|lia].
    split.
    - apply Z.div_pos; nia.
    - apply Z.div_lt_upper_bound; nia. }
  split.
  { intros i a b Ha Hb.
    rewrite (Hentry _ _ Ha), (Hentry _ _ Hb).
    replace (Z.of_nat (S i)) with (Z.of_nat i + 1)%Z by lia.
    apply floor_gap; lia. }
  intros Hdiv. exists ((Z.of_nat T - 1) / Z.of_nat P)%Z.
  intros i a b Ha Hb.
  rewrite (Hentry _ _ Ha), (Hentry _ _ Hb).
  replace (Z.of_nat (S i)) with (Z.of_nat i + 1)%Z by lia.
  apply floor_gap_divides; [lia | assumption].
Qed.

Lemma point_indices_spacing_witness :
  exists idx,
    point_indices 11 4 = Ok idx
    /\ idx = 0%Z :: tail (take 4 (map np.astype_int
                   (np.linspace 0 (inject_Z (Z.of_nat 11 - 1)) (4 + 1))))
    /\ length idx = 4%nat
    /\ idx !! 0%nat = Some 0%Z
    /\ (forall (i : nat) (a : Z), idx !! i = Some a ->
          (0 <= a < Z.of_nat 11 - 1)%Z)
    /\ (forall (i : nat) (a b : Z), idx !! i = Some a -> idx !! S i = Some b ->
          (b - a = (Z.of_nat 11 - 1) / Z.of_nat 4
           \/ b - a = (Z.of_nat 11 - 1) / Z.of_nat 4 + 1)%Z)
    /\ ((Z.of_nat 4 | Z.of_nat 11 - 1)%Z -> evenly_spaced idx).
Proof. apply (point_indices_spacing 11 4); lia. Defined.

(** C3, as stated, fails: with [T = 11] and [P = 4] the indices are
    [0; 2; 5; 7], whose consecutive differences are 2, 3 and 2. *)
Lemma point_indices_not_evenly_spaced :
  (2 <= 11)%nat /\ (1 <= 4)%nat
  /\ point_indices 11 4 = Ok [0; 2; 5; 7]%Z
  /\ ~ evenly_spaced [0; 2; 5; 7]%Z.
Proof.
  split; [lia|]. split; [lia|]. split; [reflexivity|].
  intros [d Hd].
  pose proof (Hd 0%nat 0%Z 2%Z eq_refl eq_refl) as H0.
  pose proof (Hd 1%nat 2%Z 5%Z eq_refl eq_refl) as H1.
  lia.
Qed.

(** ** The trajectory fitter *)

Lemma getitem_lookup {A} (l : list A) (i : Z) (a : A) :
  cp.getitem l i = Ok a ->
  exists k, cp.index (length l) i = Ok k /\ l !! k = Some a.
Proof.
  unfold cp.getitem. intros H.
  apply bind_Ok in H as [k [Hk H]].
  exists k. split; [assumption|].
  destruct (l !! k); [congruence | discriminate].
Qed.

Lemma getitem_first {A} (l : list A) (a : A) :
  cp.getitem l 0%Z = Ok a -> l !! 0%nat = Some a.
Proof.
  intros H. apply getitem_lookup in H as [k [Hk H]].
  unfold cp.index in Hk.
  repeat case_match; simplify_eq; try lia.
  exact H.
Qed.

Lemma getitem_last {A} (l : list A) (a : A) :
  cp.getitem l (-1)%Z = Ok a -> l !! (length l - 1)%nat = Some a.
Proof.
  intros H. apply getitem_lookup in H as [k [Hk H]].
  unfold cp.index in Hk.
  repeat case_match; simplify_eq; try lia.
  replace (length l - 1)%nat with (Z.to_nat (Z.of_nat (length l) + -1)) by lia.
  exact H.
Qed.

Section FitterFacts.

Variable solve : cp.Problem -> result cp.Solved.

(** The three constraints of [optimize], for the waypoint indices [idx]. *)
Lemma optimize_problem_inv (A B : np.matrix) (t : list Q) (points : np.matrix)
    (prob : cp.Problem) :
  optimize_problem A B t points = Ok prob ->
  exists idx,
    point_indices (length t) (length points) = Ok idx
    /\ cp.x_shape prob = (length t, 4%nat)
    /\ cp.u_shape prob = (length t, 2%nat)
    /\ cp.constraints prob = [
         cp.Eq (cp.Slice (cp.Var cp.X) (Some 1%Z) None)
               (cp.Add (cp.MatMul (cp.Slice (cp.Var cp.X) None (Some (-1)%Z))
                                  (np.transpose A))
                       (cp.MatMul (cp.Slice (cp.Var cp.U) None (Some (-1)%Z))
                                  (np.transpose B)));
         cp.Eq (cp.Take (cp.Var cp.X) idx 2%Z) (cp.Const points);
         cp.Eq (cp.Row (cp.Var cp.X) (-1)%Z) (cp.Row (cp.Var cp.X) 0%Z) ].
Proof.
  unfold optimize_problem. intros H.
  apply bind_Ok in H as [idx [Hidx H]].
  apply bind_Ok in H as [? [_ H]].
  injection H as <-. exists idx. auto.
Qed.

Lemma optimize_solved (A B : np.matrix) (t : list Q) (points : np.matrix)
    (prob : cp.Problem) (sol : cp.Solved) :
  optimize_problem A B t points = Ok prob ->
  solve prob = Ok sol ->
  optimize solve A B t points = Ok (cp.x_value sol, cp.u_value sol).
Proof. unfold optimize. intros -> . simpl. intros ->. reflexivity. Qed.

(** A trajectory that meets the last constraint is closed. *)
Lemma closure_sat (x u : np.matrix) :
  cp.sat x u (cp.Eq (cp.Row (cp.Var cp.X) (-1)%Z) (cp.Row (cp.Var cp.X) 0%Z)) ->
  exists first last,
    x !! 0%nat = Some first /\ x !! (length x - 1)%nat = Some last
    /\ np.veq last first.
Proof.
  intros (l & r & Hl & Hr & Heq). simpl in Hl, Hr.
  apply bind_Ok in Hl as [last [Hlast Hl]]. injection Hl as <-.
  apply bind_Ok in Hr as [first [Hfirst Hr]]. injection Hr as <-.
  exists first, last. split; [|split].
  - apply getitem_first. assumption.
  - apply getitem_last. assumption.
  - exact Heq.
Qed.

(** C2.  When the solver reports an optimal solution, the state sequence
    [optimize] returns is closed: row [T - 1] equals row 0 in all four
    components, where [T = len(t)]. *)
Theorem optimize_loop_closure (A B : np.matrix) (t : list Q)
    (points : np.matrix) (prob : cp.Problem) (sol : cp.Solved) :
  solver_sound solve ->
  optimize_problem A B t points = Ok prob ->
  solve prob = Ok sol ->
  cp.prob_status sol = cp.optimal ->
  exists x u first last,
    optimize solve A B t points = Ok (Some x, Some u)
    /\ np.has_shape (length t) 4 x
    /\ x !! 0%nat = Some first
    /\ x !! (length t - 1)%nat = Some last
    /\ length first = 4%nat /\ length last = 4%nat
    /\ np.veq last first.
Proof.
  intros Hsound Hprob Hsol Hopt.
  destruct (Hsound prob sol Hsol Hopt) as (x & u & Hx & Hu & Hfeas).
  destruct (optimize_problem_inv _ _ _ _ _ Hprob) as (idx & _ & Hxs & _ & Hcs).
  destruct Hfeas as (Hshape & _ & Hsat).
  rewrite Hxs in Hshape. simpl in Hshape.
  rewrite Hcs in Hsat.
  apply Forall_cons in Hsat as [_ Hsat].
  apply Forall_cons in Hsat as [_ Hsat].
  apply Forall_cons in Hsat as [Hclose _].
  destruct (closure_sat _ _ Hclose) as (first & last & Hfirst & Hlast & Heq).
  exists x, u, first, last.
  pose proof Hshape as [Hlen Hrows].
  rewrite Hlen in Hlast.
  rewrite List.Forall_forall in Hrows.
  split; [|split; [exact Hshape|]].
  { rewrite (optimize_solved _ _ _ _ _ _ Hprob Hsol), Hx, Hu. reflexivity. }
  repeat split; try assumption.
  - apply Hrows, list_elem_of_In, list_elem_of_lookup. eauto.
  - apply Hrows, list_elem_of_In, list_elem_of_lookup. eauto.
Qed.

End FitterFacts.

(** *** The zero-trajectory solver meets the contract *)

Lemma value_eqb_eq (a b : cp.value) : cp.value_eqb a b = true -> cp.value_eq a b.
Proof.
  destruct a, b; simpl; try discriminate.
  - apply veqb_veq.
  - apply meqb_meq.
Qed.

Lemma satb_sat (x u : np.matrix) (c : cp.constraint) :
  cp.satb x u c = true -> cp.sat x u c.
Proof.
  destruct c as [lhs rhs]. simpl.
  destruct (cp.eval x u lhs) as [l|]; [|discriminate].
  destruct (cp.eval x u rhs) as [r|]; [|discriminate].
  intros H. exists l, r. auto using value_eqb_eq.
Qed.

Lemma feasibleb_feasible (p : cp.Problem) (x u : np.matrix) :
  cp.feasibleb p x u = true -> cp.feasible p x u.
Proof.
  unfold cp.feasibleb, cp.feasible.
  rewrite !andb_true_iff. intros [[Hx Hu] Hc].
  destruct (cp.x_shape p) as [xr xc], (cp.u_shape p) as [ur uc].
  apply shapeb_has_shape in Hx. apply shapeb_has_shape in Hu.
  split; [exact Hx|]. split; [exact Hu|].
  rewrite forallb_forall in Hc. apply List.Forall_forall.
  intros c Hin. apply satb_sat. auto.
Qed.

Lemma zero_solver_sound : solver_sound zero_solver.
Proof.
  intros p sol H Hopt. unfold zero_solver in H.
  destruct (cp.feasibleb p _ _) eqn:E.
  - injection H as <-. do 2 eexists.
    split; [reflexivity|]. split; [reflexivity|].
    apply feasibleb_feasible. exact E.
  - injection H as <-. discriminate.
Qed.

Lemma optimize_loop_closure_witness :
  exists x u first last,
    optimize zero_solver (fst (get_dynamics 1)) (snd (get_dynamics 1))
             [0; 1; 2]%Q [[0; 0]; [0; 0]]%Q = Ok (Some x, Some u)
    /\ np.has_shape 3 4 x
    /\ x !! 0%nat = Some first
    /\ x !! 2%nat = Some last
    /\ length first = 4%nat /\ length last = 4%nat
    /\ np.veq last first.
Proof.
  eapply (optimize_loop_closure zero_solver (fst (get_dynamics 1))
            (snd (get_dynamics 1)) [0; 1; 2]%Q [[0; 0]; [0; 0]]%Q).
  - apply zero_solver_sound.
  - reflexivity.
  - reflexivity.
  - reflexivity.
Defined.

(** *** What the caller of [optimize] is told *)

(** Two waypoints pinned to the same grid index must agree. *)
Lemma waypoints_sat (x u : np.matrix) (idx : list Z) (points : np.matrix) :
  cp.sat x u (cp.Eq (cp.Take (cp.Var cp.X) idx 2%Z) (cp.Const points)) ->
  forall (i j : nat) (k : Z) (p q : np.vector),
    idx !! i = Some k -> idx !! j = Some k ->
    points !! i = Some p -> points !! j = Some q ->
    np.veq p q.
Proof.
  intros (l & r & Hl & Hr & Heq) i j k p q Hi Hj Hp Hq.
  simpl in Hl, Hr. injection Hr as <-.
  apply bind_Ok in Hl as [rows [Hrows Hl]]. injection Hl as <-.
  simpl in Heq. unfold np.meq in Heq.
  apply mapM_Ok_inv in Hrows.
  destruct (Forall2_lookup_l _ _ _ _ _ Hrows Hi) as (ri & Hri & Hgi).
  destruct (Forall2_lookup_l _ _ _ _ _ Hrows Hj) as (rj & Hrj & Hgj).
  assert (ri = rj) by congruence. subst rj.
  rewrite map_fmap in Heq.
  set (cut := fun r : list Q => cp.slice r None (Some 2%Z)) in *.
  assert (Hsi : (cut <$> rows) !! i = Some (cut ri))
    by (rewrite list_lookup_fmap, Hri; reflexivity).
  assert (Hsj : (cut <$> rows) !! j = Some (cut ri))
    by (rewrite list_lookup_fmap, Hrj; reflexivity).
  pose proof (Forall2_lookup_lr _ _ _ _ _ _ Heq Hsi Hp) as E1.
  pose proof (Forall2_lookup_lr _ _ _ _ _ _ Heq Hsj Hq) as E2.
  etransitivity; [symmetry; exact E1 | exact E2].
Qed.

Section FailureReporting.

Variable solve : cp.Problem -> result cp.Solved.

Lemma conflict_infeasible (A B : np.matrix) (t : list Q) (points : np.matrix)
    (prob : cp.Problem) (idx : list Z) (i j : nat) (k : Z) (p q : np.vector) :
  optimize_problem A B t points = Ok prob ->
  point_indices (length t) (length points) = Ok idx ->
  idx !! i = Some k -> idx !! j = Some k ->
  points !! i = Some p -> points !! j = Some q ->
  ~ np.veq p q ->
  forall x u, ~ cp.feasible prob x u.
Proof.
  intros Hprob Hidx Hi Hj Hp Hq Hne x u (_ & _ & Hsat).
  destruct (optimize_problem_inv _ _ _ _ _ Hprob) as (idx' & Hidx' & _ & _ & Hcs).
  assert (idx' = idx) by congruence. subst idx'.
  rewrite Hcs in Hsat.
  apply Forall_cons in Hsat as [_ Hsat].
  apply Forall_cons in Hsat as [Hway _].
  apply Hne. exact (waypoints_sat x u idx points Hway i j k p q Hi Hj Hp Hq).
Qed.

(** C5, as the code has it.  [optimize] checks nothing itself and reports
    no status: whatever the solver, once the problem is built it returns
    exactly the solver's [(x.value, u.value)], whatever the status, and an
    exception of the solver propagates.  Waypoints that share a grid index
    (the first two do whenever [1 ≤ T ≤ P] and [P ≥ 2]) make the problem
    infeasible if they differ, and then a solver that meets its contract
    does not report an optimal solution. *)
Theorem optimize_reports_values_only (A B : np.matrix) (t : list Q)
    (points : np.matrix) (prob : cp.Problem) :
  optimize_problem A B t points = Ok prob ->
  (forall sol, solve prob = Ok sol ->
     optimize solve A B t points = Ok (cp.x_value sol, cp.u_value sol))
  /\ (forall e, solve prob = Raise e -> optimize solve A B t points = Raise e)
  /\ (forall (idx : list Z) (i j : nat) (k : Z) (p q : np.vector),
        point_indices (length t) (length points) = Ok idx ->
        idx !! i = Some k -> idx !! j = Some k ->
        points !! i = Some p -> points !! j = Some q ->
        ~ np.veq p q ->
        (forall x u, ~ cp.feasible prob x u)
        /\ (solver_sound solve ->
            forall sol, solve prob = Ok sol ->
              cp.prob_status sol <> cp.optimal))
  /\ ((1 <= length t <= length points)%nat -> (2 <= length points)%nat ->
        exists idx, point_indices (length t) (length points) = Ok idx
                    /\ idx !! 0%nat = Some 0%Z /\ idx !! 1%nat = Some 0%Z).
Proof.
  intros Hprob. split; [|split; [|split]].
  - intros sol Hsol. exact (optimize_solved solve A B t points prob sol Hprob Hsol).
  - intros e He. unfold optimize. rewrite Hprob. simpl. rewrite He. reflexivity.
  - intros idx i j k p q Hidx Hi Hj Hp Hq Hne.
    assert (Hinf : forall x u, ~ cp.feasible prob x u)
      by exact (conflict_infeasible A B t points prob idx i j k p q
                  Hprob Hidx Hi Hj Hp Hq Hne).
    split; [exact Hinf|].
    intros solve_sound sol Hsol Hopt.
    destruct (solve_sound prob sol Hsol Hopt) as (x & u & _ & _ & Hfeas).
    exact (Hinf x u Hfeas).
  - intros [HT HTP] HP.
    exists (raw_point_idx (length t) (length points)).
    split; [apply point_indices_raw; lia|].
    rewrite raw_point_idx_closed by lia.
    rewrite map_fmap, !list_lookup_fmap.
    rewrite !lookup_seq_lt by lia. simpl.
    split; [reflexivity|]. f_equal.
    rewrite Z.quot_div_nonneg by lia.
    apply Z.div_small. lia.
Qed.

End FailureReporting.

Lemma optimize_reports_values_only_witness :
  let A := fst (get_dynamics 1) in
  let B := snd (get_dynamics 1) in
  let t := [0; 1]%Q in
  let points := [[0; 0]; [0; 1]]%Q in
  exists prob,
  optimize_problem A B t points = Ok prob /\
  (forall sol, zero_solver prob = Ok sol ->
     optimize zero_solver A B t points = Ok (cp.x_value sol, cp.u_value sol))
  /\ (forall e, zero_solver prob = Raise e ->
        optimize zero_solver A B t points = Raise e)
  /\ (forall (idx : list Z) (i j : nat) (k : Z) (p q : np.vector),
        point_indices (length t) (length points) = Ok idx ->
        idx !! i = Some k -> idx !! j = Some k ->
        points !! i = Some p -> points !! j = Some q ->
        ~ np.veq p q ->
        (forall x u, ~ cp.feasible prob x u)
        /\ (solver_sound zero_solver ->
            forall sol, zero_solver prob = Ok sol ->
              cp.prob_status sol <> cp.optimal))
  /\ ((1 <= length t <= length points)%nat -> (2 <= length points)%nat ->
        exists idx, point_indices (length t) (length points) = Ok idx
                    /\ idx !! 0%nat = Some 0%Z /\ idx !! 1%nat = Some 0%Z).
Proof.
  intros A B t points. eexists. split; [reflexivity|].
  apply (optimize_reports_values_only zero_solver A B t points).
  reflexivity.
Defined.

(** C5, as stated, fails, in both its parts.  With [T = 2] grid points and
    [P = 2] equal waypoints ([P ≥ T], and both waypoints rounded to index 0)
    the problem is feasible, a solver that meets the contract finds the zero
    trajectory, and [optimize] returns numeric arrays: nothing is detected
    or reported.  And when the solver has not converged and says so in its
    status, [optimize] still returns the numeric arrays it left, without the
    status. *)
Lemma optimize_accepts_more_waypoints_than_steps :
  let A := fst (get_dynamics 1) in
  let B := snd (get_dynamics 1) in
  let t := [0; 1]%Q in
  let points := [[0; 0]; [0; 0]]%Q in
  (solver_sound zero_solver
   /\ (length t <= length points)%nat
   /\ point_indices (length t) (length points) = Ok [0; 0]%Z
   /\ optimize zero_solver A B t points
      = Ok (Some (np.zeros 2 4), Some (np.zeros 2 2)))
  /\ (solver_sound early_solver
      /\ (exists prob sol,
            optimize_problem A B t points = Ok prob
            /\ early_solver prob = Ok sol
            /\ cp.prob_status sol = cp.optimal_inaccurate)
      /\ optimize early_solver A B t points
         = Ok (Some [[1; 1; 1; 1]; [1; 1; 1; 1]]%Q, Some [[1; 1]; [1; 1]]%Q)).
Proof.
  cbv zeta. split.
  - split; [apply zero_solver_sound|].
    split; [simpl; lia|]. split; reflexivity.
  - split; [|split].
    + intros p sol H Hopt. unfold early_solver in H.
      injection H as <-. discriminate.
    + do 2 eexists. split; [reflexivity|]. split; reflexivity.
    + reflexivity.
Qed.

(** ** Array arithmetic *)

Lemma mapM_zip {A} (f : A -> A -> result A) (g : A -> A -> A) (a b : list A) :
  (forall x y, In x a -> In y b -> f x y = Ok (g x y)) ->
  mapM (fun p => f (fst p) (snd p)) (zip a b) = Ok (zip_with g a b).
Proof.
  revert b. induction a as [|x a IH]; intros [|y b] H; try reflexivity.
  simpl. rewrite H by (left; reflexivity). simpl.
  rewrite IH; [reflexivity|].
  intros x' y' Hx Hy. apply H; right; assumption.
Qed.

Lemma broadcast_same {A} (f : A -> A -> result A) (g : A -> A -> A)
    (a b : list A) :
  length a = length b ->
  (forall x y, In x a -> In y b -> f x y = Ok (g x y)) ->
  np.broadcast f a b = Ok (zip_with g a b).
Proof.
  intros Hlen H. unfold np.broadcast.
  rewrite Hlen, Nat.eqb_refl. apply mapM_zip. exact H.
Qed.

Lemma vadd_same (a b : np.vector) :
  length a = length b -> np.vadd a b = Ok (zip_with Qplus a b).
Proof. intros H. apply broadcast_same; [exact H | reflexivity]. Qed.

Lemma add_same (n c : nat) (a b : np.matrix) :
  np.has_shape n c a -> np.has_shape n c b ->
  np.add a b = Ok (zip_with (zip_with Qplus) a b).
Proof.
  intros [Ha Hra] [Hb Hrb]. apply broadcast_same; [congruence|].
  rewrite List.Forall_forall in Hra, Hrb.
  intros x y Hx Hy. apply vadd_same. rewrite (Hra x Hx), (Hrb y Hy). reflexivity.
Qed.

Lemma has_shape_cons (n c : nat) (r : np.vector) (m : np.matrix) :
  np.has_shape (S n) c (r :: m) <-> length r = c /\ np.has_shape n c m.
Proof.
  unfold np.has_shape. simpl. rewrite Forall_cons. split.
  - intros [H1 [H2 H3]]. repeat split; [assumption | lia | assumption].
  - intros [H1 [H2 H3]]. repeat split; [lia | assumption | assumption].
Qed.

Lemma has_shape_nil (n c : nat) : np.has_shape n c [] <-> n = 0%nat.
Proof.
  unfold np.has_shape. simpl. split.
  - intros [H _]. congruence.
  - intros ->. split; [reflexivity | constructor].
Qed.

Lemma zip_with_shape (n c : nat) (a b : np.matrix) :
  np.has_shape n c a -> np.has_shape n c b ->
  np.has_shape n c (zip_with (zip_with Qplus) a b).
Proof.
  revert n b. induction a as [|r a IH]; intros n b Ha Hb.
  - simpl. exact Ha.
  - destruct n as [|n]; [destruct Ha; discriminate|].
    destruct b as [|s b]; [destruct Hb; discriminate|].
    apply has_shape_cons in Ha as [Hr Ha], Hb as [Hs Hb].
    simpl. apply has_shape_cons. split.
    + rewrite length_zip_with. lia.
    + apply IH; assumption.
Qed.

Lemma matmul_shape (n k : nat) (x m : np.matrix) :
  np.has_shape n k x -> length m = k ->
  np.matmul x m = Ok (map (fun row => map (np.dot row) (np.transpose m)) x)
  /\ np.has_shape n (length (np.transpose m))
       (map (fun row => map (np.dot row) (np.transpose m)) x).
Proof.
  intros [Hn Hrows] Hk. split.
  - unfold np.matmul.
    replace (forallb (fun row => (length row =? length m)%nat) x) with true;
      [reflexivity|].
    symmetry. apply forallb_forall. intros row Hin.
    rewrite List.Forall_forall in Hrows.
    rewrite (Hrows row Hin), Hk. apply Nat.eqb_refl.
  - split; [rewrite length_map; exact Hn|].
    apply List.Forall_forall. intros row Hin.
    apply in_map_iff in Hin as (r & <- & _). apply length_map.
Qed.

(** *** Draws *)

Lemma samples_length (g : Generator) (s : Q) (n : nat) :
  length (random.samples g s n) = n.
Proof. unfold random.samples. rewrite length_map, length_seq. reflexivity. Qed.

Lemma reshape_shape (r c : nat) (l : list Q) :
  length l = (r * c)%nat -> np.has_shape r c (random.reshape r c l).
Proof.
  revert l. induction r as [|r IH]; intros l Hl; simpl.
  - apply has_shape_nil. reflexivity.
  - apply has_shape_cons. split.
    + rewrite length_take. simpl in Hl. lia.
    + apply IH. rewrite length_drop. simpl in Hl. lia.
Qed.

Lemma reshape_Forall (P : Q -> Prop) (r c : nat) (l : list Q) :
  Forall P l -> Forall (Forall P) (random.reshape r c l).
Proof.
  revert l. induction r as [|r IH]; intros l Hl; simpl; constructor.
  - apply Forall_take. exact Hl.
  - apply IH, Forall_drop. exact Hl.
Qed.

Lemma samples_zero (g : Generator) (s : Q) (n : nat) :
  (s == 0)%Q -> Forall (fun q => (q == 0)%Q) (random.samples g s n).
Proof.
  intros Hs. apply List.Forall_forall. intros q Hin.
  unfold random.samples in Hin. apply in_map_iff in Hin as (i & <- & _).
  rewrite Hs. ring.
Qed.

(** Adding an array of zeros changes nothing. *)
Lemma add_zeros (a z : np.matrix) :
  Forall2 (fun r s => length r = length s) a z ->
  Forall (Forall (fun q => (q == 0)%Q)) z ->
  np.meq (zip_with (zip_with Qplus) a z) a.
Proof.
  induction 1 as [|r s a z Hrs _ IH]; intros Hz; simpl; constructor.
  - apply Forall_cons in Hz as [Hs _]. clear IH.
    revert s Hrs Hs. induction r as [|q r IHr]; intros [|q' s] Hlen Hs;
      simpl; try discriminate; constructor.
    + apply Forall_cons in Hs as [Hq _]. rewrite Hq. ring.
    + apply IHr; [simpl in Hlen; lia|].
      apply Forall_cons in Hs as [_ Hs]. exact Hs.
  - apply IH. apply Forall_cons in Hz as [_ Hz]. exact Hz.
Qed.

Lemma same_shape_rows (n c : nat) (a b : np.matrix) :
  np.has_shape n c a -> np.has_shape n c b ->
  Forall2 (fun r s => length r = length s) a b.
Proof.
  revert n b. induction a as [|r a IH]; intros n b Ha Hb.
  - destruct b as [|s b]; [constructor|].
    destruct Ha as [Ha _], Hb as [Hb _]. simpl in *. congruence.
  - destruct n as [|n]; [destruct Ha; discriminate|].
    destruct b as [|s b]; [destruct Hb; discriminate|].
    apply has_shape_cons in Ha as [Hr Ha], Hb as [Hs Hb].
    constructor; [congruence | eapply IH; eassumption].
Qed.

(** ** The object store *)

Lemma bindM_Ok {A B} (m : M A) (f : A -> M B) (w w1 : World) (a : A) :
  m w = (Ok a, w1) -> (m ≫= f) w = f a w1.
Proof. intros H. unfold mbind, M_bind. rewrite H. reflexivity. Qed.

Lemma bindM_inv {A B} (m : M A) (f : A -> M B) (w w' : World) (b : B) :
  (m ≫= f) w = (Ok b, w') ->
  exists a w1, m w = (Ok a, w1) /\ f a w1 = (Ok b, w').
Proof.
  unfold mbind, M_bind. destruct (m w) as [[a|e] w1]; intros H.
  - eauto.
  - discriminate.
Qed.

Lemma alloc_fresh (w : World) : heap w !! fresh (dom (heap w)) = None.
Proof. apply not_elem_of_dom, is_fresh. Qed.

Lemma lookup_after_alloc (h : gmap loc object) (l l0 : loc) (o o0 : object) :
  h !! l = None -> h !! l0 = Some o0 -> <[l := o]> h !! l0 = Some o0.
Proof.
  intros Hl Hl0. rewrite lookup_insert_ne; [exact Hl0|]. congruence.
Qed.


Lemma advance_advance (g : Generator) (n k : nat) :
  random.advance (random.advance g n) k = random.advance g (n + k).
Proof. unfold random.advance. simpl. f_equal. lia. Qed.

Lemma advanced_refl (o : object) : advanced o o.
Proof. left. reflexivity. Qed.

Lemma advanced_trans (o1 o2 o3 : object) :
  advanced o1 o2 -> advanced o2 o3 -> advanced o1 o3.
Proof.
  intros [->|(g & n & -> & ->)] [->|(g' & k & Hg & ->)].
  - left. reflexivity.
  - right. eauto.
  - right. eauto.
  - injection Hg as <-. right. exists g, (n + k)%nat.
    rewrite advance_advance. auto.
Qed.

Lemma moves_refl (g : loc) (w : World) : moves g w w.
Proof.
  repeat split. intros l o H. exists o. auto using advanced_refl.
Qed.

Lemma moves_trans (g : loc) (w1 w2 w3 : World) :
  moves g w1 w2 -> moves g w2 w3 -> moves g w1 w3.
Proof.
  intros (He1 & Hs1 & H1) (He2 & Hs2 & H2).
  split; [congruence|]. split; [congruence|].
  intros l o Hl.
  destruct (H1 l o Hl) as (o' & Hl' & Hne1 & Hadv1).
  destruct (H2 l o' Hl') as (o'' & Hl'' & Hne2 & Hadv2).
  exists o''. split; [exact Hl''|]. split.
  - intros Hg. rewrite (Hne2 Hg). auto.
  - eapply advanced_trans; eassumption.
Qed.

Lemma grows_moves (g : loc) (w w' : World) : grows w w' -> moves g w w'.
Proof.
  intros (He & Hs & Hsub). split; [exact He|]. split; [exact Hs|].
  intros l o Hl. exists o. split; [|auto using advanced_refl].
  eapply lookup_weaken; eassumption.
Qed.

Lemma grows_refl (w : World) : grows w w.
Proof. split; [reflexivity|]. split; reflexivity. Qed.

Lemma grows_trans (w1 w2 w3 : World) : grows w1 w2 -> grows w2 w3 -> grows w1 w3.
Proof.
  intros (He1 & Hs1 & H1) (He2 & Hs2 & H2).
  split; [congruence|]. split; [congruence|]. etransitivity; eassumption.
Qed.

(** Whatever a computation built from [m] and [f] does, a transitive
    relation that holds across [m] and across [f] holds across both. *)
Lemma bindM_rel {A B} (R : World -> World -> Prop) (m : M A) (f : A -> M B)
    (w : World) :
  (forall w1 w2 w3, R w1 w2 -> R w2 w3 -> R w1 w3) ->
  R w (snd (m w)) ->
  (forall a, fst (m w) = Ok a -> R (snd (m w)) (snd (f a (snd (m w))))) ->
  R w (snd ((m ≫= f) w)).
Proof.
  intros Htrans Hm Hf. unfold mbind, M_bind.
  destruct (m w) as [[a|e] w1]; simpl in *.
  - eapply Htrans; [exact Hm | apply Hf; reflexivity].
  - exact Hm.
Qed.

Lemma alloc_grows (o : object) (w : World) : grows w (snd (alloc o w)).
Proof.
  unfold alloc. simpl. split; [reflexivity|]. split; [reflexivity|].
  apply insert_subseteq, alloc_fresh.
Qed.

Lemma load_ndarray_same (l : loc) (w : World) : snd (load_ndarray l w) = w.
Proof. unfold load_ndarray. repeat case_match; reflexivity. Qed.

Lemma load_generator_same (l : loc) (w : World) : snd (load_generator l w) = w.
Proof. unfold load_generator. repeat case_match; reflexivity. Qed.

Lemma load_simulator_same (l : loc) (w : World) : snd (load_simulator l w) = w.
Proof. unfold load_simulator. repeat case_match; reflexivity. Qed.

Lemma load_ndarray_grows (l : loc) (w : World) : grows w (snd (load_ndarray l w)).
Proof. rewrite load_ndarray_same. apply grows_refl. Qed.

Lemma lift_grows {A} (r : result A) (w : World) : grows w (snd (lift r w)).
Proof. apply grows_refl. Qed.

Lemma matmul_T_at_grows (a b : loc) (w : World) :
  grows w (snd (matmul_T_at a b w)).
Proof.
  unfold matmul_T_at.
  apply bindM_rel; [exact grows_trans | apply load_ndarray_grows|]. intros av _.
  apply bindM_rel; [exact grows_trans | apply load_ndarray_grows|]. intros bv _.
  apply bindM_rel; [exact grows_trans | apply lift_grows|]. intros p _.
  apply alloc_grows.
Qed.

Lemma add_at_grows (a b : loc) (w : World) : grows w (snd (add_at a b w)).
Proof.
  unfold add_at.
  apply bindM_rel; [exact grows_trans | apply load_ndarray_grows|]. intros av _.
  apply bindM_rel; [exact grows_trans | apply load_ndarray_grows|]. intros bv _.
  apply bindM_rel; [exact grows_trans | apply lift_grows|]. intros p _.
  apply alloc_grows.
Qed.

Lemma shape_at_grows (x : loc) (w : World) : grows w (snd (shape_at x w)).
Proof.
  unfold shape_at.
  apply bindM_rel; [exact grows_trans | apply load_ndarray_grows|]. intros xv _.
  apply grows_refl.
Qed.

(** A draw moves the generator it draws from, and nothing else. *)
Lemma normal_at_moves (g : loc) (scale : Q) (r c : nat) (w : World) :
  moves g w (snd (normal_at g scale r c w)).
Proof.
  unfold normal_at, mbind, M_bind, load_generator, lift, random.normal, store.
  destruct (heap w !! g) as [[m|gen|s]|] eqn:Hg; simpl; try apply moves_refl.
  destruct (Qle_bool 0 scale); simpl; [|apply moves_refl].
  repeat split. intros l o Hl.
  set (h1 := <[g := GeneratorObj (random.advance gen (r * c))]> (heap w)).
  assert (Hfresh : h1 !! fresh (dom h1) = None)
    by apply not_elem_of_dom, is_fresh.
  destruct (decide (l = g)) as [->|Hne].
  - exists (GeneratorObj (random.advance gen (r * c))).
    split; [|split].
    + apply lookup_after_alloc; [exact Hfresh|]. apply lookup_insert_eq.
    + intros Habs. contradiction.
    + right. exists gen, (r * c)%nat. split; [congruence | reflexivity].
  - exists o. split; [|split; [reflexivity | apply advanced_refl]].
    apply lookup_after_alloc; [exact Hfresh|].
    unfold h1. rewrite lookup_insert_ne by congruence. exact Hl.
Qed.

(** *** Successful runs of the array operations *)

Lemma moves_ndarray (g : loc) (w w' : World) (l : loc) (m : np.matrix) :
  moves g w w' -> heap w !! l = Some (Ndarray m) ->
  heap w' !! l = Some (Ndarray m).
Proof.
  intros (_ & _ & H) Hl. destruct (H l _ Hl) as (o' & Hl' & _ & Hadv).
  destruct Hadv as [->|(gen & n & Habs & _)]; [exact Hl' | discriminate].
Qed.

Lemma moves_simulator (g : loc) (w w' : World) (l : loc) (s : Simulator) :
  moves g w w' -> heap w !! l = Some (SimulatorObj s) ->
  heap w' !! l = Some (SimulatorObj s).
Proof.
  intros (_ & _ & H) Hl. destruct (H l _ Hl) as (o' & Hl' & _ & Hadv).
  destruct Hadv as [->|(gen & n & Habs & _)]; [exact Hl' | discriminate].
Qed.


Lemma moves_fresh (g : loc) (w w' : World) (l : loc) :
  moves g w w' -> heap w' !! l = None -> heap w !! l = None.
Proof.
  intros (_ & _ & H) Hl. destruct (heap w !! l) as [o|] eqn:E; [|reflexivity].
  destruct (H l o E) as (o' & Hl' & _). congruence.
Qed.

Lemma load_ndarray_run (w : World) (l : loc) (m : np.matrix) :
  heap w !! l = Some (Ndarray m) -> load_ndarray l w = (Ok m, w).
Proof. intros H. unfold load_ndarray. rewrite H. reflexivity. Qed.

Lemma alloc_run (o : object) (w : World) :
  exists l w', alloc o w = (Ok l, w') /\ grows w w'
               /\ heap w !! l = None /\ heap w' !! l = Some o.
Proof.
  exists (fresh (dom (heap w))), (snd (alloc o w)).
  split; [reflexivity|]. split; [apply alloc_grows|].
  split; [apply alloc_fresh|]. simpl. apply lookup_insert_eq.
Qed.

Lemma matmul_T_at_run (w : World) (a b : loc) (av bv p : np.matrix) :
  heap w !! a = Some (Ndarray av) -> heap w !! b = Some (Ndarray bv) ->
  np.matmul av (np.transpose bv) = Ok p ->
  exists l w', matmul_T_at a b w = (Ok l, w') /\ grows w w'
               /\ heap w !! l = None /\ heap w' !! l = Some (Ndarray p).
Proof.
  intros Ha Hb Hp. unfold matmul_T_at.
  rewrite (bindM_Ok _ _ _ _ _ (load_ndarray_run _ _ _ Ha)).
  rewrite (bindM_Ok _ _ _ _ _ (load_ndarray_run _ _ _ Hb)).
  rewrite Hp. unfold mbind, M_bind, lift. apply alloc_run.
Qed.

Lemma add_at_run (w : World) (a b : loc) (av bv p : np.matrix) :
  heap w !! a = Some (Ndarray av) -> heap w !! b = Some (Ndarray bv) ->
  np.add av bv = Ok p ->
  exists l w', add_at a b w = (Ok l, w') /\ grows w w'
               /\ heap w !! l = None /\ heap w' !! l = Some (Ndarray p).
Proof.
  intros Ha Hb Hp. unfold add_at.
  rewrite (bindM_Ok _ _ _ _ _ (load_ndarray_run _ _ _ Ha)).
  rewrite (bindM_Ok _ _ _ _ _ (load_ndarray_run _ _ _ Hb)).
  rewrite Hp. unfold mbind, M_bind, lift. apply alloc_run.
Qed.

Lemma normal_at_run (w : World) (g : loc) (gen : Generator) (scale : Q)
    (r c : nat) :
  heap w !! g = Some (GeneratorObj gen) ->
  (0 <= scale)%Q ->
  exists l w',
    normal_at g scale r c w = (Ok l, w') /\ moves g w w'
    /\ heap w !! l = None
    /\ heap w' !! l
       = Some (Ndarray (random.reshape r c (random.samples gen scale (r * c))))
    /\ heap w' !! g = Some (GeneratorObj (random.advance gen (r * c))).
Proof.
  intros Hg Hscale.
  pose proof (normal_at_moves g scale r c w) as Hmoves.
  apply Qle_bool_iff in Hscale.
  unfold normal_at, mbind, M_bind, load_generator, lift, random.normal, store
    in *.
  rewrite Hg in *. rewrite Hscale in *. simpl in *.
  set (h1 := <[g := GeneratorObj (random.advance gen (r * c))]> (heap w)) in *.
  assert (Hfresh : h1 !! fresh (dom h1) = None)
    by apply not_elem_of_dom, is_fresh.
  do 2 eexists. split; [reflexivity|]. split; [exact Hmoves|].
  simpl. split; [|split].
  - destruct (decide (fresh (dom h1) = g)) as [E|E].
    + rewrite E in Hfresh. unfold h1 in Hfresh.
      rewrite lookup_insert_eq in Hfresh. discriminate.
    + rewrite <- Hfresh. unfold h1 at 2. symmetry.
      apply lookup_insert_ne. intros Hc. apply E. symmetry. exact Hc.
  - apply lookup_insert_eq.
  - apply lookup_after_alloc; [exact Hfresh | apply lookup_insert_eq].
Qed.

Lemma shape_at_run (w : World) (x : loc) (xv : np.matrix) :
  heap w !! x = Some (Ndarray xv) ->
  shape_at x w = (Ok (length xv, np.ncols xv), w).
Proof.
  intros H. unfold shape_at.
  rewrite (bindM_Ok _ _ _ _ _ (load_ndarray_run _ _ _ H)). reflexivity.
Qed.

Lemma load_simulator_run (w : World) (l : loc) (s : Simulator) :
  heap w !! l = Some (SimulatorObj s) -> load_simulator l w = (Ok s, w).
Proof. intros H. unfold load_simulator. rewrite H. reflexivity. Qed.

(** *** The frame of [step] *)

Lemma step_moves (w : World) (self x u : loc) (s : Simulator) :
  heap w !! self = Some (SimulatorObj s) ->
  moves (rng s) w (snd (Sim.step self x u w)).
Proof.
  intros Hself. unfold Sim.step.
  rewrite (bindM_Ok _ _ _ _ _ (load_simulator_run _ _ _ Hself)).
  apply bindM_rel; [exact (moves_trans _) | apply grows_moves, shape_at_grows|].
  intros sh _.
  apply bindM_rel; [exact (moves_trans _) | apply normal_at_moves|].
  intros noise _.
  apply bindM_rel; [exact (moves_trans _) | apply grows_moves, matmul_T_at_grows|].
  intros xa _.
  apply bindM_rel; [exact (moves_trans _) | apply grows_moves, matmul_T_at_grows|].
  intros ub _.
  apply bindM_rel; [exact (moves_trans _) | apply grows_moves, add_at_grows|].
  intros xaub _.
  apply grows_moves, add_at_grows.
Qed.

(** Whatever [self] is, a call changes at most one generator. *)
Lemma step_moves_any (w : World) (self x u : loc) :
  exists g, moves g w (snd (Sim.step self x u w)).
Proof.
  destruct (heap w !! self) as [[m|gen|s]|] eqn:Hself.
  - exists self. unfold Sim.step, mbind, M_bind, load_simulator.
    rewrite Hself. apply moves_refl.
  - exists self. unfold Sim.step, mbind, M_bind, load_simulator.
    rewrite Hself. apply moves_refl.
  - exists (rng s). apply step_moves. exact Hself.
  - exists self. unfold Sim.step, mbind, M_bind, load_simulator.
    rewrite Hself. apply moves_refl.
Qed.

Lemma grows_lookup (w w' : World) (l : loc) (o : object) :
  grows w w' -> heap w !! l = Some o -> heap w' !! l = Some o.
Proof. intros (_ & _ & Hsub) Hl. eapply lookup_weaken; eassumption. Qed.

Lemma grows_fresh (w w' : World) (l : loc) :
  grows w w' -> heap w' !! l = None -> heap w !! l = None.
Proof.
  intros Hg Hl. destruct (heap w !! l) as [o|] eqn:E; [|reflexivity].
  rewrite (grows_lookup _ _ _ _ Hg E) in Hl. discriminate.
Qed.

Lemma noise_shape (N : nat) (xv : np.matrix) (l : list Q) :
  np.has_shape N 4 xv ->
  length l = (length xv * np.ncols xv)%nat ->
  np.has_shape N 4 (random.reshape (length xv) (np.ncols xv) l).
Proof.
  intros Hx Hl. destruct xv as [|r xv].
  - destruct Hx as [<- _]. simpl. apply has_shape_nil. reflexivity.
  - destruct N as [|N]; [destruct Hx; discriminate|].
    pose proof Hx as [HN _].
    apply has_shape_cons in Hx as [Hr _].
    unfold np.ncols in *. simpl hd in *. rewrite Hr in *. rewrite HN in *.
    apply reshape_shape. exact Hl.
Qed.

(** The run of [step] on an instance, a batch of states and a batch of
    inputs: it returns, and what it returns is computed as the source
    does. *)
Lemma step_run (w : World) (self x u : loc) (s : Simulator) (g : Generator)
    (xv uv : np.matrix) (N : nat) :
  let scale := (trajectory_noise (config s) * time_step (config s))%Q in
  let Amat := fst (get_dynamics (time_step (config s))) in
  let Bmat := snd (get_dynamics (time_step (config s))) in
  let drawn := (length xv * np.ncols xv)%nat in
  let noise := random.reshape (length xv) (np.ncols xv)
                 (random.samples g scale drawn) in
  Sim.is_instance w self s g ->
  heap w !! x = Some (Ndarray xv) ->
  heap w !! u = Some (Ndarray uv) ->
  np.has_shape N 4 xv ->
  np.has_shape N 2 uv ->
  (0 <= scale)%Q ->
  exists r w' xa ub sum res,
    Sim.step self x u w = (Ok r, w')
    /\ np.matmul xv (np.transpose Amat) = Ok xa
    /\ np.matmul uv (np.transpose Bmat) = Ok ub
    /\ np.add xa ub = Ok sum
    /\ np.add sum noise = Ok res
    /\ np.has_shape N 4 sum /\ np.has_shape N 4 noise /\ np.has_shape N 4 res
    /\ res = zip_with (zip_with Qplus) sum noise
    /\ heap w !! r = None
    /\ heap w' !! r = Some (Ndarray res)
    /\ heap w' !! rng s = Some (GeneratorObj (random.advance g drawn)).
Proof.
  intros scale Amat Bmat drawn noise (Hself & HA & HB & Hrng) Hx Hu Hxs Hus Hsc.
  fold Amat in HA. fold Bmat in HB.
  unfold Sim.step.
  rewrite (bindM_Ok _ _ _ _ _ (load_simulator_run _ _ _ Hself)).
  rewrite (bindM_Ok _ _ _ _ _ (shape_at_run _ _ _ Hx)).
  cbn [fst snd]. fold scale.
  destruct (normal_at_run w (rng s) g scale (length xv) (np.ncols xv) Hrng Hsc)
    as (ln & w1 & Erun1 & Hm1 & Hln0 & Hln & Hrng1).
  rewrite (bindM_Ok _ _ _ _ _ Erun1).
  fold drawn in Hln, Hrng1. fold noise in Hln.
  (* x @ A.T *)
  destruct (matmul_shape N 4 xv (np.transpose Amat) Hxs eq_refl) as [Exa Hxas].
  set (xa := map (fun row => map (np.dot row) (np.transpose (np.transpose Amat))) xv)
    in *.
  destruct (matmul_T_at_run w1 x (A s) xv Amat xa
              (moves_ndarray _ _ _ _ _ Hm1 Hx) (moves_ndarray _ _ _ _ _ Hm1 HA) Exa)
    as (lxa & w2 & Erun2 & Hg2 & _ & Hlxa).
  rewrite (bindM_Ok _ _ _ _ _ Erun2).
  (* u @ B.T *)
  destruct (matmul_shape N 2 uv (np.transpose Bmat) Hus eq_refl) as [Eub Hubs].
  set (ub := map (fun row => map (np.dot row) (np.transpose (np.transpose Bmat))) uv)
    in *.
  destruct (matmul_T_at_run w2 u (B s) uv Bmat ub
              (grows_lookup _ _ _ _ Hg2 (moves_ndarray _ _ _ _ _ Hm1 Hu))
              (grows_lookup _ _ _ _ Hg2 (moves_ndarray _ _ _ _ _ Hm1 HB)) Eub)
    as (lub & w3 & Erun3 & Hg3 & _ & Hlub).
  rewrite (bindM_Ok _ _ _ _ _ Erun3).
  (* the sum of the two products *)
  change (length (np.transpose (np.transpose Amat))) with 4%nat in Hxas.
  change (length (np.transpose (np.transpose Bmat))) with 4%nat in Hubs.
  pose proof (add_same N 4 xa ub Hxas Hubs) as Esum.
  pose proof (zip_with_shape N 4 xa ub Hxas Hubs) as Hsums.
  set (sum := zip_with (zip_with Qplus) xa ub) in *.
  destruct (add_at_run w3 lxa lub xa ub sum
              (grows_lookup _ _ _ _ Hg3 Hlxa) Hlub Esum)
    as (ls & w4 & Erun4 & Hg4 & _ & Hls).
  rewrite (bindM_Ok _ _ _ _ _ Erun4).
  (* plus the noise *)
  assert (Hnoise : np.has_shape N 4 noise).
  { apply noise_shape; [exact Hxs | apply samples_length]. }
  pose proof (add_same N 4 sum noise Hsums Hnoise) as Eres.
  pose proof (zip_with_shape N 4 sum noise Hsums Hnoise) as Hress.
  set (res := zip_with (zip_with Qplus) sum noise) in *.
  assert (Hln4 : heap w4 !! ln = Some (Ndarray noise)).
  { apply (grows_lookup _ _ _ _ Hg4), (grows_lookup _ _ _ _ Hg3),
      (grows_lookup _ _ _ _ Hg2). exact Hln. }
  destruct (add_at_run w4 ls ln sum noise res Hls Hln4 Eres)
    as (r & w5 & Erun5 & Hg5 & Hr4 & Hr).
  exists r, w5, xa, ub, sum, res.
  split; [exact Erun5|].
  repeat (split; [assumption || reflexivity|]).
  split.
  { apply (moves_fresh _ _ _ _ Hm1), (grows_fresh _ _ _ Hg2),
      (grows_fresh _ _ _ Hg3), (grows_fresh _ _ _ Hg4). exact Hr4. }
  split; [exact Hr|].
  apply (grows_lookup _ _ _ _ Hg5), (grows_lookup _ _ _ _ Hg4),
    (grows_lookup _ _ _ _ Hg3), (grows_lookup _ _ _ _ Hg2). exact Hrng1.
Qed.

Lemma bindM_inv_load {A} (l : loc) (f : np.matrix -> M A) (w w' : World) (a : A) :
  (load_ndarray l ≫= f) w = (Ok a, w') ->
  exists m, heap w !! l = Some (Ndarray m) /\ f m w = (Ok a, w').
Proof.
  intros H. apply bindM_inv in H as (m & w1 & Hload & H).
  unfold load_ndarray in Hload.
  destruct (heap w !! l) as [[m'|?|?]|]; try discriminate.
  injection Hload as -> ->. eauto.
Qed.

Lemma add_at_inv (a b : loc) (w w' : World) (r : loc) :
  add_at a b w = (Ok r, w') ->
  heap w !! r = None /\ exists m, heap w' !! r = Some (Ndarray m).
Proof.
  unfold add_at. intros H.
  apply bindM_inv_load in H as (av & _ & H).
  apply bindM_inv_load in H as (bv & _ & H).
  apply bindM_inv in H as (p & w1 & Hlift & H).
  unfold lift in Hlift. injection Hlift as _ <-.
  unfold alloc in H. injection H as <- <-.
  split; [apply alloc_fresh|]. exists p. simpl. apply lookup_insert_eq.
Qed.

(** What [step] returns is an array at an address that was not in use. *)
Lemma step_result_fresh (w w' : World) (self x u r : loc) :
  Sim.step self x u w = (Ok r, w') ->
  heap w !! r = None /\ exists m, heap w' !! r = Some (Ndarray m).
Proof.
  unfold Sim.step. intros H.
  apply bindM_inv in H as (s & w0 & E0 & H).
  pose proof (load_simulator_same self w) as S0. rewrite E0 in S0.
  simpl in S0. subst w0.
  apply bindM_inv in H as (sh & w0 & E1 & H).
  pose proof (shape_at_grows x w) as G1. rewrite E1 in G1. simpl in G1.
  apply bindM_inv in H as (noise & w1 & E2 & H).
  pose proof (normal_at_moves (rng s)
                (trajectory_noise (config s) * time_step (config s))%Q
                (fst sh) (snd sh) w0) as M2.
  rewrite E2 in M2. simpl in M2.
  apply bindM_inv in H as (xa & w2 & E3 & H).
  pose proof (matmul_T_at_grows x (A s) w1) as G3. rewrite E3 in G3. simpl in G3.
  apply bindM_inv in H as (ub & w3 & E4 & H).
  pose proof (matmul_T_at_grows u (B s) w2) as G4. rewrite E4 in G4. simpl in G4.
  apply bindM_inv in H as (xaub & w4 & E5 & H).
  pose proof (add_at_grows xa ub w3) as G5. rewrite E5 in G5. simpl in G5.
  apply add_at_inv in H as [Hfresh Hr].
  split; [|exact Hr].
  apply (grows_fresh _ _ _ G1), (moves_fresh _ _ _ _ M2),
    (grows_fresh _ _ _ G3), (grows_fresh _ _ _ G4), (grows_fresh _ _ _ G5).
  exact Hfresh.
Qed.

(** *** Construction *)

Lemma get_dynamics_at_run (dt : Q) (w : World) :
  exists a b w',
    get_dynamics_at dt w = (Ok (a, b), w') /\ grows w w'
    /\ heap w !! a = None /\ heap w !! b = None
    /\ heap w' !! a = Some (Ndarray (fst (get_dynamics dt)))
    /\ heap w' !! b = Some (Ndarray (snd (get_dynamics dt))).
Proof.
  unfold get_dynamics_at.
  destruct (alloc_run (Ndarray (fst (get_dynamics dt))) w)
    as (a & w1 & E1 & G1 & Ha0 & Ha).
  destruct (alloc_run (Ndarray (snd (get_dynamics dt))) w1)
    as (b & w2 & E2 & G2 & Hb1 & Hb).
  exists a, b, w2. cbv zeta.
  rewrite (bindM_Ok _ _ _ _ _ E1), (bindM_Ok _ _ _ _ _ E2).
  split; [reflexivity|]. split; [eapply grows_trans; eassumption|].
  split; [exact Ha0|]. split; [exact (grows_fresh _ _ _ G1 Hb1)|].
  split; [exact (grows_lookup _ _ _ _ G2 Ha) | exact Hb].
Qed.

Lemma default_rng_run (w : World) :
  exists l w',
    default_rng w = (Ok l, w')
    /\ heap w ⊆ heap w' /\ entropy w' = entropy w /\ seeded w' = S (seeded w)
    /\ heap w !! l = None
    /\ heap w' !! l
       = Some (GeneratorObj {| stream := entropy w (seeded w); pos := 0 |}).
Proof.
  unfold default_rng, alloc. simpl. do 2 eexists.
  split; [reflexivity|]. simpl.
  split; [apply insert_subseteq, alloc_fresh|].
  split; [reflexivity|]. split; [reflexivity|].
  split; [apply alloc_fresh | apply lookup_insert_eq].
Qed.

Lemma init_run (cfg : Config) (w : World) :
  exists self w' s,
    Sim.init cfg w = (Ok self, w')
    /\ heap w ⊆ heap w' /\ entropy w' = entropy w /\ seeded w' = S (seeded w)
    /\ config s = cfg
    /\ Sim.is_instance w' self s {| stream := entropy w (seeded w); pos := 0 |}
    /\ heap w !! self = None /\ heap w !! rng s = None
    /\ heap w !! A s = None /\ heap w !! B s = None.
Proof.
  unfold Sim.init.
  destruct (get_dynamics_at_run (time_step cfg) w)
    as (a & b & w1 & E1 & G1 & Ha0 & Hb0 & Ha & Hb).
  destruct (default_rng_run w1) as (g & w2 & E2 & Hsub2 & He2 & Hs2 & Hg1 & Hg).
  set (s := {| config := cfg; A := a; B := b; rng := g |}).
  destruct (alloc_run (SimulatorObj s) w2) as (self & w3 & E3 & G3 & Hself2 & Hself).
  exists self, w3, s.
  rewrite (bindM_Ok _ _ _ _ _ E1), (bindM_Ok _ _ _ _ _ E2). cbn [fst snd].
  fold s. split; [exact E3|].
  destruct G1 as (He1 & Hs1 & Hsub1), G3 as (He3 & Hs3 & Hsub3).
  assert (Hsub : heap w ⊆ heap w3).
  { etransitivity; [exact Hsub1|]. etransitivity; [exact Hsub2 | exact Hsub3]. }
  split; [exact Hsub|].
  split; [congruence|]. split; [congruence|]. split; [reflexivity|].
  assert (Hfresh : forall l, heap w2 !! l = None -> heap w !! l = None).
  { intros l Hl. destruct (heap w !! l) as [o|] eqn:E; [|reflexivity].
    assert (heap w2 !! l = Some o); [|congruence].
    eapply lookup_weaken; [exact E|]. etransitivity; [exact Hsub1 | exact Hsub2]. }
  split; [|split; [|split; [|split]]].
  - split; [exact Hself|]. simpl.
    split; [eapply lookup_weaken; [|exact Hsub3];
            eapply lookup_weaken; [exact Ha | exact Hsub2]|].
    split; [eapply lookup_weaken; [|exact Hsub3];
            eapply lookup_weaken; [exact Hb | exact Hsub2]|].
    rewrite <- He1, <- Hs1.
    eapply lookup_weaken; [exact Hg | exact Hsub3].
  - apply Hfresh. exact Hself2.
  - simpl. destruct (heap w !! g) as [o|] eqn:E; [|reflexivity].
    assert (heap w1 !! g = Some o) by (eapply lookup_weaken; eassumption).
    congruence.
  - exact Ha0.
  - exact Hb0.
Qed.

(** ** The simulator *)

(** C4.  On an instance, a batch of states [x] (N×4) and a batch of inputs
    [u] (N×2), [step] returns [x · Aᵀ + u · Bᵀ + noise].  The noise is drawn
    in the call, from the samples the generator had not yet produced, with
    scale [trajectory_noise · time_step], and has the shape of [x]; the
    generator is left after the samples drawn.  When the noise is zero (a
    zero scale, or a draw of zeros) the result is [x · Aᵀ + u · Bᵀ].  The
    scale is taken non-negative, as a draw requires. *)
Theorem step_dynamics_plus_noise (w : World) (self x u : loc) (s : Simulator)
    (g : Generator) (xv uv : np.matrix) (N : nat) :
  let scale := (trajectory_noise (config s) * time_step (config s))%Q in
  let Amat := fst (get_dynamics (time_step (config s))) in
  let Bmat := snd (get_dynamics (time_step (config s))) in
  let drawn := (length xv * np.ncols xv)%nat in
  let noise := random.reshape (length xv) (np.ncols xv)
                 (random.samples g scale drawn) in
  Sim.is_instance w self s g ->
  heap w !! x = Some (Ndarray xv) ->
  heap w !! u = Some (Ndarray uv) ->
  np.has_shape N 4 xv ->
  np.has_shape N 2 uv ->
  (0 <= scale)%Q ->
  exists r w' xa ub sum res,
    Sim.step self x u w = (Ok r, w')
    /\ heap w' !! r = Some (Ndarray res)
    /\ np.matmul xv (np.transpose Amat) = Ok xa
    /\ np.matmul uv (np.transpose Bmat) = Ok ub
    /\ np.add xa ub = Ok sum
    /\ np.add sum noise = Ok res
    /\ np.has_shape N 4 noise
    /\ np.has_shape N 4 res
    /\ heap w' !! rng s = Some (GeneratorObj (random.advance g drawn))
    /\ (Forall (Forall (fun q => (q == 0)%Q)) noise -> np.meq res sum)
    /\ ((scale == 0)%Q -> np.meq res sum).
Proof.
  intros scale Amat Bmat drawn noise Hinst Hx Hu Hxs Hus Hsc.
  destruct (step_run w self x u s g xv uv N Hinst Hx Hu Hxs Hus Hsc)
    as (r & w' & xa & ub & sum & res & Hrun & Hxa & Hub & Hsum & Hres
        & Hsums & Hnoise & Hress & Eres & _ & Hr & Hrng).
  fold scale Amat Bmat drawn noise in Hxa, Hub, Hres, Hnoise, Eres, Hrng.
  exists r, w', xa, ub, sum, res.
  repeat (split; [assumption|]).
  assert (Hzero : Forall (Forall (fun q => (q == 0)%Q)) noise -> np.meq res sum).
  { intros Hz. rewrite Eres. apply add_zeros; [|exact Hz].
    eapply same_shape_rows; eassumption. }
  split; [exact Hzero|].
  intros Hs0. apply Hzero. apply reshape_Forall, samples_zero. exact Hs0.
Qed.

Lemma step_dynamics_plus_noise_witness :
  exists r w' res,
    Sim.step 3 4 5 demo_world = (Ok r, w')
    /\ heap w' !! r = Some (Ndarray res)
    /\ np.has_shape 2 4 res.
Proof.
  destruct (step_dynamics_plus_noise demo_world 3 4 5 demo_simulator
              demo_generator demo_states demo_inputs 2)
    as (r & w' & xa & ub & sum & res & Hrun & Hr & _ & _ & _ & _ & _ & Hs & _).
  - repeat split; reflexivity.
  - reflexivity.
  - reflexivity.
  - split; [reflexivity | repeat constructor].
  - split; [reflexivity | repeat constructor].
  - discriminate.
  - exists r, w', res. auto.
Defined.



(** C9.  [step] does not modify its arguments: the arrays passed as [x]
    and [u] hold the same entries after the call, whether it returns or
    raises, and what it returns is an array at an address that was not in
    use before the call, so distinct from both. *)
Theorem step_leaves_arguments (w : World) (self x u : loc)
    (xv uv : np.matrix) :
  heap w !! x = Some (Ndarray xv) ->
  heap w !! u = Some (Ndarray uv) ->
  let out := Sim.step self x u w in
  heap (snd out) !! x = Some (Ndarray xv)
  /\ heap (snd out) !! u = Some (Ndarray uv)
  /\ forall r, fst out = Ok r ->
       heap w !! r = None /\ r <> x /\ r <> u
       /\ exists res, heap (snd out) !! r = Some (Ndarray res).
Proof.
  intros Hx Hu out.
  destruct (step_moves_any w self x u) as [g Hm]. fold out in Hm.
  split; [exact (moves_ndarray _ _ _ _ _ Hm Hx)|].
  split; [exact (moves_ndarray _ _ _ _ _ Hm Hu)|].
  intros r Hr.
  assert (Hrun : Sim.step self x u w = (Ok r, snd out)).
  { unfold out in *. destruct (Sim.step self x u w) as [o w']. simpl in *.
    congruence. }
  destruct (step_result_fresh _ _ _ _ _ _ Hrun) as [Hfresh Hres].
  split; [exact Hfresh|]. split; [congruence|]. split; [congruence | exact Hres].
Qed.

Lemma step_leaves_arguments_witness :
  let out := Sim.step 3 4 5 demo_world in
  heap (snd out) !! 4%nat = Some (Ndarray demo_states)
  /\ heap (snd out) !! 5%nat = Some (Ndarray demo_inputs)
  /\ forall r, fst out = Ok r ->
       heap demo_world !! r = None /\ r <> 4%nat /\ r <> 5%nat
       /\ exists res, heap (snd out) !! r = Some (Ndarray res).
Proof.
  apply (step_leaves_arguments demo_world 3 4 5 demo_states demo_inputs);
    reflexivity.
Defined.

(** ** The batch generator *)

Lemma has_shape3_cons (n r c : nat) (m : np.matrix) (a : np.tensor3) :
  np.has_shape3 (S n) r c (m :: a) <-> np.has_shape r c m /\ np.has_shape3 n r c a.
Proof.
  unfold np.has_shape3. simpl. rewrite Forall_cons. split.
  - intros [H1 [H2 H3]]. split; [exact H2|]. split; [lia | exact H3].
  - intros [H1 [H2 H3]]. split; [lia|]. split; [exact H1 | exact H3].
Qed.

Lemma reshape3_shape (n r c : nat) (l : list Q) :
  length l = (n * (r * c))%nat -> np.has_shape3 n r c (random.reshape3 n r c l).
Proof.
  revert l. induction n as [|n IH]; intros l Hl; simpl.
  - split; [reflexivity | constructor].
  - apply has_shape3_cons. split.
    + apply reshape_shape. rewrite length_take. simpl in Hl. lia.
    + apply IH. rewrite length_drop. simpl in Hl. lia.
Qed.

Lemma zeros_shape (r c : nat) : np.has_shape r c (np.zeros r c).
Proof.
  unfold np.zeros. split; [apply repeat_length|].
  apply List.Forall_forall. intros row Hin.
  apply repeat_spec in Hin. subst row. apply repeat_length.
Qed.


Lemma scale_shape (s : Q) (r c : nat) (m : np.matrix) :
  np.has_shape r c m -> np.has_shape r c (np.scale s m).
Proof.
  intros [Hr Hc]. unfold np.scale. split; [rewrite length_map; exact Hr|].
  rewrite List.Forall_forall in *. intros row Hin.
  apply in_map_iff in Hin as (row' & <- & Hin').
  rewrite length_map. auto.
Qed.

Lemma broadcast_one {A} (f : A -> A -> result A) (x : A) (b : list A) :
  np.broadcast f [x] b = mapM (f x) b.
Proof.
  destruct b as [|b0 [|b1 b]]; reflexivity.
Qed.

Lemma add3_one (n r c : nat) (p : np.matrix) (b : np.tensor3) :
  np.has_shape r c p -> np.has_shape3 n r c b ->
  exists res, np.add3 [p] b = Ok res /\ np.has_shape3 n r c res.
Proof.
  intros Hp [Hn Hb]. unfold np.add3. rewrite broadcast_one.
  exists (map (zip_with (zip_with Qplus) p) b). split.
  - apply mapM_Ok_map. rewrite List.Forall_forall in *.
    intros m Hin. apply (add_same r c); auto.
  - split; [rewrite length_map; exact Hn|].
    rewrite List.Forall_forall in *. intros m Hin.
    apply in_map_iff in Hin as (m' & <- & Hin').
    apply zip_with_shape; auto.
Qed.


Lemma normal3_run (g : Generator) (scale : Q) (n r c : nat) :
  (0 <= scale)%Q ->
  exists d, random.normal3 g scale n r c = Ok d
            /\ np.has_shape3 n r c (fst d).
Proof.
  intros Hs. apply Qle_bool_iff in Hs. unfold random.normal3. rewrite Hs.
  eexists. split; [reflexivity|]. simpl.
  apply reshape3_shape, samples_length.
Qed.

Lemma perturbed_points_run (cfg : Config) (rng : Generator) :
  (0 <= trajectory_noise cfg)%Q ->
  exists batch rng',
    perturbed_points cfg rng = Ok (batch, rng')
    /\ np.has_shape3 (n_trajectories cfg) 9 2 batch.
Proof.
  intros Hs. unfold perturbed_points.
  change (length (np.scale (trajectory_radius cfg) template)) with 9%nat.
  change (np.ncols (np.scale (trajectory_radius cfg) template)) with 2%nat.
  destruct (normal3_run rng (trajectory_noise cfg) (n_trajectories cfg) 9 2 Hs)
    as (d & -> & Hd).
  assert (Hp : np.has_shape 9 2 (np.scale (trajectory_radius cfg) template)).
  { apply scale_shape. split; [reflexivity | repeat constructor]. }
  set (pts := np.scale (trajectory_radius cfg) template) in *.
  cbn [mbind result_bind].
  destruct (add3_one _ _ _ _ _ Hp Hd) as (res & -> & Hres).
  eauto.
Qed.

(** *** Arrays that may hold NaN *)

Lemma finite3_length (a : np.tensor3) : length (np.finite3 a) = length a.
Proof. apply length_map. Qed.


Lemma finite3_lookup (a : np.tensor3) (i : nat) :
  np.finite3 a !! i = np.finite2 <$> a !! i.
Proof. unfold np.finite3. rewrite map_fmap. apply list_lookup_fmap. Qed.

Lemma finite3_lookup_Some (a : np.tensor3) (i : nat) (m : np.matrix) :
  a !! i = Some m -> np.finite3 a !! i = Some (np.finite2 m).
Proof. intros H. rewrite finite3_lookup, H. reflexivity. Qed.

Lemma mapM_map_Ok {A B} (f : A -> result A) (f' : B -> result B) (g : A -> B)
    (l r : list A) :
  (forall x y, f x = Ok y -> f' (g x) = Ok (g y)) ->
  mapM f l = Ok r -> mapM f' (map g l) = Ok (map g r).
Proof.
  intros Hf. revert r. induction l as [|x l IH]; intros r H; simpl in H.
  - injection H as <-. reflexivity.
  - apply bind_Ok in H as [y [Hy H]].
    apply bind_Ok in H as [k [Hk H]]. injection H as <-.
    simpl. rewrite (Hf _ _ Hy). simpl. rewrite (IH _ Hk). reflexivity.
Qed.

Lemma mapM_zip_map_Ok {A B} (f : A -> A -> result A) (f' : B -> B -> result B)
    (g : A -> B) (a b r : list A) :
  (forall x y z, f x y = Ok z -> f' (g x) (g y) = Ok (g z)) ->
  mapM (fun p => f (fst p) (snd p)) (zip a b) = Ok r ->
  mapM (fun p => f' (fst p) (snd p)) (zip (map g a) (map g b)) = Ok (map g r).
Proof.
  intros Hf. revert b r. induction a as [|x a IH]; intros [|y b] r H;
    simpl in H; try (injection H as <-; reflexivity).
  apply bind_Ok in H as [z [Hz H]].
  apply bind_Ok in H as [k [Hk H]]. injection H as <-.
  simpl. rewrite (Hf _ _ _ Hz). simpl. rewrite (IH _ _ Hk). reflexivity.
Qed.

(** Broadcasting commutes with a map of the entries that the operation
    commutes with. *)
Lemma broadcast_map_Ok {A B} (f : A -> A -> result A) (f' : B -> B -> result B)
    (g : A -> B) (a b r : list A) :
  (forall x y z, f x y = Ok z -> f' (g x) (g y) = Ok (g z)) ->
  np.broadcast f a b = Ok r ->
  np.broadcast f' (map g a) (map g b) = Ok (map g r).
Proof.
  intros Hf H. unfold np.broadcast in *. rewrite !length_map.
  destruct (length a =? length b)%nat.
  - exact (mapM_zip_map_Ok f f' g a b r Hf H).
  - destruct a as [|x [|x' a]], b as [|y [|y' b]]; try discriminate;
      cbn [map] in *;
      refine (mapM_map_Ok _ _ g _ _ _ H); intros ? ?; apply Hf.
Qed.

Lemma nadd2_finite (a b r : np.matrix) :
  np.add a b = Ok r -> np.nadd2 (np.finite2 a) (np.finite2 b) = Ok (np.finite2 r).
Proof.
  apply broadcast_map_Ok. intros x y z.
  apply broadcast_map_Ok. intros p q s H. injection H as <-. reflexivity.
Qed.




Section Batch.

Variable solve : cp.Problem -> result cp.Solved.
Hypothesis solve_sound : solver_sound solve.




End Batch.


(** ** The dynamics model, as a function *)

Lemma float_sqr_in_range (x : Q) :
  (x * x < py.float_overflow)%Q -> py.float_sqr x = Ok (x ^ 2)%Q.
Proof.
  intros H. unfold py.float_sqr.
  destruct (Qle_bool py.float_overflow (x * x)) eqn:E; [|reflexivity].
  apply Qle_bool_iff in E. apply Qlt_not_le in H. contradiction.
Qed.

Lemma float_sqr_overflow (x : Q) :
  (py.float_overflow <= x * x)%Q -> py.float_sqr x = Raise OverflowError.
Proof.
  intros H. unfold py.float_sqr. apply Qle_bool_iff in H. rewrite H.
  reflexivity.
Qed.

Lemma float_sqr_comp (x y : Q) :
  (x == y)%Q ->
  match py.float_sqr x, py.float_sqr y with
  | Ok a, Ok b => (a == b)%Q
  | Raise e, Raise e' => e = e'
  | _, _ => False
  end.
Proof.
  intros H. unfold py.float_sqr.
  assert (Hsq : (x * x == y * y)%Q) by (rewrite H; reflexivity).
  rewrite (Qleb_comp _ _ (Qeq_refl py.float_overflow) _ _ Hsq).
  destruct (Qle_bool py.float_overflow (y * y)); [reflexivity|].
  rewrite H. reflexivity.
Qed.

Lemma get_dynamics_call_in_range (dt : Q) :
  (dt * dt < py.float_overflow)%Q -> get_dynamics_call dt = Ok (get_dynamics dt).
Proof.
  intros H. unfold get_dynamics_call.
  rewrite (float_sqr_in_range dt H). reflexivity.
Qed.

Lemma get_dynamics_meq (dt dt' : Q) :
  (dt == dt')%Q ->
  np.meq (fst (get_dynamics dt)) (fst (get_dynamics dt'))
  /\ np.meq (snd (get_dynamics dt)) (snd (get_dynamics dt')).
Proof.
  intros H. simpl. split.
  - repeat (apply List.Forall2_cons || apply List.Forall2_nil);
      (reflexivity || exact H).
  - repeat (apply List.Forall2_cons || apply List.Forall2_nil);
      try reflexivity; try exact H; rewrite H; reflexivity.
Qed.

(** C7, as the code has it.  [get_dynamics] checks nothing: every [dt]
    whose square is in the range of a double is accepted, zero and negative
    ones included, and gives a 4×4 and a 4×2 matrix; for any other [dt] the
    power [dt**2] raises OverflowError, and no other exception leaves the
    function.  It is a function of [dt] alone: equal time steps give equal
    matrices, or the same exception.  It has no effect but the allocation of
    its two arrays: every object of the store and the entropy source are as
    before.  At [dt = 0] the matrix [A] is the 4×4 identity and [B] is the
    4×2 zero matrix. *)
Theorem get_dynamics_unchecked_pure :
  (forall dt, (dt * dt < py.float_overflow)%Q ->
     get_dynamics_call dt = Ok (get_dynamics dt)
     /\ np.has_shape 4 4 (fst (get_dynamics dt))
     /\ np.has_shape 4 2 (snd (get_dynamics dt)))
  /\ (forall dt, (py.float_overflow <= dt * dt)%Q ->
        get_dynamics_call dt = Raise OverflowError)
  /\ (forall dt dt', (dt == dt')%Q ->
        match get_dynamics_call dt, get_dynamics_call dt' with
        | Ok (A, B), Ok (A', B') => np.meq A A' /\ np.meq B B'
        | Raise e, Raise e' => e = e'
        | _, _ => False
        end)
  /\ (forall dt w, (dt * dt < py.float_overflow)%Q ->
        exists a b w',
          get_dynamics_at dt w = (Ok (a, b), w') /\ grows w w'
          /\ heap w !! a = None /\ heap w !! b = None
          /\ heap w' !! a = Some (Ndarray (fst (get_dynamics dt)))
          /\ heap w' !! b = Some (Ndarray (snd (get_dynamics dt))))
  /\ (exists A B,
        get_dynamics_call 0 = Ok (A, B)
        /\ np.meq A (np.eye 4) /\ np.meq B (np.zeros 4 2)).
Proof.
  split; [|split; [|split; [|split]]].
  - intros dt H. split; [exact (get_dynamics_call_in_range dt H)|].
    split; (split; [reflexivity | repeat constructor]).
  - intros dt H. unfold get_dynamics_call.
    rewrite (float_sqr_overflow dt H). reflexivity.
  - intros dt dt' H.
    destruct (Qlt_le_dec (dt * dt) py.float_overflow) as [Hin|Hout].
    + assert (Hin' : (dt' * dt' < py.float_overflow)%Q)
        by (rewrite <- H; exact Hin).
      rewrite (get_dynamics_call_in_range dt Hin),
              (get_dynamics_call_in_range dt' Hin').
      pose proof (get_dynamics_meq dt dt' H) as Hm.
      destruct (get_dynamics dt) as [A B], (get_dynamics dt') as [A' B'].
      exact Hm.
    + assert (Hout' : (py.float_overflow <= dt' * dt')%Q)
        by (rewrite <- H; exact Hout).
      unfold get_dynamics_call.
      rewrite (float_sqr_overflow dt Hout), (float_sqr_overflow dt' Hout').
      reflexivity.
  - intros dt w _. apply get_dynamics_at_run.
  - exists (fst (get_dynamics 0)), (snd (get_dynamics 0)).
    split; [reflexivity|].
    split; simpl; repeat (apply List.Forall2_cons || apply List.Forall2_nil);
      reflexivity.
Qed.

Lemma get_dynamics_unchecked_pure_witness :
  get_dynamics_call (- (1 # 2)) = Ok (get_dynamics (- (1 # 2)))
  /\ get_dynamics_call (inject_Z (2 ^ 512)) = Raise OverflowError.
Proof.
  destruct get_dynamics_unchecked_pure as (Hin & Hout & _).
  split.
  - apply (Hin (- (1 # 2))%Q). reflexivity.
  - apply (Hout (inject_Z (2 ^ 512))). discriminate.
Defined.

(** C7, as stated, fails: not every [dt] is accepted.  The square of
    [2^600], a double, and that of [10^200] are out of the range of a
    double, and the call raises OverflowError. *)
Lemma get_dynamics_rejects_huge_time_step :
  get_dynamics_call (inject_Z (2 ^ 600)) = Raise OverflowError
  /\ get_dynamics_call (inject_Z (10 ^ 200)) = Raise OverflowError.
Proof. split; vm_compute; reflexivity. Qed.

(** * Further properties *)

(** ** Composition of the dynamics *)

Lemma propagate_kinematic (dt px py vx vy ax ay : Q) :
  exists s, propagate (get_dynamics dt) [px; py; vx; vy] [ax; ay] = Ok s
            /\ np.veq s (kinematic_step dt [px; py; vx; vy] [ax; ay]).
Proof.
  eexists. split; [reflexivity|].
  cbn [np.dot fold_right zip_with kinematic_step].
  repeat (apply List.Forall2_cons; [simpl; ring|]). apply List.Forall2_nil.
Qed.

(** X1.  The dynamics compose: a step over [dt1] followed by a step over
    [dt2] under the same input is the step over [dt1 + dt2]; in particular
    the step over [-dt] undoes the step over [dt]. *)
Theorem get_dynamics_steps_compose (dt1 dt2 px py vx vy ax ay : Q) :
  exists s1 s2 s12,
    propagate (get_dynamics dt1) [px; py; vx; vy] [ax; ay] = Ok s1
    /\ propagate (get_dynamics dt2) s1 [ax; ay] = Ok s2
    /\ propagate (get_dynamics (dt1 + dt2)) [px; py; vx; vy] [ax; ay] = Ok s12
    /\ np.veq s2 s12
    /\ ((dt2 == - dt1)%Q -> np.veq s2 [px; py; vx; vy]).
Proof.
  do 3 eexists.
  split; [reflexivity|]. split; [reflexivity|]. split; [reflexivity|].
  cbn [np.dot fold_right zip_with fst snd get_dynamics].
  split.
  - repeat (apply List.Forall2_cons; [simpl; ring|]). apply List.Forall2_nil.
  - intros H.
    repeat (apply List.Forall2_cons; [simpl; rewrite H; ring|]).
    apply List.Forall2_nil.
Qed.

(** ** More on the waypoint indices *)

Lemma scaled_floor_lt (i j m p : Z) :
  (0 <= i < j)%Z -> (0 < p <= m)%Z -> (i * m / p < j * m / p)%Z.
Proof.
  intros Hij Hpm.
  assert (H : (i * m / p + 1 <= j * m / p)%Z).
  { rewrite <- (Z.div_add (i * m) 1 p) by lia.
    apply Z.div_le_mono; [lia | nia]. }
  lia.
Qed.

(** X2.  With no more waypoints than grid steps ([1 ≤ P ≤ T - 1]) the
    waypoint indices are strictly increasing, so no two waypoints are
    pinned to the same grid point. *)
Theorem point_indices_strictly_increasing (T P : nat) :
  (1 <= P)%nat -> (P <= T - 1)%nat ->
  exists idx,
    point_indices T P = Ok idx
    /\ (forall (i j : nat) (a b : Z),
          (i < j)%nat -> idx !! i = Some a -> idx !! j = Some b -> (a < b)%Z)
    /\ NoDup idx.
Proof.
  intros HP HPT. exists (raw_point_idx T P).
  split; [apply point_indices_raw; exact HP|].
  assert (Hinc : forall (i j : nat) (a b : Z),
            (i < j)%nat -> raw_point_idx T P !! i = Some a ->
            raw_point_idx T P !! j = Some b -> (a < b)%Z).
  { intros i j a b Hij Ha Hb.
    apply raw_point_idx_lookup in Ha as [_ ->]; [|lia].
    apply raw_point_idx_lookup in Hb as [_ ->]; [|lia].
    apply scaled_floor_lt; lia. }
  split; [exact Hinc|].
  apply NoDup_alt. intros i j a Ha Hb.
  destruct (Nat.lt_trichotomy i j) as [Hlt|[Heq|Hgt]]; [|exact Heq|].
  - pose proof (Hinc i j a a Hlt Ha Hb). lia.
  - pose proof (Hinc j i a a Hgt Hb Ha). lia.
Qed.

Lemma point_indices_strictly_increasing_witness :
  exists idx,
    point_indices 11 4 = Ok idx
    /\ (forall (i j : nat) (a b : Z),
          (i < j)%nat -> idx !! i = Some a -> idx !! j = Some b -> (a < b)%Z)
    /\ NoDup idx.
Proof. apply (point_indices_strictly_increasing 11 4); simpl; lia. Defined.

(** ** The constraints of the fitter, on values of the right shapes *)

Lemma bound_nonneg (n d : nat) (i : Z) :
  (0 <= i)%Z -> cp.bound n d (Some i) = Nat.min n (Z.to_nat i).
Proof. intros H. unfold cp.bound. destruct (Z.ltb_spec i 0); lia. Qed.

Lemma bound_minus_1 (n d : nat) : cp.bound n d (Some (-1)%Z) = (n - 1)%nat.
Proof. unfold cp.bound. destruct (Z.ltb_spec (-1) 0); lia. Qed.

Lemma slice_from_1 {A} (l : list A) : cp.slice l (Some 1%Z) None = drop 1 l.
Proof.
  unfold cp.slice. rewrite bound_nonneg by lia. cbn [cp.bound].
  destruct l as [|a l]; [reflexivity|].
  replace (Nat.min (length (a :: l)) (Z.to_nat 1)) with 1%nat
    by (simpl length; lia).
  apply take_ge. rewrite length_drop. lia.
Qed.

Lemma slice_to_minus_1 {A} (l : list A) :
  cp.slice l None (Some (-1)%Z) = take (length l - 1) l.
Proof.
  unfold cp.slice. rewrite bound_minus_1. cbn [cp.bound].
  rewrite drop_0. f_equal. lia.
Qed.

Lemma slice_to_2 {A} (l : list A) : cp.slice l None (Some 2%Z) = take 2 l.
Proof.
  unfold cp.slice. rewrite bound_nonneg by lia. cbn [cp.bound].
  rewrite drop_0, Nat.sub_0_r.
  destruct (Nat.le_ge_cases (length l) 2) as [H|H].
  - rewrite Nat.min_l by lia. rewrite !take_ge by lia. reflexivity.
  - rewrite Nat.min_r by lia. reflexivity.
Qed.

Lemma has_shape_take (n c k : nat) (m : np.matrix) :
  np.has_shape n c m -> (k <= n)%nat -> np.has_shape k c (take k m).
Proof.
  intros [Hn Hc] Hk. split.
  - rewrite length_take. lia.
  - apply Forall_take. exact Hc.
Qed.

Lemma has_shape_drop (n c k : nat) (m : np.matrix) :
  np.has_shape n c m -> np.has_shape (n - k) c (drop k m).
Proof.
  intros [Hn Hc]. split.
  - rewrite length_drop. lia.
  - apply Forall_drop. exact Hc.
Qed.

Lemma same_shape_of_shapes (n c : nat) (a b : np.matrix) :
  np.has_shape n c a -> np.has_shape n c b ->
  cp.same_shape (cp.V2 a) (cp.V2 b) = true.
Proof.
  intros Ha Hb. simpl.
  pose proof (same_shape_rows n c a b Ha Hb) as Hrows.
  destruct Ha as [Ha _], Hb as [Hb _].
  apply andb_true_iff. split; [apply Nat.eqb_eq; congruence|].
  clear Ha Hb. induction Hrows as [|r s a b Hrs _ IH]; [reflexivity|].
  simpl. rewrite Hrs, Nat.eqb_refl. exact IH.
Qed.

Lemma dynamics_sides (dt : Q) (T : nat) (x u : np.matrix) :
  np.has_shape T 4 x -> np.has_shape T 2 u ->
  cp.eval x u (cp.Slice (cp.Var cp.X) (Some 1%Z) None) = Ok (cp.V2 (drop 1 x))
  /\ cp.eval x u
       (cp.Add (cp.MatMul (cp.Slice (cp.Var cp.X) None (Some (-1)%Z))
                          (np.transpose (fst (get_dynamics dt))))
               (cp.MatMul (cp.Slice (cp.Var cp.U) None (Some (-1)%Z))
                          (np.transpose (snd (get_dynamics dt)))))
     = Ok (cp.V2 (dynamics_rhs dt T x u))
  /\ np.has_shape (T - 1) 4 (drop 1 x)
  /\ np.has_shape (T - 1) 4 (dynamics_rhs dt T x u).
Proof.
  intros Hx Hu.
  pose proof Hx as [Hxn _]. pose proof Hu as [Hun _].
  assert (Hxt : np.has_shape (T - 1) 4 (take (T - 1) x))
    by (eapply has_shape_take; [exact Hx | lia]).
  assert (Hut : np.has_shape (T - 1) 2 (take (T - 1) u))
    by (eapply has_shape_take; [exact Hu | lia]).
  destruct (matmul_shape (T - 1) 4 (take (T - 1) x)
              (np.transpose (fst (get_dynamics dt))) Hxt eq_refl) as [Exa Hxa].
  destruct (matmul_shape (T - 1) 2 (take (T - 1) u)
              (np.transpose (snd (get_dynamics dt))) Hut eq_refl) as [Eub Hub].
  change (length (np.transpose (np.transpose (fst (get_dynamics dt)))))
    with 4%nat in Hxa.
  change (length (np.transpose (np.transpose (snd (get_dynamics dt)))))
    with 4%nat in Hub.
  split; [|split; [|split]].
  - cbn [cp.eval mbind result_bind cp.as_matrix]. rewrite slice_from_1. reflexivity.
  - cbn [cp.eval mbind result_bind cp.as_matrix].
    rewrite !slice_to_minus_1, Hxn, Hun, Exa. cbn [mbind result_bind].
    rewrite Eub. cbn [mbind result_bind cp.as_matrix].
    rewrite (add_same (T - 1) 4 _ _ Hxa Hub). reflexivity.
  - apply has_shape_drop. exact Hx.
  - apply zip_with_shape; assumption.
Qed.

(** Row [k] of the right-hand side is the kinematic update of row [k]. *)
Lemma dynamics_rhs_row (dt : Q) (T k : nat) (x u : np.matrix)
    (xk uk : np.vector) :
  np.has_shape T 4 x -> np.has_shape T 2 u ->
  (S k < T)%nat -> x !! k = Some xk -> u !! k = Some uk ->
  exists row, dynamics_rhs dt T x u !! k = Some row
              /\ np.veq row (kinematic_step dt xk uk).
Proof.
  intros [_ Hx] [_ Hu] Hk Hxk Huk.
  assert (Hlx : length xk = 4%nat).
  { rewrite List.Forall_forall in Hx. apply Hx, list_elem_of_In,
      list_elem_of_lookup. eauto. }
  assert (Hlu : length uk = 2%nat).
  { rewrite List.Forall_forall in Hu. apply Hu, list_elem_of_In,
      list_elem_of_lookup. eauto. }
  destruct xk as [|px [|py [|vx [|vy [|]]]]]; try discriminate.
  destruct uk as [|ax [|ay [|]]]; try discriminate.
  eexists. split.
  - unfold dynamics_rhs, np.matrix, np.vector in *.
    rewrite lookup_zip_with, !map_fmap, !list_lookup_fmap.
    rewrite !lookup_take_lt by lia. rewrite Hxk, Huk. reflexivity.
  - simpl. unfold np.dot. simpl.
    repeat (apply List.Forall2_cons; [ring|]). apply List.Forall2_nil.
Qed.

Lemma getitem_in_range {A} (l : list A) (k : Z) :
  (0 <= k < Z.of_nat (length l))%Z ->
  exists a, cp.getitem l k = Ok a /\ l !! Z.to_nat k = Some a.
Proof.
  intros Hk. unfold cp.getitem, cp.index.
  destruct (Z.leb_spec 0 k) as [_|?]; [|lia].
  destruct (Z.ltb_spec k (Z.of_nat (length l))) as [_|?]; [|lia].
  cbn [andb mbind result_bind].
  destruct (lookup_lt_is_Some_2 l (Z.to_nat k) ltac:(lia)) as [a Ha].
  exists a. rewrite Ha. auto.
Qed.

Lemma getitem_nonneg {A} (l : list A) (k : Z) (a : A) :
  (0 <= k)%Z -> cp.getitem l k = Ok a -> l !! Z.to_nat k = Some a.
Proof.
  intros Hk H. apply getitem_lookup in H as (j & Hj & Hl).
  unfold cp.index in Hj.
  destruct (Z.ltb_spec k 0) as [?|_]; [lia|].
  rewrite andb_false_r in Hj.
  destruct ((0 <=? k)%Z && (k <? Z.of_nat (length l))%Z); [|discriminate].
  injection Hj as <-. exact Hl.
Qed.

Lemma mapM_Ok_exists {A B} (f : A -> result B) (P : A -> B -> Prop)
    (l : list A) :
  Forall (fun a => exists b, f a = Ok b /\ P a b) l ->
  exists k, mapM f l = Ok k /\ Forall2 P l k.
Proof.
  induction 1 as [|a l (b & Hb & HP) _ (k & Hk & HF)].
  - exists []. split; [reflexivity | constructor].
  - exists (b :: k). split; [|constructor; assumption].
    simpl. rewrite Hb. simpl. rewrite Hk. reflexivity.
Qed.

(** The waypoint indices fall within the grid. *)
Lemma point_indices_in_range (T P : nat) (idx : list Z) :
  (1 <= T)%nat -> point_indices T P = Ok idx ->
  length idx = P /\ (1 <= P)%nat
  /\ Forall (fun k => (0 <= k < Z.of_nat T)%Z) idx.
Proof.
  intros HT H.
  assert (HP : (1 <= P)%nat).
  { destruct P as [|P]; [discriminate | lia]. }
  rewrite point_indices_raw in H by exact HP. injection H as <-.
  split; [apply raw_point_idx_length|]. split; [exact HP|].
  apply Forall_lookup. intros i a Ha.
  apply raw_point_idx_lookup in Ha as [Hi ->]; [|exact HT].
  split.
  - apply Z.div_pos; nia.
  - apply Z.div_lt_upper_bound; nia.
Qed.

Lemma waypoint_side (T : nat) (x u : np.matrix) (idx : list Z) :
  np.has_shape T 4 x ->
  Forall (fun k => (0 <= k < Z.of_nat T)%Z) idx ->
  exists rows,
    cp.eval x u (cp.Take (cp.Var cp.X) idx 2%Z) = Ok (cp.V2 (map (take 2) rows))
    /\ Forall2 (fun k row => x !! Z.to_nat k = Some row) idx rows
    /\ np.has_shape (length idx) 2 (map (take 2) rows).
Proof.
  intros [Hn Hc] Hidx.
  destruct (mapM_Ok_exists (cp.getitem x)
              (fun k row => x !! Z.to_nat k = Some row) idx)
    as (rows & Hrows & HF).
  { eapply Forall_impl; [exact Hidx|]. intros k Hk. simpl.
    apply getitem_in_range. rewrite Hn. exact Hk. }
  exists rows. split; [|split; [exact HF|]].
  - cbn [cp.eval mbind result_bind cp.as_matrix].
    unfold np.matrix, np.vector in *. rewrite Hrows.
    cbn [mbind result_bind]. do 2 f_equal.
    apply map_ext. intros row. apply slice_to_2.
  - split; [rewrite length_map; symmetry; exact (Forall2_length _ _ _ HF)|].
    apply List.Forall_forall. intros r Hin.
    apply in_map_iff in Hin as (row & <- & Hin).
    apply list_elem_of_In, list_elem_of_lookup in Hin as [i Hi].
    destruct (Forall2_lookup_r _ _ _ _ _ HF Hi) as (k & _ & Hk).
    rewrite List.Forall_forall in Hc.
    rewrite length_take, (Hc row); [reflexivity|].
    apply list_elem_of_In, list_elem_of_lookup. eauto.
Qed.

Lemma closure_side (T : nat) (x u : np.matrix) :
  np.has_shape T 4 x -> (1 <= T)%nat ->
  exists first last,
    cp.eval x u (cp.Row (cp.Var cp.X) (-1)%Z) = Ok (cp.V1 last)
    /\ cp.eval x u (cp.Row (cp.Var cp.X) 0%Z) = Ok (cp.V1 first)
    /\ x !! 0%nat = Some first /\ x !! (T - 1)%nat = Some last
    /\ length first = 4%nat /\ length last = 4%nat.
Proof.
  intros [Hn Hc] HT.
  destruct (lookup_lt_is_Some_2 x 0 ltac:(lia)) as [first Hfirst].
  destruct (lookup_lt_is_Some_2 x (T - 1) ltac:(lia)) as [last Hlast].
  exists first, last.
  rewrite List.Forall_forall in Hc.
  assert (Hl : forall i r, x !! i = Some r -> length r = 4%nat).
  { intros i r Hi. apply Hc, list_elem_of_In, list_elem_of_lookup. eauto. }
  split; [|split; [|split; [exact Hfirst|split; [exact Hlast|eauto]]]].
  - cbn [cp.eval mbind result_bind cp.as_matrix].
    unfold cp.getitem, cp.index.
    destruct (Z.leb_spec 0 (-1)) as [?|_]; [lia|].
    destruct (Z.leb_spec (- Z.of_nat (length x)) (-1)) as [_|?]; [|lia].
    cbn [andb Z.ltb Z.compare mbind result_bind].
    replace (Z.to_nat (Z.of_nat (length x) + -1)) with (T - 1)%nat by lia.
    unfold np.matrix, np.vector in *. rewrite Hlast. reflexivity.
  - cbn [cp.eval mbind result_bind cp.as_matrix].
    unfold cp.getitem, cp.index.
    destruct (Z.ltb_spec 0 (Z.of_nat (length x))) as [_|?]; [|lia].
    cbn [andb Z.leb Z.compare mbind result_bind].
    change (Z.to_nat 0) with 0%nat.
    unfold np.matrix, np.vector in *. rewrite Hfirst. reflexivity.
Qed.

(** ** What the fitter builds and what a fit satisfies *)

Lemma checks_pass (dt : Q) (T : nat) (points : np.matrix) (idx : list Z) :
  (1 <= T)%nat ->
  point_indices T (length points) = Ok idx ->
  Forall (fun row => length row = 2%nat) points ->
  mapM (cp.check (T, 4%nat) (T, 2%nat)) [
    cp.Eq (cp.Slice (cp.Var cp.X) (Some 1%Z) None)
          (cp.Add (cp.MatMul (cp.Slice (cp.Var cp.X) None (Some (-1)%Z))
                             (np.transpose (fst (get_dynamics dt))))
                  (cp.MatMul (cp.Slice (cp.Var cp.U) None (Some (-1)%Z))
                             (np.transpose (snd (get_dynamics dt)))));
    cp.Eq (cp.Take (cp.Var cp.X) idx 2%Z) (cp.Const points);
    cp.Eq (cp.Row (cp.Var cp.X) (-1)%Z) (cp.Row (cp.Var cp.X) 0%Z) ]
  = Ok [tt; tt; tt].
Proof.
  intros HT Hidx Hpts.
  pose proof (zeros_shape T 4) as Hx. pose proof (zeros_shape T 2) as Hu.
  destruct (point_indices_in_range _ _ _ HT Hidx) as (Hlen & _ & Hrange).
  destruct (dynamics_sides dt T _ _ Hx Hu) as (El & Er & Hl & Hr).
  destruct (waypoint_side T _ (np.zeros T 2) idx Hx Hrange)
    as (rows & Ew & _ & Hw).
  destruct (closure_side T _ (np.zeros T 2) Hx HT)
    as (first & last & Elast & Efirst & _ & _ & Hlf & Hll).
  cbn [mapM cp.check fst snd].
  rewrite El, Er. cbn [mbind result_bind].
  rewrite (same_shape_of_shapes _ _ _ _ Hl Hr). cbn [mbind result_bind].
  rewrite Ew.
  change (cp.eval (np.zeros T 4) (np.zeros T 2) (cp.Const points))
    with (Ok (cp.V2 points)).
  cbn [mbind result_bind].
  rewrite (same_shape_of_shapes (length points) 2 _ points);
    [|rewrite <- Hlen; exact Hw | split; [reflexivity | exact Hpts]].
  cbn [mbind result_bind].
  rewrite Elast, Efirst. cbn [mbind result_bind cp.same_shape].
  rewrite Hlf, Hll. reflexivity.
Qed.

(** X3.  For the dynamics of [get_dynamics], a grid of at least two steps
    and waypoints of two coordinates, [optimize] fails before the solver
    only when there is no waypoint (IndexError, at [point_idx[0] = 0]).
    With one waypoint or more the problem is always built, however many
    waypoints there are: every waypoint index is within the grid, and
    whether the call returns is up to the solver alone. *)
Theorem optimize_problem_built (dt : Q) (t : list Q) (points : np.matrix) :
  let A := fst (get_dynamics dt) in
  let B := snd (get_dynamics dt) in
  (2 <= length t)%nat ->
  Forall (fun row => length row = 2%nat) points ->
  (length points = 0%nat ->
     forall solve, optimize solve A B t points = Raise IndexError)
  /\ ((1 <= length points)%nat ->
        exists prob idx,
          optimize_problem A B t points = Ok prob
          /\ point_indices (length t) (length points) = Ok idx
          /\ length idx = length points
          /\ Forall (fun k => (0 <= k < Z.of_nat (length t))%Z) idx
          /\ forall solve,
               optimize solve A B t points
               = (sol ← solve prob; Ok (cp.x_value sol, cp.u_value sol))).
Proof.
  intros A B HT Hpts. split.
  - intros HP solve. destruct points; [reflexivity | discriminate].
  - intros HP.
    pose proof (point_indices_raw (length t) (length points) HP) as Hidx.
    assert (HT1 : (1 <= length t)%nat) by lia.
    destruct (point_indices_in_range _ _ _ HT1 Hidx) as (Hlen & _ & Hrange).
    assert (Hbuilt : exists prob, optimize_problem A B t points = Ok prob).
    { eexists. unfold optimize_problem. rewrite Hidx. cbn [mbind result_bind].
      unfold A, B. rewrite (checks_pass dt _ _ _ HT1 Hidx Hpts).
      reflexivity. }
    destruct Hbuilt as [prob Hprob].
    exists prob, (raw_point_idx (length t) (length points)).
    split; [exact Hprob|]. split; [exact Hidx|].
    split; [exact Hlen|]. split; [exact Hrange|].
    intros solve. unfold optimize. rewrite Hprob. reflexivity.
Qed.

Lemma optimize_problem_built_witness :
  exists prob idx,
    optimize_problem (fst (get_dynamics 1)) (snd (get_dynamics 1))
      [0; 1; 2]%Q [[0; 0]; [1; 0]]%Q = Ok prob
    /\ point_indices 3 2 = Ok idx
    /\ length idx = 2%nat
    /\ Forall (fun k => (0 <= k < 3)%Z) idx
    /\ forall solve,
         optimize solve (fst (get_dynamics 1)) (snd (get_dynamics 1))
           [0; 1; 2]%Q [[0; 0]; [1; 0]]%Q
         = (sol ← solve prob; Ok (cp.x_value sol, cp.u_value sol)).
Proof.
  destruct (optimize_problem_built 1 [0; 1; 2]%Q [[0; 0]; [1; 0]]%Q)
    as [_ H].
  - simpl. lia.
  - repeat constructor.
  - apply H. simpl. lia.
Defined.

Section FitFacts.

Variable solve : cp.Problem -> result cp.Solved.
Hypothesis solve_sound : solver_sound solve.

(** What an optimal fit is: values of the variables' shapes that meet the
    three constraints. *)
Lemma optimal_fit (A B : np.matrix) (t : list Q) (points : np.matrix)
    (prob : cp.Problem) (sol : cp.Solved) :
  optimize_problem A B t points = Ok prob ->
  solve prob = Ok sol ->
  cp.prob_status sol = cp.optimal ->
  exists x u idx,
    optimize solve A B t points = Ok (Some x, Some u)
    /\ np.has_shape (length t) 4 x /\ np.has_shape (length t) 2 u
    /\ (1 <= length t)%nat
    /\ point_indices (length t) (length points) = Ok idx
    /\ cp.sat x u
         (cp.Eq (cp.Slice (cp.Var cp.X) (Some 1%Z) None)
            (cp.Add (cp.MatMul (cp.Slice (cp.Var cp.X) None (Some (-1)%Z))
                               (np.transpose A))
                    (cp.MatMul (cp.Slice (cp.Var cp.U) None (Some (-1)%Z))
                               (np.transpose B))))
    /\ cp.sat x u (cp.Eq (cp.Take (cp.Var cp.X) idx 2%Z) (cp.Const points))
    /\ cp.sat x u (cp.Eq (cp.Row (cp.Var cp.X) (-1)%Z) (cp.Row (cp.Var cp.X) 0%Z)).
Proof.
  intros Hprob Hsol Hopt.
  destruct (solve_sound prob sol Hsol Hopt) as (x & u & Hx & Hu & Hfeas).
  destruct (optimize_problem_inv _ _ _ _ _ Hprob)
    as (idx & Hidx & Hxs & Hus & Hcs).
  destruct Hfeas as (Hshx & Hshu & Hsat).
  rewrite Hxs in Hshx. rewrite Hus in Hshu. rewrite Hcs in Hsat.
  apply Forall_cons in Hsat as [H1 Hsat].
  apply Forall_cons in Hsat as [H2 Hsat].
  apply Forall_cons in Hsat as [H3 _].
  exists x, u, idx.
  split; [rewrite (optimize_solved solve _ _ _ _ _ _ Hprob Hsol), Hx, Hu;
          reflexivity|].
  split; [exact Hshx|]. split; [exact Hshu|].
  split; [|auto].
  destruct (closure_sat _ _ H3) as (first & _ & Hfirst & _).
  apply lookup_lt_Some in Hfirst. destruct Hshx as [Hn _]. simpl in Hn. lia.
Qed.

(** X4.  A fit the solver reports optimal passes through the waypoints:
    waypoint [i] has a grid index, and the position (the first two
    components) of the returned state at that index is the waypoint. *)
Theorem optimize_passes_through_waypoints (A B : np.matrix) (t : list Q)
    (points : np.matrix) (prob : cp.Problem) (sol : cp.Solved) :
  optimize_problem A B t points = Ok prob ->
  solve prob = Ok sol ->
  cp.prob_status sol = cp.optimal ->
  exists x u idx,
    optimize solve A B t points = Ok (Some x, Some u)
    /\ point_indices (length t) (length points) = Ok idx
    /\ length idx = length points
    /\ forall (i : nat) (k : Z) (p : np.vector),
         idx !! i = Some k -> points !! i = Some p ->
         exists row, x !! Z.to_nat k = Some row /\ np.veq (take 2 row) p.
Proof.
  intros Hprob Hsol Hopt.
  destruct (optimal_fit _ _ _ _ _ _ Hprob Hsol Hopt)
    as (x & u & idx & Hrun & Hx & _ & HT & Hidx & _ & Hway & _).
  destruct (point_indices_in_range _ _ _ HT Hidx) as (Hlen & _ & Hrange).
  exists x, u, idx.
  split; [exact Hrun|]. split; [exact Hidx|]. split; [exact Hlen|].
  intros i k p Hi Hp.
  destruct Hway as (l & r & Hl & Hr & Heq).
  simpl in Hl, Hr. injection Hr as <-.
  apply bind_Ok in Hl as [rows [Hrows Hl]]. injection Hl as <-.
  simpl in Heq. unfold np.meq in Heq.
  apply mapM_Ok_inv in Hrows.
  destruct (Forall2_lookup_l _ _ _ _ _ Hrows Hi) as (row & Hrow & Hget).
  exists row. split.
  - apply getitem_nonneg; [|exact Hget].
    rewrite Forall_lookup in Hrange. apply (Hrange i k Hi).
  - rewrite map_fmap in Heq.
    assert (Hcut : ((fun r : list Q => cp.slice r None (Some 2%Z)) <$> rows) !! i
                   = Some (take 2 row)).
    { rewrite list_lookup_fmap, Hrow. simpl. rewrite slice_to_2. reflexivity. }
    exact (Forall2_lookup_lr _ _ _ _ _ _ Heq Hcut Hp).
Qed.

(** X5.  A fit the solver reports optimal for the matrices of
    [get_dynamics dt] is a rollout of the dynamics: each state but the
    first is the kinematic update of the state and the input before it. *)
Theorem optimize_obeys_dynamics (dt : Q) (t : list Q) (points : np.matrix)
    (prob : cp.Problem) (sol : cp.Solved) :
  optimize_problem (fst (get_dynamics dt)) (snd (get_dynamics dt)) t points
    = Ok prob ->
  solve prob = Ok sol ->
  cp.prob_status sol = cp.optimal ->
  exists x u,
    optimize solve (fst (get_dynamics dt)) (snd (get_dynamics dt)) t points
      = Ok (Some x, Some u)
    /\ forall (k : nat) (xk uk : np.vector),
         (S k < length t)%nat -> x !! k = Some xk -> u !! k = Some uk ->
         exists next, x !! S k = Some next
                      /\ np.veq next (kinematic_step dt xk uk).
Proof.
  intros Hprob Hsol Hopt.
  destruct (optimal_fit _ _ _ _ _ _ Hprob Hsol Hopt)
    as (x & u & idx & Hrun & Hx & Hu & _ & _ & Hdyn & _).
  exists x, u. split; [exact Hrun|].
  intros k xk uk Hk Hxk Huk.
  destruct Hdyn as (l & r & Hl & Hr & Heq).
  destruct (dynamics_sides dt (length t) x u Hx Hu) as (El & Er & _).
  rewrite El in Hl. rewrite Er in Hr.
  injection Hl as <-. injection Hr as <-.
  simpl in Heq. unfold np.meq in Heq.
  destruct (dynamics_rhs_row dt _ k x u xk uk Hx Hu Hk Hxk Huk)
    as (row & Hrow & Hkin).
  destruct (Forall2_lookup_r _ _ _ _ _ Heq Hrow) as (next & Hnext & Hveq).
  exists next. split.
  - rewrite lookup_drop in Hnext. exact Hnext.
  - etransitivity; eassumption.
Qed.

End FitFacts.

Lemma optimize_passes_through_waypoints_witness :
  exists x u idx,
    optimize zero_solver (fst (get_dynamics 1)) (snd (get_dynamics 1))
      [0; 1; 2]%Q [[0; 0]; [0; 0]]%Q = Ok (Some x, Some u)
    /\ point_indices 3 2 = Ok idx
    /\ length idx = 2%nat
    /\ forall (i : nat) (k : Z) (p : np.vector),
         idx !! i = Some k -> [[0; 0]; [0; 0]]%Q !! i = Some p ->
         exists row, x !! Z.to_nat k = Some row /\ np.veq (take 2 row) p.
Proof.
  eapply (optimize_passes_through_waypoints zero_solver zero_solver_sound
            (fst (get_dynamics 1)) (snd (get_dynamics 1))
            [0; 1; 2]%Q [[0; 0]; [0; 0]]%Q); reflexivity.
Defined.

Lemma optimize_obeys_dynamics_witness :
  exists x u,
    optimize zero_solver (fst (get_dynamics 1)) (snd (get_dynamics 1))
      [0; 1; 2]%Q [[0; 0]; [0; 0]]%Q = Ok (Some x, Some u)
    /\ forall (k : nat) (xk uk : np.vector),
         (S k < 3)%nat -> x !! k = Some xk -> u !! k = Some uk ->
         exists next, x !! S k = Some next
                      /\ np.veq next (kinematic_step 1 xk uk).
Proof.
  eapply (optimize_obeys_dynamics zero_solver zero_solver_sound 1
            [0; 1; 2]%Q [[0; 0]; [0; 0]]%Q); reflexivity.
Defined.

(** ** More on the simulator *)

Lemma init_heap (cfg : Config) (w w' : World) (self : loc) :
  Sim.init cfg w = (Ok self, w') ->
  exists a b g,
    let h1 := <[a := Ndarray (fst (get_dynamics (time_step cfg)))]> (heap w) in
    let h2 := <[b := Ndarray (snd (get_dynamics (time_step cfg)))]> h1 in
    let h3 := <[g := GeneratorObj {| stream := entropy w (seeded w); pos := 0 |}]> h2 in
    heap w' = <[self := SimulatorObj {| config := cfg; A := a; B := b; rng := g |}]> h3
    /\ (a ∉ dom (heap w)) /\ (b ∉ dom h1) /\ (g ∉ dom h2) /\ (self ∉ dom h3).
Proof.
  unfold Sim.init, get_dynamics_at, default_rng, alloc, mbind, M_bind, mret, M_ret.
  simpl. intros H. injection H as <- <-.
  do 3 eexists. cbv zeta. simpl.
  split; [reflexivity|].
  repeat split; apply is_fresh.
Qed.

(** X6.  When [Simulator(config)] returns, it has added exactly four
    objects, at four different addresses that were not in use, and changed
    no other: the instance, with the given configuration, the two arrays of
    [get_dynamics] for its time step, and a generator of its own, at the
    start of the next stream the entropy source gives; that stream is then
    used up, so the next generator seeded gets another. *)
Theorem simulator_init_fresh (cfg : Config) (w w' : World) (self : loc) :
  Sim.init cfg w = (Ok self, w') ->
  exists s,
    config s = cfg
    /\ Sim.is_instance w' self s {| stream := entropy w (seeded w); pos := 0 |}
    /\ heap w ⊆ heap w'
    /\ heap w !! self = None /\ heap w !! rng s = None
    /\ heap w !! A s = None /\ heap w !! B s = None
    /\ NoDup [self; A s; B s; rng s]
    /\ (forall l, is_Some (heap w' !! l)
                  <-> is_Some (heap w !! l) \/ l ∈ [self; A s; B s; rng s])
    /\ entropy w' = entropy w /\ seeded w' = S (seeded w).
Proof.
  intros H.
  destruct (init_heap cfg w w' self H) as (a & b & g & Hheap & Ha & Hb & Hg & Hs).
  cbv zeta in *.
  destruct (init_run cfg w)
    as (self0 & w0 & s & Hinit & Hsub & He & Hse & Hcfg & Hinst & H1 & H2 & H3 & H4).
  rewrite H in Hinit. injection Hinit as <- <-.
  assert (Es : s = {| config := cfg; A := a; B := b; rng := g |}).
  { destruct Hinst as [Hself _]. rewrite Hheap, lookup_insert_eq in Hself.
    congruence. }
  exists s. subst s. cbn [config A B rng] in *.
  repeat (split; [assumption|]).
  apply not_elem_of_dom in Hb, Hg, Hs.
  rewrite !lookup_insert_None in Hb.
  rewrite !lookup_insert_None in Hg.
  rewrite !lookup_insert_None in Hs.
  split.
  - rewrite !NoDup_cons, !not_elem_of_cons.
    repeat split; try apply not_elem_of_nil; try apply NoDup_nil_2;
      intuition congruence.
  - split; [|auto]. intros l.
    rewrite Hheap, !lookup_insert_is_Some', !elem_of_cons, elem_of_nil.
    intuition congruence.
Qed.

Lemma simulator_init_fresh_witness :
  exists self w' s,
    Sim.init demo_config demo_world = (Ok self, w')
    /\ config s = demo_config
    /\ heap demo_world !! self = None
    /\ heap w' !! self = Some (SimulatorObj s)
    /\ seeded w' = S (seeded demo_world).
Proof.
  destruct (Sim.init demo_config demo_world) as [[self|e] w'] eqn:E;
    [|vm_compute in E; discriminate].
  destruct (simulator_init_fresh demo_config demo_world w' self E)
    as (s & Hcfg & (Hself & _) & _ & Hfresh & _ & _ & _ & _ & _ & _ & Hseed).
  exists self, w', s. auto.
Defined.

Lemma kinematic_row (dt : Q) (xi ui : np.vector) :
  length xi = 4%nat -> length ui = 2%nat ->
  np.veq
    (zip_with Qplus
       (map (np.dot xi) (np.transpose (np.transpose (fst (get_dynamics dt)))))
       (map (np.dot ui) (np.transpose (np.transpose (snd (get_dynamics dt))))))
    (kinematic_step dt xi ui).
Proof.
  intros Hx Hu.
  destruct xi as [|px [|py [|vx [|vy [|]]]]]; try discriminate.
  destruct ui as [|ax [|ay [|]]]; try discriminate.
  simpl. unfold np.dot. simpl.
  repeat (apply List.Forall2_cons; [ring|]). apply List.Forall2_nil.
Qed.

Lemma kinematic_step_length (dt : Q) (xi ui : np.vector) :
  length xi = 4%nat -> length ui = 2%nat ->
  length (kinematic_step dt xi ui) = 4%nat.
Proof.
  intros Hx Hu.
  destruct xi as [|px [|py [|vx [|vy [|]]]]]; try discriminate.
  destruct ui as [|ax [|ay [|]]]; try discriminate.
  reflexivity.
Qed.

Lemma zip_with_Qplus_veq (a a' n : np.vector) :
  np.veq a a' -> np.veq (zip_with Qplus a n) (zip_with Qplus a' n).
Proof.
  intros H. revert n. induction H as [|x y a a' Hxy _ IH]; intros [|q n];
    simpl; try constructor.
  - rewrite Hxy. reflexivity.
  - apply IH.
Qed.

(** Row [i] of a reshaped buffer is its [i]-th run of [c] entries. *)
Lemma reshape_lookup (r c i : nat) (l : list Q) :
  (i < r)%nat ->
  random.reshape r c l !! i = Some (take c (drop (i * c) l)).
Proof.
  revert i l. induction r as [|r IH]; intros i l Hi; [lia|].
  destruct i as [|i]; simpl.
  - reflexivity.
  - rewrite IH by lia. rewrite drop_drop. reflexivity.
Qed.

Lemma samples_run (g : Generator) (s : Q) (n k c : nat) :
  (k + c <= n)%nat ->
  take c (drop k (random.samples g s n))
  = map (fun j => (stream g (pos g + (k + j))%nat * s)%Q) (seq 0 c).
Proof.
  intros H. unfold random.samples.
  rewrite !map_fmap, <- fmap_drop, <- fmap_take, drop_seq, take_seq.
  replace (Nat.min c (n - k)) with c by lia.
  apply list_eq. intros i. rewrite !list_lookup_fmap.
  destruct (decide (i < c)%nat) as [Hi|Hi].
  - rewrite !lookup_seq_lt by lia. reflexivity.
  - rewrite !lookup_seq_ge by lia. reflexivity.
Qed.

Lemma drawn_of_shape (N : nat) (m : np.matrix) :
  np.has_shape N 4 m -> (length m * np.ncols m = N * 4)%nat.
Proof.
  intros H. destruct m as [|r m].
  - destruct H as [<- _]. reflexivity.
  - destruct N as [|N]; [destruct H; discriminate|].
    pose proof H as [HN _]. apply has_shape_cons in H as [Hr _].
    unfold np.ncols. simpl hd. rewrite Hr, HN. reflexivity.
Qed.

(** X7.  Row by row, [step] returns the kinematic update of each state by
    its input over the time step, plus noise; entry [j] of row [i] gets the
    sample [4·i + j] after the generator's position, times the scale. *)
Theorem step_rows (w : World) (self x u : loc) (s : Simulator)
    (g : Generator) (xv uv : np.matrix) (N : nat) :
  let scale := (trajectory_noise (config s) * time_step (config s))%Q in
  Sim.is_instance w self s g ->
  heap w !! x = Some (Ndarray xv) ->
  heap w !! u = Some (Ndarray uv) ->
  np.has_shape N 4 xv ->
  np.has_shape N 2 uv ->
  (0 <= scale)%Q ->
  exists r w' res,
    Sim.step self x u w = (Ok r, w')
    /\ heap w' !! r = Some (Ndarray res)
    /\ length res = N
    /\ forall (i : nat) (xi ui : np.vector),
         xv !! i = Some xi -> uv !! i = Some ui ->
         exists row,
           res !! i = Some row
           /\ np.veq row
                (zip_with Qplus
                   (kinematic_step (time_step (config s)) xi ui)
                   (map (fun j => (stream g (pos g + (4 * i + j))%nat * scale)%Q)
                        (seq 0 4))).
Proof.
  intros scale Hinst Hx Hu Hxs Hus Hsc.
  destruct (step_run w self x u s g xv uv N Hinst Hx Hu Hxs Hus Hsc)
    as (r & w' & xa & ub & sum & res & Hrun & Hxa & Hub & Hsum & _
        & _ & Hnoise & Hress & Eres & _ & Hr & _).
  fold scale in Eres, Hnoise.
  exists r, w', res. split; [exact Hrun|]. split; [exact Hr|].
  split; [destruct Hress as [Hl _]; exact Hl|].
  intros i xi ui Hxi Hui.
  destruct (matmul_shape N 4 xv
              (np.transpose (fst (get_dynamics (time_step (config s)))))
              Hxs eq_refl) as [Exa Hxas].
  destruct (matmul_shape N 2 uv
              (np.transpose (snd (get_dynamics (time_step (config s)))))
              Hus eq_refl) as [Eub Hubs].
  rewrite Exa in Hxa. injection Hxa as <-.
  rewrite Eub in Hub. injection Hub as <-.
  change (length (np.transpose (np.transpose
            (fst (get_dynamics (time_step (config s))))))) with 4%nat in Hxas.
  change (length (np.transpose (np.transpose
            (snd (get_dynamics (time_step (config s))))))) with 4%nat in Hubs.
  pose proof (eq_trans (eq_sym Hsum) (add_same N 4 _ _ Hxas Hubs)) as Esum.
  injection Esum as ->. clear Hsum.
  pose proof (lookup_lt_Some _ _ _ Hxi) as Hi.
  destruct Hxs as [HN Hxrows]. destruct Hus as [_ Hurows].
  rewrite List.Forall_forall in Hxrows, Hurows.
  assert (Hlx : length xi = 4%nat)
    by (apply Hxrows, list_elem_of_In, list_elem_of_lookup; eauto).
  assert (Hlu : length ui = 2%nat)
    by (apply Hurows, list_elem_of_In, list_elem_of_lookup; eauto).
  assert (Hc : np.ncols xv = 4%nat).
  { destruct xv as [|r0 xv]; [simpl in Hi; lia|].
    unfold np.ncols. simpl. apply Hxrows. left. reflexivity. }
  eexists. split.
  - rewrite Eres. unfold np.matrix, np.vector in *.
    rewrite !lookup_zip_with, !map_fmap, !list_lookup_fmap, Hxi, Hui.
    rewrite Hc, reshape_lookup by exact Hi. reflexivity.
  - unfold np.matrix, np.vector in *.
    rewrite samples_run by lia.
    replace (i * 4)%nat with (4 * i)%nat by lia.
    apply zip_with_Qplus_veq, kinematic_row; assumption.
Qed.

Lemma step_rows_witness :
  exists r w' res,
    Sim.step 3 4 5 demo_world = (Ok r, w')
    /\ heap w' !! r = Some (Ndarray res)
    /\ length res = 2%nat.
Proof.
  destruct (step_rows demo_world 3 4 5 demo_simulator demo_generator
              demo_states demo_inputs 2)
    as (r & w' & res & Hrun & Hr & Hl & _).
  - repeat split; reflexivity.
  - reflexivity.
  - reflexivity.
  - split; [reflexivity | repeat constructor].
  - split; [reflexivity | repeat constructor].
  - discriminate.
  - exists r, w', res. auto.
Defined.

Lemma bindM_Raise {A B} (m : M A) (f : A -> M B) (w w1 : World) (e : exn) :
  m w = (Raise e, w1) -> (m ≫= f) w = (Raise e, w1).
Proof. intros H. unfold mbind, M_bind. rewrite H. reflexivity. Qed.

Lemma matmul_T_at_raise (w : World) (a b : loc) (av bv : np.matrix) (e : exn) :
  heap w !! a = Some (Ndarray av) -> heap w !! b = Some (Ndarray bv) ->
  np.matmul av (np.transpose bv) = Raise e ->
  matmul_T_at a b w = (Raise e, w).
Proof.
  intros Ha Hb He. unfold matmul_T_at.
  rewrite (bindM_Ok _ _ _ _ _ (load_ndarray_run _ _ _ Ha)).
  rewrite (bindM_Ok _ _ _ _ _ (load_ndarray_run _ _ _ Hb)).
  rewrite He. reflexivity.
Qed.

(** X8.  A batch of states with other than four columns makes [step] raise
    ValueError at [x @ self.A.T], whatever the inputs are; the noise has
    been drawn by then, so the generator has moved on by one sample per
    entry of [x], and nothing else has changed. *)
Theorem step_wrong_width_consumes_samples (w : World) (self x u : loc)
    (s : Simulator) (g : Generator) (xv : np.matrix) (N c : nat) :
  let scale := (trajectory_noise (config s) * time_step (config s))%Q in
  Sim.is_instance w self s g ->
  heap w !! x = Some (Ndarray xv) ->
  np.has_shape N c xv ->
  (1 <= N)%nat -> c <> 4%nat ->
  (0 <= scale)%Q ->
  exists w',
    Sim.step self x u w = (Raise ValueError, w')
    /\ heap w' !! rng s = Some (GeneratorObj (random.advance g (N * c)))
    /\ moves (rng s) w w'.
Proof.
  intros scale (Hself & HA & HB & Hrng) Hx Hxs HN Hc Hsc.
  pose proof (step_moves w self x u s Hself) as Hm.
  assert (Hshape : length xv = N /\ np.ncols xv = c).
  { destruct Hxs as [Hl Hrows]. split; [exact Hl|].
    destruct xv as [|r xv]; [simpl in Hl; lia|].
    unfold np.ncols. simpl. apply Forall_cons in Hrows as [Hr _]. exact Hr. }
  destruct Hshape as [Hl Hnc].
  unfold Sim.step in *.
  rewrite (bindM_Ok _ _ _ _ _ (load_simulator_run _ _ _ Hself)) in *.
  rewrite (bindM_Ok _ _ _ _ _ (shape_at_run _ _ _ Hx)) in *.
  cbn [fst snd] in *. fold scale in Hm |- *. rewrite Hl, Hnc in *.
  destruct (normal_at_run w (rng s) g scale N c Hrng Hsc)
    as (ln & w1 & Erun1 & Hm1 & _ & _ & Hrng1).
  rewrite (bindM_Ok _ _ _ _ _ Erun1) in *.
  assert (Hraise : np.matmul xv
            (np.transpose (fst (get_dynamics (time_step (config s)))))
          = Raise ValueError).
  { unfold np.matmul.
    destruct xv as [|r xv]; [simpl in Hl; lia|].
    destruct Hxs as [_ Hrows]. apply Forall_cons in Hrows as [Hr _].
    cbn [forallb]. rewrite Hr.
    change (length (np.transpose (fst (get_dynamics (time_step (config s))))))
      with 4%nat.
    destruct (Nat.eqb_spec c 4) as [?|_]; [contradiction | reflexivity]. }
  pose proof (matmul_T_at_raise w1 x (A s) xv _ ValueError
                (moves_ndarray _ _ _ _ _ Hm1 Hx)
                (moves_ndarray _ _ _ _ _ Hm1 HA) Hraise) as Erun2.
  rewrite (bindM_Raise _ _ _ _ _ Erun2) in *.
  exists w1. split; [reflexivity|]. split; [exact Hrng1 | exact Hm].
Qed.

Lemma step_wrong_width_consumes_samples_witness :
  exists w',
    Sim.step 3 5 5 demo_world = (Raise ValueError, w')
    /\ heap w' !! 2%nat
       = Some (GeneratorObj (random.advance demo_generator (2 * 2)))
    /\ moves 2 demo_world w'.
Proof.
  apply (step_wrong_width_consumes_samples demo_world 3 5 5 demo_simulator
           demo_generator demo_inputs 2 2).
  - repeat split; reflexivity.
  - reflexivity.
  - split; [reflexivity | repeat constructor].
  - lia.
  - discriminate.
  - discriminate.
Defined.

(** X9.  With a negative noise scale [trajectory_noise · time_step] every
    call of [step] on an array raises ValueError at the draw, and leaves
    the store as it was: no sample is consumed. *)
Theorem step_negative_scale_raises (w : World) (self x u : loc)
    (s : Simulator) (g : Generator) (xv : np.matrix) :
  Sim.is_instance w self s g ->
  heap w !! x = Some (Ndarray xv) ->
  (trajectory_noise (config s) * time_step (config s) < 0)%Q ->
  Sim.step self x u w = (Raise ValueError, w).
Proof.
  intros (Hself & _ & _ & Hrng) Hx Hsc.
  unfold Sim.step.
  rewrite (bindM_Ok _ _ _ _ _ (load_simulator_run _ _ _ Hself)).
  rewrite (bindM_Ok _ _ _ _ _ (shape_at_run _ _ _ Hx)).
  apply bindM_Raise.
  unfold normal_at, mbind, M_bind, load_generator, lift, random.normal.
  rewrite Hrng.
  destruct (Qle_bool 0 _) eqn:E; [|reflexivity].
  apply Qle_bool_iff in E. exfalso. revert E. apply Qlt_not_le. exact Hsc.
Qed.

Lemma step_negative_scale_raises_witness :
  let s := {| config := {| time_step := -1; trajectory_noise := 1;
                           state_noise := 0; trajectory_radius := 1;
                           trajectory_margin := 0; duration := 1;
                           n_trajectories := 1 |};
              A := 0; B := 1; rng := 2 |} in
  let w := with_heap (<[3%nat := SimulatorObj s]>
             (<[0%nat := Ndarray (fst (get_dynamics (-1)))]>
                (<[1%nat := Ndarray (snd (get_dynamics (-1)))]>
                   (heap demo_world)))) demo_world in
  Sim.step 3 4 5 w = (Raise ValueError, w).
Proof.
  intros s w.
  apply (step_negative_scale_raises w 3 4 5 s demo_generator demo_states).
  - repeat split; reflexivity.
  - reflexivity.
  - reflexivity.
Defined.

(** X10.  In a rollout, where the result of one call is the state of the
    next, the two calls use consecutive runs of the generator's samples:
    the first [4·N] after its position for the first call, the next [4·N]
    for the second.  The first result is still there, unchanged, after the
    second call. *)
Theorem step_rollout_draws_fresh_samples (w : World) (self x u u2 : loc)
    (s : Simulator) (g : Generator) (xv uv uv2 : np.matrix) (N : nat) :
  let scale := (trajectory_noise (config s) * time_step (config s))%Q in
  let Amat := fst (get_dynamics (time_step (config s))) in
  let Bmat := snd (get_dynamics (time_step (config s))) in
  Sim.is_instance w self s g ->
  heap w !! x = Some (Ndarray xv) ->
  heap w !! u = Some (Ndarray uv) ->
  heap w !! u2 = Some (Ndarray uv2) ->
  np.has_shape N 4 xv -> np.has_shape N 2 uv -> np.has_shape N 2 uv2 ->
  (0 <= scale)%Q ->
  exists r1 w1 res1 r2 w2 res2 xa2 ub2 sum2,
    Sim.step self x u w = (Ok r1, w1)
    /\ heap w1 !! r1 = Some (Ndarray res1)
    /\ Sim.step self r1 u2 w1 = (Ok r2, w2)
    /\ heap w2 !! r2 = Some (Ndarray res2)
    /\ heap w2 !! r1 = Some (Ndarray res1)
    /\ r1 <> r2
    /\ np.matmul res1 (np.transpose Amat) = Ok xa2
    /\ np.matmul uv2 (np.transpose Bmat) = Ok ub2
    /\ np.add xa2 ub2 = Ok sum2
    /\ np.add sum2
         (random.reshape (length res1) (np.ncols res1)
            (random.samples (random.advance g (N * 4)) scale (N * 4)))
       = Ok res2
    /\ heap w2 !! rng s
       = Some (GeneratorObj (random.advance g (N * 4 + N * 4))).
Proof.
  intros scale Amat Bmat Hinst Hx Hu Hu2 Hxs Hus Hus2 Hsc.
  pose proof Hinst as (Hself & HA & HB & Hrng).
  destruct (step_run w self x u s g xv uv N Hinst Hx Hu Hxs Hus Hsc)
    as (r1 & w1 & xa & ub & sum & res1 & Hrun1 & _ & _ & _ & _
        & _ & _ & Hres1s & _ & Hr1fresh & Hr1 & Hrng1).
  rewrite (drawn_of_shape N xv Hxs) in Hrng1.
  pose proof (step_moves w self x u s Hself) as Hm1.
  rewrite Hrun1 in Hm1. cbn [snd] in Hm1.
  assert (Hinst1 : Sim.is_instance w1 self s (random.advance g (N * 4))).
  { split; [exact (moves_simulator _ _ _ _ _ Hm1 Hself)|].
    split; [exact (moves_ndarray _ _ _ _ _ Hm1 HA)|].
    split; [exact (moves_ndarray _ _ _ _ _ Hm1 HB) | exact Hrng1]. }
  destruct (step_run w1 self r1 u2 s (random.advance g (N * 4)) res1 uv2 N
              Hinst1 Hr1 (moves_ndarray _ _ _ _ _ Hm1 Hu2) Hres1s Hus2 Hsc)
    as (r2 & w2 & xa2 & ub2 & sum2 & res2 & Hrun2 & Hxa2 & Hub2 & Hsum2 & Hres2
        & _ & _ & _ & _ & Hr2fresh & Hr2 & Hrng2).
  rewrite (drawn_of_shape N res1 Hres1s) in Hres2, Hrng2.
  rewrite advance_advance in Hrng2.
  pose proof (step_moves w1 self r1 u2 s (moves_simulator _ _ _ _ _ Hm1 Hself))
    as Hm2.
  rewrite Hrun2 in Hm2. cbn [snd] in Hm2.
  exists r1, w1, res1, r2, w2, res2, xa2, ub2, sum2.
  split; [exact Hrun1|]. split; [exact Hr1|]. split; [exact Hrun2|].
  split; [exact Hr2|].
  split; [exact (moves_ndarray _ _ _ _ _ Hm2 Hr1)|].
  split; [congruence|].
  auto 10.
Qed.

Lemma step_rollout_draws_fresh_samples_witness :
  exists r1 w1 r2 w2,
    Sim.step 3 4 5 demo_world = (Ok r1, w1)
    /\ Sim.step 3 r1 5 w1 = (Ok r2, w2)
    /\ heap w2 !! 2%nat
       = Some (GeneratorObj (random.advance demo_generator (2 * 4 + 2 * 4))).
Proof.
  destruct (step_rollout_draws_fresh_samples demo_world 3 4 5 5
              demo_simulator demo_generator demo_states demo_inputs
              demo_inputs 2)
    as (r1 & w1 & res1 & r2 & w2 & res2 & xa2 & ub2 & sum2
        & H1 & _ & H2 & _ & _ & _ & _ & _ & _ & _ & Hg).
  - repeat split; reflexivity.
  - reflexivity.
  - reflexivity.
  - reflexivity.
  - split; [reflexivity | repeat constructor].
  - split; [reflexivity | repeat constructor].
  - split; [reflexivity | repeat constructor].
  - discriminate.
  - exists r1, w1, r2, w2. auto.
Defined.

(** ** More on the batch generator *)

Lemma normal3_inv (g : Generator) (scale : Q) (n r c : nat)
    (d : np.tensor3 * Generator) :
  random.normal3 g scale n r c = Ok d ->
  (0 <= scale)%Q
  /\ d = (random.reshape3 n r c (random.samples g scale (n * (r * c))),
          random.advance g (n * (r * c))).
Proof.
  unfold random.normal3. destruct (Qle_bool 0 scale) eqn:E; [|discriminate].
  intros H. injection H as <-. split; [apply Qle_bool_iff; exact E | reflexivity].
Qed.

Lemma reshape3_Forall (P : Q -> Prop) (n r c : nat) (l : list Q) :
  Forall P l -> Forall (Forall (Forall P)) (random.reshape3 n r c l).
Proof.
  revert l. induction n as [|n IH]; intros l Hl; simpl; constructor.
  - apply reshape_Forall, Forall_take. exact Hl.
  - apply IH, Forall_drop. exact Hl.
Qed.

Lemma broadcast_same_inv {A} (f : A -> A -> result A) (a b res : list A) :
  length a = length b ->
  np.broadcast f a b = Ok res ->
  length res = length a
  /\ forall i ai bi, a !! i = Some ai -> b !! i = Some bi ->
       exists ri, res !! i = Some ri /\ f ai bi = Ok ri.
Proof.
  intros Hlen H. unfold np.broadcast in H.
  rewrite Hlen, Nat.eqb_refl in H.
  apply mapM_Ok_inv in H.
  split.
  - rewrite <- (Forall2_length _ _ _ H), length_zip_with. lia.
  - intros i ai bi Ha Hb.
    assert (Hz : zip a b !! i = Some (ai, bi)).
    { rewrite lookup_zip_with, Ha. simpl. rewrite Hb. reflexivity. }
    destruct (Forall2_lookup_l _ _ _ _ _ H Hz) as (ri & Hri & Hf).
    exists ri. auto.
Qed.

Lemma setitem_inv (a a' : np.ntensor3) (r c i : nat) (v : option np.matrix) :
  setitem a r c i v = Ok a' ->
  (i < length a)%nat /\ value_shape r c v /\ a' = <[i := assigned r c v]> a.
Proof.
  unfold setitem.
  destruct (Nat.ltb_spec i (length a)) as [Hi|?]; [|discriminate]. simpl.
  destruct v as [m|].
  - destruct (cp.shapeb (r, c) m) eqn:E; [|discriminate].
    intros H. injection H as <-. apply shapeb_has_shape in E.
    split; [exact Hi|]. split; [|reflexivity].
    intros m' Hm. injection Hm as <-. exact E.
  - intros H. injection H as <-.
    split; [exact Hi|]. split; [|reflexivity]. intros m' Hm. discriminate.
Qed.



(** NaN plus a number is NaN. *)
Lemma nadd2_nan (r c : nat) (m : np.matrix) :
  np.has_shape r c m ->
  np.nadd2 (np.full_nan r c) (np.finite2 m) = Ok (np.full_nan r c).
Proof.
  intros [Hr Hc].
  assert (Hrow : forall row : np.vector, length row = c ->
            np.broadcast (fun x y => Ok (np.nadd x y))
              (repeat np.nan c) (map Some row) = Ok (repeat np.nan c)).
  { clear. intros row <-.
    rewrite (broadcast_same _ np.nadd);
      [|rewrite repeat_length, length_map; auto | reflexivity].
    f_equal. induction row as [|q row IH]; [reflexivity|].
    simpl. rewrite IH. reflexivity. }
  unfold np.nadd2, np.full_nan, np.finite2.
  rewrite (broadcast_same _ (fun a _ => a)).
  - f_equal. subst r. clear Hc Hrow. induction m as [|row m IH]; [reflexivity|].
    simpl. rewrite IH. reflexivity.
  - rewrite repeat_length, length_map. auto.
  - intros x y Hx Hy. apply repeat_spec in Hx. subst x.
    apply in_map_iff in Hy as (row & <- & Hin).
    apply Hrow. rewrite List.Forall_forall in Hc. auto.
Qed.


Section BatchFacts.

Variable solve : cp.Problem -> result cp.Solved.

Lemma fit_one_inv (A B : np.matrix) (t : list Q) (batch : np.tensor3)
    (x u x' u' : np.ntensor3) (i : nat) :
  fit_one solve A B t batch (x, u) i = Ok (x', u') ->
  exists pts xo uo,
    batch !! i = Some pts
    /\ optimize solve A B t pts = Ok (xo, uo)
    /\ value_shape (length t) 4 xo /\ value_shape (length t) 2 uo
    /\ (i < length x)%nat /\ (i < length u)%nat
    /\ x' = <[i := assigned (length t) 4 xo]> x
    /\ u' = <[i := assigned (length t) 2 uo]> u.
Proof.
  unfold fit_one. cbn [fst snd]. intros H.
  apply bind_Ok in H as (pts & Hpts & H).
  apply bind_Ok in H as ([xo uo] & Hopt & H). cbn [fst snd] in H.
  apply bind_Ok in H as (x1 & Hx1 & H).
  apply bind_Ok in H as (u1 & Hu1 & H).
  injection H as <- <-.
  apply setitem_inv in Hx1 as (Hix & Hxv & ->).
  apply setitem_inv in Hu1 as (Hiu & Huv & ->).
  exists pts, xo, uo.
  split; [|auto 10].
  apply getitem_nonneg in Hpts; [|lia]. rewrite Nat2Z.id in Hpts. exact Hpts.
Qed.



(** After the loop, entry [i] of the two arrays holds what the [i]-th fit
    returned, or NaN where it returned no value; entries outside the range
    are as before. *)
Lemma fit_loop_inv (A B : np.matrix) (t : list Q) (batch : np.tensor3)
    (range : list nat) :
  NoDup range ->
  forall x u x' u',
    for_each (fit_one solve A B t batch) (x, u) range = Ok (x', u') ->
    length x' = length x /\ length u' = length u
    /\ (forall j, j ∉ range -> x' !! j = x !! j /\ u' !! j = u !! j)
    /\ (forall i, i ∈ range ->
          exists pts xo uo,
            batch !! i = Some pts
            /\ optimize solve A B t pts = Ok (xo, uo)
            /\ value_shape (length t) 4 xo /\ value_shape (length t) 2 uo
            /\ x' !! i = Some (assigned (length t) 4 xo)
            /\ u' !! i = Some (assigned (length t) 2 uo)).
Proof.
  induction 1 as [|i range Hi _ IH]; intros x u x' u' H.
  - injection H as <- <-. repeat split; try reflexivity.
    intros i Hin. inversion Hin.
  - cbn [for_each] in H. apply bind_Ok in H as ([x1 u1] & Hone & H).
    apply fit_one_inv in Hone
      as (pts & xo & uo & Hpts & Hopt & Hxv & Huv & Hix & Hiu & -> & ->).
    destruct (IH _ _ _ _ H) as (Hlx & Hlu & Hout & Hin).
    assert (Hlx' : length x' = length x)
      by exact (eq_trans Hlx (length_insert x i _)).
    assert (Hlu' : length u' = length u)
      by exact (eq_trans Hlu (length_insert u i _)).
    split; [exact Hlx'|]. split; [exact Hlu'|]. split.
    + intros j Hj. apply not_elem_of_cons in Hj as [Hji Hj].
      destruct (Hout j Hj) as [-> ->].
      split; apply list_lookup_insert_ne; congruence.
    + intros j Hj. apply elem_of_cons in Hj as [->|Hj]; [|exact (Hin j Hj)].
      exists pts, xo, uo.
      destruct (Hout i Hi) as [-> ->].
      repeat (split; [assumption|]).
      split; apply list_lookup_insert_eq; assumption.
Qed.


Lemma generate_unfold (cfg : Config) (rng : Generator) :
  generate_expert_trajectories solve cfg rng
  = (t ← np.arange 0 (duration cfg) (time_step cfg);
     pr ← perturbed_points cfg rng;
     xu ← for_each (fit_one solve (fst (get_dynamics (time_step cfg)))
                      (snd (get_dynamics (time_step cfg))) t (fst pr))
            (np.finite3 (np.zeros3 (n_trajectories cfg) (length t) 4),
             np.finite3 (np.zeros3 (n_trajectories cfg) (length t) 2))
            (seq 0 (n_trajectories cfg));
     d ← random.normal3 (snd pr) (state_noise cfg * time_step cfg)
           (n_trajectories cfg) (length t) 4;
     x' ← np.nadd3 (fst xu) (np.finite3 (fst d));
     Ok (x', snd xu, fst pr)).
Proof.
  unfold generate_expert_trajectories.
  change (get_dynamics (time_step cfg))
    with (fst (get_dynamics (time_step cfg)), snd (get_dynamics (time_step cfg))).
  cbv iota beta.
  destruct (np.arange 0 (duration cfg) (time_step cfg)) as [t|e]; [|reflexivity].
  cbn [mbind result_bind].
  destruct (perturbed_points cfg rng) as [[points rng']|e]; [|reflexivity].
  cbn [mbind result_bind fst snd].
  destruct (for_each _ _ _) as [[x u]|e]; reflexivity.
Qed.

Lemma zeros3_length (n r c : nat) : length (np.finite3 (np.zeros3 n r c)) = n.
Proof. rewrite finite3_length. apply repeat_length. Qed.

(** What a returned batch holds, trajectory by trajectory. *)
Lemma generate_inv (cfg : Config) (rng : Generator)
    (states inputs : np.ntensor3) (points : np.tensor3) :
  let n := n_trajectories cfg in
  let A := fst (get_dynamics (time_step cfg)) in
  let B := snd (get_dynamics (time_step cfg)) in
  let scale := (state_noise cfg * time_step cfg)%Q in
  generate_expert_trajectories solve cfg rng = Ok (states, inputs, points) ->
  exists t rng' d,
    np.arange 0 (duration cfg) (time_step cfg) = Ok t
    /\ perturbed_points cfg rng = Ok (points, rng')
    /\ random.normal3 rng' scale n (length t) 4 = Ok d
    /\ length states = n /\ length inputs = n
    /\ forall i, (i < n)%nat ->
         exists pts xo uo noise,
           points !! i = Some pts
           /\ optimize solve A B t pts = Ok (xo, uo)
           /\ fst d !! i = Some noise
           /\ inputs !! i = Some (assigned (length t) 2 uo)
           /\ match xo with
              | Some xv =>
                  exists st,
                    np.add xv noise = Ok st
                    /\ states !! i = Some (np.finite2 st)
                    /\ ((scale == 0)%Q -> np.meq st xv)
              | None => states !! i = Some (np.full_nan (length t) 4)
              end.
Proof.
  intros n A B scale H. rewrite generate_unfold in H.
  apply bind_Ok in H as (t & Ht & H).
  apply bind_Ok in H as ([batch rng'] & Hpts & H). cbn [fst snd] in H.
  apply bind_Ok in H as ([x' u'] & Hloop & H). cbn [fst snd] in H.
  apply bind_Ok in H as (d & Hd & H).
  apply bind_Ok in H as (st & Hadd & H).
  injection H as <- <- <-.
  fold n A B scale in Hloop, Hd.
  exists t, rng', d. split; [exact Ht|]. split; [exact Hpts|].
  split; [exact Hd|].
  destruct (fit_loop_inv A B t batch (seq 0 n) (NoDup_seq 0 n) _ _ _ _ Hloop)
    as (Hlx & Hlu & _ & Hin).
  rewrite zeros3_length in Hlx, Hlu.
  apply normal3_inv in Hd as [Hsc Ed].
  assert (Hds : np.has_shape3 n (length t) 4 (fst d)).
  { rewrite Ed. simpl. apply reshape3_shape, samples_length. }
  destruct (broadcast_same_inv np.nadd2 x' (np.finite3 (fst d)) st)
    as (Hls & Hrows).
  { rewrite finite3_length. destruct Hds as [Hl _]. congruence. }
  { exact Hadd. }
  split; [congruence|]. split; [exact Hlu|].
  intros i Hi.
  destruct (Hin i) as (pts & xo & uo & Hp & Hopt & Hxv & Huv & Hxi & Hui).
  { apply elem_of_seq. lia. }
  destruct (lookup_lt_is_Some_2 (fst d) i) as [noise Hnoise].
  { destruct Hds as [Hl _]. lia. }
  assert (Hns : np.has_shape (length t) 4 noise).
  { destruct Hds as [_ Hall]. rewrite List.Forall_forall in Hall.
    apply Hall, list_elem_of_In, list_elem_of_lookup. eauto. }
  destruct (Hrows i _ (np.finite2 noise) Hxi) as (sti & Hsti & Haddi).
  { apply finite3_lookup_Some. exact Hnoise. }
  exists pts, xo, uo, noise.
  repeat (split; [assumption|]).
  destruct xo as [xv|]; cbn [assigned] in Haddi.
  - pose proof (Hxv xv eq_refl) as Hxs.
    pose proof (add_same _ _ _ _ Hxs Hns) as Hsum.
    rewrite (nadd2_finite _ _ _ Hsum) in Haddi. injection Haddi as <-.
    eexists. split; [exact Hsum|]. split; [exact Hsti|].
    intros Hzero.
    apply add_zeros; [eapply same_shape_rows; eassumption|].
    assert (Hall : Forall (Forall (Forall (fun q => (q == 0)%Q))) (fst d)).
    { rewrite Ed. simpl. apply reshape3_Forall, samples_zero. exact Hzero. }
    rewrite Forall_lookup in Hall. exact (Hall i noise Hnoise).
  - rewrite (nadd2_nan _ _ _ Hns) in Haddi. injection Haddi as <-.
    exact Hsti.
Qed.

(** X11.  What [generate_expert_trajectories] returns, when it returns:
    the waypoints are the perturbed ones that were fitted, and every fit
    returned.  The inputs of trajectory [i] are exactly the [u] the [i]-th
    fit returned; its states are the [x] the fit returned plus the [i]-th
    block of one draw of scale [state_noise · time_step], made after all
    fits, and with that scale zero they are the fitted [x].  Where the fit
    returned no value, the states or the inputs of the trajectory are NaN
    throughout. *)
Theorem generate_returns_the_fits (cfg : Config) (rng : Generator)
    (states inputs : np.ntensor3) (points : np.tensor3) :
  let n := n_trajectories cfg in
  let A := fst (get_dynamics (time_step cfg)) in
  let B := snd (get_dynamics (time_step cfg)) in
  let scale := (state_noise cfg * time_step cfg)%Q in
  generate_expert_trajectories solve cfg rng = Ok (states, inputs, points) ->
  exists t rng' d,
    np.arange 0 (duration cfg) (time_step cfg) = Ok t
    /\ perturbed_points cfg rng = Ok (points, rng')
    /\ random.normal3 rng' scale n (length t) 4 = Ok d
    /\ length states = n /\ length inputs = n
    /\ forall i, (i < n)%nat ->
         exists pts xo uo noise,
           points !! i = Some pts
           /\ optimize solve A B t pts = Ok (xo, uo)
           /\ fst d !! i = Some noise
           /\ inputs !! i = Some (assigned (length t) 2 uo)
           /\ match xo with
              | Some xv =>
                  exists st,
                    np.add xv noise = Ok st
                    /\ states !! i = Some (np.finite2 st)
                    /\ ((scale == 0)%Q -> np.meq st xv)
              | None => states !! i = Some (np.full_nan (length t) 4)
              end.
Proof. exact (generate_inv cfg rng states inputs points). Qed.



End BatchFacts.

Lemma generate_returns_the_fits_witness :
  let cfg := {| time_step := 1; trajectory_noise := 0; state_noise := 1;
                trajectory_radius := 0; trajectory_margin := 0;
                duration := 3; n_trajectories := 2 |} in
  exists states inputs points t rng' d,
    generate_expert_trajectories zero_solver cfg demo_generator
      = Ok (states, inputs, points)
    /\ np.arange 0 (duration cfg) (time_step cfg) = Ok t
    /\ perturbed_points cfg demo_generator = Ok (points, rng')
    /\ random.normal3 rng' (state_noise cfg * time_step cfg) 2 (length t) 4
       = Ok d
    /\ length states = 2%nat /\ length inputs = 2%nat.
Proof.
  intros cfg.
  destruct (generate_expert_trajectories zero_solver cfg demo_generator)
    as [[[states inputs] points]|e] eqn:E; [|vm_compute in E; discriminate].
  destruct (generate_returns_the_fits zero_solver cfg demo_generator
              states inputs points E)
    as (t & rng' & d & Ht & Hp & Hd & Hls & Hli & _).
  exists states, inputs, points, t, rng', d. auto 10.
Defined.



Lemma Ok_inj {A} (a b : A) : Ok a = Ok b -> a = b.
Proof. intros H. injection H as ->. reflexivity. Qed.

(** X14.  Every trajectory gets nine waypoints of two coordinates, and the
    draw that perturbs them takes [18] samples per trajectory; with zero
    [trajectory_noise] every waypoint set is the template scaled by the
    radius. *)
Theorem perturbed_points_zero_noise (cfg : Config) (rng : Generator) :
  (0 <= trajectory_noise cfg)%Q ->
  exists batch,
    perturbed_points cfg rng
      = Ok (batch, random.advance rng (n_trajectories cfg * 18))
    /\ np.has_shape3 (n_trajectories cfg) 9 2 batch
    /\ ((trajectory_noise cfg == 0)%Q ->
          Forall (fun pts =>
                    np.meq pts (np.scale (trajectory_radius cfg) template))
                 batch).
Proof.
  intros Hs.
  destruct (perturbed_points_run cfg rng Hs) as (batch & rng' & Hrun & Hshape).
  exists batch.
  pose proof Hrun as Hrun'.
  unfold perturbed_points in Hrun'.
  change (length (np.scale (trajectory_radius cfg) template)) with 9%nat in Hrun'.
  change (np.ncols (np.scale (trajectory_radius cfg) template)) with 2%nat in Hrun'.
  set (pts0 := np.scale (trajectory_radius cfg) template) in *.
  apply bind_Ok in Hrun' as (d & Hd & Hrun').
  apply bind_Ok in Hrun' as (res & Hadd & Hrun').
  injection Hrun' as -> <-.
  apply normal3_inv in Hd as [_ ->]. cbn [fst snd] in *.
  split; [exact Hrun|]. split; [exact Hshape|].
  intros Hzero.
  unfold np.add3 in Hadd. rewrite broadcast_one in Hadd.
  apply mapM_Ok_inv in Hadd.
  assert (Hp : np.has_shape 9 2 pts0).
  { apply scale_shape. split; [reflexivity | repeat constructor]. }
  pose proof (reshape3_shape (n_trajectories cfg) 9 2
                (random.samples rng (trajectory_noise cfg)
                   (n_trajectories cfg * (9 * 2)))
                (samples_length _ _ _)) as [_ Hblocks].
  pose proof (reshape3_Forall (fun q => (q == 0)%Q) (n_trajectories cfg) 9 2 _
                (samples_zero rng _ (n_trajectories cfg * (9 * 2)) Hzero))
    as Hzeros.
  apply Forall_lookup. intros i pts Hi.
  destruct (Forall2_lookup_r _ _ _ _ _ Hadd Hi) as (z & Hz & Haddz).
  rewrite Forall_lookup in Hblocks, Hzeros.
  pose proof (Ok_inj _ _ (eq_trans (eq_sym Haddz)
                (add_same 9 2 _ _ Hp (Hblocks i z Hz)))) as Epts.
  rewrite Epts.
  apply add_zeros; [|exact (Hzeros i z Hz)].
  eapply same_shape_rows; [exact Hp | exact (Hblocks i z Hz)].
Qed.

Lemma perturbed_points_zero_noise_witness :
  exists batch,
    perturbed_points demo_config demo_generator
      = Ok (batch, random.advance demo_generator (1 * 18))
    /\ np.has_shape3 1 9 2 batch.
Proof.
  destruct (perturbed_points_zero_noise demo_config demo_generator)
    as (batch & H1 & H2 & _).
  - discriminate.
  - exists batch. auto.
Defined.

(** ** The obstacle plot *)

Lemma plot_obstacles_patches (cfg : Config) (ax : Axes) :
  let r := trajectory_radius cfg in
  let m := trajectory_margin cfg in
  let circle (x y : Q) :=
    {| xy := (x, y); radius := (r - m)%Q; color := "k"; fill := false |} in
  patches (plot_obstacles cfg ax)
  = patches ax ++ [ circle (r * 0) (r * 0); circle (r * 0) (r * 2);
                    circle (r * 2) (r * 0); circle (r * 2) (r * 2) ]%Q.
Proof.
  intros r m circle.
  unfold plot_obstacles. cbn [seq fold_left add_patch set_aspect patches].
  rewrite <- !app_assoc. reflexivity.
Qed.

(** X15.  [plot_obstacles] sets the aspect to ["equal"], keeps the patches
    the axes already has and adds four circles after them, unfilled and of
    radius [trajectory_radius - trajectory_margin], centred on the corners
    of a square of side twice the radius.  With a margin that is positive
    and not above the radius no two of the circles meet. *)
Theorem plot_obstacles_adds_disjoint_circles (cfg : Config) (ax : Axes) :
  let r := trajectory_radius cfg in
  let m := trajectory_margin cfg in
  exists added,
    patches (plot_obstacles cfg ax) = patches ax ++ added
    /\ aspect (plot_obstacles cfg ax) = "equal"%string
    /\ Forall2 (fun c centre =>
                  (fst (xy c) == fst centre)%Q /\ (snd (xy c) == snd centre)%Q
                  /\ radius c = (r - m)%Q /\ fill c = false
                  /\ color c = "k"%string)
               added [(0, 0); (0, 2 * r); (2 * r, 0); (2 * r, 2 * r)]%Q
    /\ ((0 < m)%Q -> (m <= r)%Q ->
          forall i j c d, i <> j ->
            added !! i = Some c -> added !! j = Some d -> apart c d).
Proof.
  intros r m. eexists.
  split; [apply plot_obstacles_patches|].
  split; [reflexivity|]. fold r m. split.
  - repeat (apply List.Forall2_cons;
              [split; [simpl; ring|]; split; [simpl; ring|];
               split; [reflexivity|]; split; reflexivity|]).
    apply List.Forall2_nil.
  - intros Hm Hmr i j c d Hij Hc Hd.
    destruct i as [|[|[|[|i]]]]; try discriminate Hc;
      destruct j as [|[|[|[|j]]]]; try discriminate Hd; try contradiction;
      injection Hc as <-; injection Hd as <-;
      unfold apart; simpl; nra.
Qed.

Lemma plot_obstacles_adds_disjoint_circles_witness :
  exists added,
    patches (plot_obstacles demo_config {| aspect := "auto"; patches := [] |})
      = added
    /\ length added = 4%nat
    /\ forall i j c d, i <> j ->
         added !! i = Some c -> added !! j = Some d -> apart c d.
Proof.
  destruct (plot_obstacles_adds_disjoint_circles demo_config
              {| aspect := "auto"; patches := [] |})
    as (added & Hp & _ & Hall & Hapart).
  exists added. split; [exact Hp|].
  split; [exact (Forall2_length _ _ _ Hall)|].
  apply Hapart; [reflexivity | discriminate].
Defined.

(** X16.  With a margin that is positive and not above the radius, every
    waypoint of the template, scaled by the radius as
    [generate_expert_trajectories] does, lies strictly outside every
    circle that [plot_obstacles] draws. *)
Theorem template_avoids_obstacles (cfg : Config) (ax : Axes) :
  (0 < trajectory_margin cfg)%Q ->
  (trajectory_margin cfg <= trajectory_radius cfg)%Q ->
  Forall (fun c =>
            Forall (fun p => match p with
                             | [a; b] => outside c (a, b)
                             | _ => False
                             end)
                   (np.scale (trajectory_radius cfg) template))
         (drop (length (patches ax)) (patches (plot_obstacles cfg ax))).
Proof.
  intros Hm Hmr.
  rewrite plot_obstacles_patches, drop_app_length.
  set (r := trajectory_radius cfg) in *. set (m := trajectory_margin cfg) in *.
  repeat (apply List.Forall_cons || apply List.Forall_nil);
    unfold outside; simpl; nra.
Qed.

Lemma template_avoids_obstacles_witness :
  Forall (fun c =>
            Forall (fun p => match p with
                             | [a; b] => outside c (a, b)
                             | _ => False
                             end)
                   (np.scale 1 template))
         (patches (plot_obstacles demo_config
                     {| aspect := "auto"; patches := [] |})).
Proof.
  apply (template_avoids_obstacles demo_config
           {| aspect := "auto"; patches := [] |});
    [reflexivity | discriminate].
Defined.

Lemma get_dynamics_steps_compose_witness :
  exists s1 s2,
    propagate (get_dynamics (1 # 2)) [0; 0; 1; 2]%Q [2; 0]%Q = Ok s1
    /\ propagate (get_dynamics (- (1 # 2))) s1 [2; 0]%Q = Ok s2
    /\ np.veq s2 [0; 0; 1; 2]%Q.
Proof.
  destruct (get_dynamics_steps_compose (1 # 2) (- (1 # 2)) 0 0 1 2 2 0)
    as (s1 & s2 & s12 & H1 & H2 & _ & _ & Hback).
  exists s1, s2. split; [exact H1|]. split; [exact H2|].
  apply Hback. reflexivity.
Defined.

(** ** The objective of the fitter *)

Lemma dot_self_nonneg (r : np.vector) : (0 <= np.dot r r)%Q.
Proof.
  unfold np.dot. induction r as [|q r IH]; simpl; [apply Qle_refl|].
  assert (Hq : (0 <= q * q)%Q) by nra. lra.
Qed.

Lemma dot_self_zero (r : np.vector) :
  (np.dot r r <= 0)%Q -> Forall (fun q => (q == 0)%Q) r.
Proof.
  unfold np.dot. induction r as [|q r IH]; simpl; intros H; constructor.
  - pose proof (dot_self_nonneg r) as Hr. unfold np.dot in Hr.
    assert (Hq : (0 <= q * q)%Q) by nra.
    assert (Hqq : (q * q == 0)%Q) by lra.
    apply Qmult_integral in Hqq. tauto.
  - apply IH. assert (Hq : (0 <= q * q)%Q) by nra. lra.
Qed.

Lemma sumsq_nonneg (m : np.matrix) : (0 <= sumsq m)%Q.
Proof.
  unfold sumsq. induction m as [|r m IH]; simpl; [apply Qle_refl|].
  pose proof (dot_self_nonneg r). lra.
Qed.

Lemma sumsq_zero (m : np.matrix) :
  (sumsq m <= 0)%Q -> Forall (Forall (fun q => (q == 0)%Q)) m.
Proof.
  unfold sumsq. induction m as [|r m IH]; simpl; intros H; constructor.
  - apply dot_self_zero. pose proof (sumsq_nonneg m) as Hm. unfold sumsq in Hm.
    lra.
  - apply IH. pose proof (dot_self_nonneg r). lra.
Qed.

Lemma sumsq_zeros (r c : nat) : (sumsq (np.zeros r c) == 0)%Q.
Proof.
  assert (Hd : (np.dot (repeat 0%Q c) (repeat 0%Q c) == 0)%Q).
  { unfold np.dot. clear r. induction c as [|c IHc]; simpl; [reflexivity|].
    rewrite IHc. ring. }
  unfold sumsq, np.zeros. induction r as [|r IH]; simpl; [reflexivity|].
  rewrite IH, Hd. ring.
Qed.

Lemma optimize_problem_goal (A B : np.matrix) (t : list Q) (points : np.matrix)
    (prob : cp.Problem) :
  optimize_problem A B t points = Ok prob ->
  cp.goal prob = cp.MinimizeSumSquares (cp.Var cp.U)
  /\ forall x u, cp.cost prob x u = sumsq u.
Proof.
  unfold optimize_problem. intros H.
  apply bind_Ok in H as [idx [_ H]].
  apply bind_Ok in H as [? [_ H]].
  injection H as <-. split; reflexivity.
Qed.

Lemma lookup_repeat {A} (x : A) (n i : nat) :
  (i < n)%nat -> repeat x n !! i = Some x.
Proof.
  revert i. induction n as [|n IH]; intros i Hi; [lia|].
  destruct i as [|i]; simpl; [reflexivity | apply IH; lia].
Qed.

Lemma lookup_repeat_inv {A} (x y : A) (n i : nat) :
  repeat x n !! i = Some y -> y = x /\ (i < n)%nat.
Proof.
  intros H. split.
  - apply (repeat_spec n x y), list_elem_of_In, list_elem_of_lookup.
    exists i. exact H.
  - apply lookup_lt_Some in H. rewrite repeat_length in H. exact H.
Qed.

Lemma repeat_shape (row : np.vector) (n : nat) :
  np.has_shape n (length row) (repeat row n).
Proof.
  split; [apply repeat_length|].
  apply List.Forall_forall. intros r Hin. apply repeat_spec in Hin. congruence.
Qed.

(** After the dynamics constraint, each state but the first is the
    kinematic update of the one before. *)
Lemma dynamics_sat_next (dt : Q) (T k : nat) (x u : np.matrix)
    (xk uk : np.vector) :
  np.has_shape T 4 x -> np.has_shape T 2 u ->
  cp.sat x u
    (cp.Eq (cp.Slice (cp.Var cp.X) (Some 1%Z) None)
       (cp.Add (cp.MatMul (cp.Slice (cp.Var cp.X) None (Some (-1)%Z))
                          (np.transpose (fst (get_dynamics dt))))
               (cp.MatMul (cp.Slice (cp.Var cp.U) None (Some (-1)%Z))
                          (np.transpose (snd (get_dynamics dt)))))) ->
  (S k < T)%nat -> x !! k = Some xk -> u !! k = Some uk ->
  exists next, x !! S k = Some next /\ np.veq next (kinematic_step dt xk uk).
Proof.
  intros Hx Hu (l & r & Hl & Hr & Heq) Hk Hxk Huk.
  destruct (dynamics_sides dt T x u Hx Hu) as (El & Er & _).
  rewrite El in Hl. rewrite Er in Hr.
  injection Hl as <-. injection Hr as <-.
  simpl in Heq. unfold np.meq in Heq.
  destruct (dynamics_rhs_row dt _ k x u xk uk Hx Hu Hk Hxk Huk)
    as (row & Hrow & Hkin).
  destruct (Forall2_lookup_r _ _ _ _ _ Heq Hrow) as (next & Hnext & Hveq).
  exists next. split.
  - rewrite lookup_drop in Hnext. exact Hnext.
  - etransitivity; eassumption.
Qed.

(** Staying at the common waypoint, with zero inputs, meets the
    constraints. *)
Lemma stationary_feasible (dt : Q) (t : list Q) (points : np.matrix)
    (prob : cp.Problem) (a b : Q) :
  (1 <= length t)%nat ->
  optimize_problem (fst (get_dynamics dt)) (snd (get_dynamics dt)) t points
    = Ok prob ->
  Forall (fun p => np.veq p [a; b]) points ->
  cp.feasible prob (repeat [a; b; 0; 0]%Q (length t)) (np.zeros (length t) 2).
Proof.
  intros HT Hprob Hpts.
  destruct (optimize_problem_inv _ _ _ _ _ Hprob)
    as (idx & Hidx & Hxs & Hus & Hcs).
  set (T := length t) in *.
  set (row := [a; b; 0; 0]%Q).
  assert (Hx : np.has_shape T 4 (repeat row T)) by apply (repeat_shape row T).
  pose proof (zeros_shape T 2) as Hu.
  unfold cp.feasible. rewrite Hxs, Hus, Hcs.
  split; [exact Hx|]. split; [exact Hu|].
  destruct (point_indices_in_range _ _ _ HT Hidx) as (Hlen & _ & Hrange).
  repeat apply List.Forall_cons; [| | |apply List.Forall_nil].
  - destruct (dynamics_sides dt T _ _ Hx Hu) as (El & Er & Hl & Hr).
    do 2 eexists. split; [exact El|]. split; [exact Er|].
    simpl. apply Forall2_same_length_lookup_2.
    { destruct Hl as [-> _], Hr as [-> _]. reflexivity. }
    intros i xr y Hxr Hy.
    pose proof (lookup_lt_Some _ _ _ Hxr) as Hi.
    destruct Hl as [Hll _]. rewrite Hll in Hi.
    rewrite lookup_drop in Hxr. apply lookup_repeat_inv in Hxr as [-> _].
    destruct (dynamics_rhs_row dt T i (repeat row T) (np.zeros T 2) row
                (repeat 0%Q 2) Hx Hu ltac:(lia))
      as (y' & Hy' & Hkin).
    { apply lookup_repeat. lia. }
    { unfold np.zeros. apply lookup_repeat. lia. }
    assert (y' = y)
      by (apply (inj Some); exact (eq_trans (eq_sym Hy') Hy)).
    subst y'.
    symmetry. etransitivity; [exact Hkin|].
    simpl. repeat (apply List.Forall2_cons; [ring|]). apply List.Forall2_nil.
  - destruct (waypoint_side T _ (np.zeros T 2) idx Hx Hrange)
      as (rows & Ew & HF & _).
    do 2 eexists. split; [exact Ew|]. split; [reflexivity|].
    simpl. apply Forall2_same_length_lookup_2.
    { rewrite length_map, <- (Forall2_length _ _ _ HF). exact Hlen. }
    intros i y p Hy Hp.
    rewrite map_fmap, list_lookup_fmap in Hy.
    destruct (rows !! i) as [ri|] eqn:Hri; [|discriminate].
    injection Hy as <-.
    destruct (Forall2_lookup_r _ _ _ _ _ HF Hri) as (k & _ & Hk).
    apply lookup_repeat_inv in Hk as [-> _].
    rewrite Forall_lookup in Hpts. symmetry. exact (Hpts i p Hp).
  - destruct (closure_side T _ (np.zeros T 2) Hx HT)
      as (first & last & Elast & Efirst & Hf & Hl & _).
    do 2 eexists. split; [exact Elast|]. split; [exact Efirst|].
    apply lookup_repeat_inv in Hf as [-> _].
    apply lookup_repeat_inv in Hl as [-> _].
    simpl. reflexivity.
Qed.

Lemma veq4_inv (r : np.vector) (c1 c2 c3 c4 : Q) :
  np.veq r [c1; c2; c3; c4] ->
  exists r1 r2 r3 r4,
    r = [r1; r2; r3; r4]
    /\ (r1 == c1)%Q /\ (r2 == c2)%Q /\ (r3 == c3)%Q /\ (r4 == c4)%Q.
Proof.
  intros H.
  inversion H as [|r1 ? l1 ? H1 T1]; subst.
  inversion T1 as [|r2 ? l2 ? H2 T2]; subst.
  inversion T2 as [|r3 ? l3 ? H3 T3]; subst.
  inversion T3 as [|r4 ? l4 ? H4 T4]; subst.
  inversion T4; subst.
  exists r1, r2, r3, r4. auto.
Qed.

Lemma waypoint_sat_row (x u : np.matrix) (idx : list Z) (points : np.matrix)
    (i : nat) (k : Z) (p : np.vector) :
  cp.sat x u (cp.Eq (cp.Take (cp.Var cp.X) idx 2%Z) (cp.Const points)) ->
  idx !! i = Some k -> (0 <= k)%Z -> points !! i = Some p ->
  exists row, x !! Z.to_nat k = Some row /\ np.veq (take 2 row) p.
Proof.
  intros (l & r & Hl & Hr & Heq) Hi Hk Hp.
  simpl in Hl, Hr. injection Hr as <-.
  apply bind_Ok in Hl as [rows [Hrows Hl]]. injection Hl as <-.
  simpl in Heq. unfold np.meq in Heq.
  apply mapM_Ok_inv in Hrows.
  destruct (Forall2_lookup_l _ _ _ _ _ Hrows Hi) as (row & Hrow & Hget).
  exists row. split; [apply getitem_nonneg; assumption|].
  rewrite map_fmap in Heq.
  assert (Hcut : ((fun r : list Q => cp.slice r None (Some 2%Z)) <$> rows) !! i
                 = Some (take 2 row)).
  { rewrite list_lookup_fmap, Hrow. simpl. rewrite slice_to_2. reflexivity. }
  exact (Forall2_lookup_lr _ _ _ _ _ _ Heq Hcut Hp).
Qed.

Lemma inject_Z_nat_zero (n : nat) : (inject_Z (Z.of_nat n) == 0)%Q -> n = 0%nat.
Proof. unfold Qeq. simpl. lia. Qed.

Section MinimumAcceleration.

Variable solve : cp.Problem -> result cp.Solved.
Hypothesis solve_sound : solver_sound solve.
Hypothesis solve_optimal : solver_optimal solve.

(** X17.  The fit minimises the inputs: when all waypoints are the same
    point [(a, b)], the grid has at least two steps and the time step is
    not zero, an optimal fit for the matrices of [get_dynamics dt] has all
    inputs zero and stays at the waypoint, at rest. *)
Theorem optimize_coincident_waypoints_stationary (dt : Q) (t : list Q)
    (points : np.matrix) (a b : Q) (prob : cp.Problem) (sol : cp.Solved) :
  (2 <= length t)%nat ->
  ~ (dt == 0)%Q ->
  Forall (fun p => np.veq p [a; b]) points ->
  optimize_problem (fst (get_dynamics dt)) (snd (get_dynamics dt)) t points
    = Ok prob ->
  solve prob = Ok sol ->
  cp.prob_status sol = cp.optimal ->
  exists x u,
    optimize solve (fst (get_dynamics dt)) (snd (get_dynamics dt)) t points
      = Ok (Some x, Some u)
    /\ length x = length t /\ length u = length t
    /\ Forall (Forall (fun q => (q == 0)%Q)) u
    /\ Forall (fun row => np.veq row [a; b; 0; 0]%Q) x.
Proof.
  intros HT2 Hdt Hpts Hprob Hsol Hopt.
  destruct (optimal_fit solve solve_sound _ _ _ _ _ _ Hprob Hsol Hopt)
    as (x & u & idx & Hrun & Hx & Hu & HT & Hidx & Hdyn & Hway & Hclose).
  exists x, u. split; [exact Hrun|].
  pose proof Hx as [Hlx Hxrows]. pose proof Hu as [Hlu Hurows].
  split; [exact Hlx|]. split; [exact Hlu|].
  (* the inputs are zero *)
  assert (Hu0 : Forall (Forall (fun q => (q == 0)%Q)) u).
  { pose proof (optimize_solved solve _ _ _ _ _ _ Hprob Hsol) as Hrun'.
    rewrite Hrun in Hrun'. injection Hrun' as Hxv Huv.
    pose proof (solve_optimal prob sol x u Hsol Hopt (eq_sym Hxv) (eq_sym Huv)
                  _ _ (stationary_feasible dt t points prob a b HT Hprob Hpts))
      as Hcost.
    destruct (optimize_problem_goal _ _ _ _ _ Hprob) as [_ Hgoal].
    rewrite !Hgoal, sumsq_zeros in Hcost.
    apply sumsq_zero. exact Hcost. }
  split; [exact Hu0|].
  (* the states drift at constant velocity *)
  destruct (lookup_lt_is_Some_2 x 0 ltac:(lia)) as [x0 Hx0].
  assert (Hl0 : length x0 = 4%nat).
  { rewrite List.Forall_forall in Hxrows.
    apply Hxrows, list_elem_of_In, list_elem_of_lookup. eauto. }
  destruct x0 as [|p [|q [|vx [|vy [|]]]]]; try discriminate. clear Hl0.
  set (traj := fun k : nat =>
         [ p + inject_Z (Z.of_nat k) * dt * vx;
           q + inject_Z (Z.of_nat k) * dt * vy; vx; vy ]%Q).
  assert (Hdrift : forall k, (k < length t)%nat ->
            exists xk, x !! k = Some xk /\ np.veq xk (traj k)).
  { induction k as [|k IH]; intros Hk.
    - exists [p; q; vx; vy]. split; [exact Hx0|].
      unfold traj. simpl.
      repeat (apply List.Forall2_cons; [ring|]). apply List.Forall2_nil.
    - destruct (IH ltac:(lia)) as (xk & Hxk & Hveq).
      apply veq4_inv in Hveq as (c1 & c2 & c3 & c4 & -> & H1 & H2 & H3 & H4).
      destruct (lookup_lt_is_Some_2 u k ltac:(lia)) as [uk Huk].
      assert (Hluk : length uk = 2%nat).
      { rewrite List.Forall_forall in Hurows.
        apply Hurows, list_elem_of_In, list_elem_of_lookup. eauto. }
      assert (Hzk : Forall (fun q => (q == 0)%Q) uk).
      { rewrite Forall_lookup in Hu0. exact (Hu0 k uk Huk). }
      destruct uk as [|ax [|ay [|]]]; try discriminate.
      apply Forall_cons in Hzk as [Hax Hzk].
      apply Forall_cons in Hzk as [Hay _].
      destruct (dynamics_sat_next dt _ k x u _ _ Hx Hu Hdyn Hk Hxk Huk)
        as (next & Hnext & Hkin).
      exists next. split; [exact Hnext|].
      etransitivity; [exact Hkin|].
      unfold traj, kinematic_step.
      rewrite Nat2Z.inj_succ, <- Z.add_1_r, inject_Z_plus.
      repeat (apply List.Forall2_cons;
                [rewrite ?H1, ?H2, ?H3, ?H4, ?Hax, ?Hay; simpl; ring|]).
      apply List.Forall2_nil. }
  (* the loop closes, so the velocity is zero *)
  destruct (closure_sat _ _ Hclose) as (first & last & Hfirst & Hlast & Hcl).
  assert (first = [p; q; vx; vy])
    by (apply (inj Some); exact (eq_trans (eq_sym Hfirst) Hx0)).
  subst first.
  destruct (Hdrift (length t - 1)%nat ltac:(lia)) as (xl & Hxl & Hveql).
  rewrite Hlx in Hlast.
  assert (xl = last)
    by (apply (inj Some); exact (eq_trans (eq_sym Hxl) Hlast)).
  subst xl.
  assert (Hend : np.veq (traj (length t - 1)%nat) [p; q; vx; vy]).
  { etransitivity; [symmetry; exact Hveql | exact Hcl]. }
  apply veq4_inv in Hend as (e1 & e2 & e3 & e4 & He & E1 & E2 & _ & _).
  unfold traj in He. injection He as <- <- <- <-.
  assert (Hn : ~ (inject_Z (Z.of_nat (length t - 1)) == 0)%Q).
  { intros Hz. apply inject_Z_nat_zero in Hz. lia. }
  assert (Hv : forall v, (p + inject_Z (Z.of_nat (length t - 1)) * dt * v == p)%Q
                         -> (v == 0)%Q).
  { intros v Hv.
    assert (Hprod : (inject_Z (Z.of_nat (length t - 1)) * dt * v == 0)%Q) by lra.
    apply Qmult_integral in Hprod as [Hprod|Hprod]; [|exact Hprod].
    apply Qmult_integral in Hprod as [Hprod|Hprod]; contradiction. }
  assert (Hvx : (vx == 0)%Q) by (apply Hv; exact E1).
  assert (Hvy : (vy == 0)%Q).
  { apply Hv. lra. }
  (* it starts at the waypoint *)
  assert (HP : (1 <= length points)%nat).
  { destruct (point_indices_in_range _ _ _ HT Hidx) as (_ & HP & _). exact HP. }
  destruct (lookup_lt_is_Some_2 points 0 ltac:(lia)) as [p0 Hp0].
  assert (Hidx0 : idx !! 0%nat = Some 0%Z).
  { rewrite point_indices_raw in Hidx by exact HP. injection Hidx as <-.
    destruct (raw_point_idx_head (length t) (length points) HP) as [rest ->].
    reflexivity. }
  destruct (waypoint_sat_row x u idx points 0 0 p0 Hway Hidx0 ltac:(lia) Hp0)
    as (row0 & Hrow0 & Hpos).
  assert (row0 = [p; q; vx; vy])
    by (apply (inj Some); exact (eq_trans (eq_sym Hrow0) Hx0)).
  subst row0.
  rewrite Forall_lookup in Hpts. pose proof (Hpts 0%nat p0 Hp0) as Hp0ab.
  assert (Hpq : np.veq [p; q] [a; b])
    by (etransitivity; [exact Hpos | exact Hp0ab]).
  inversion Hpq as [|? ? ? ? Hpa Hrest]; subst.
  inversion Hrest as [|? ? ? ? Hqb _]; subst.
  (* so every state is the waypoint at rest *)
  apply Forall_lookup. intros k row Hrow.
  pose proof (lookup_lt_Some _ _ _ Hrow) as Hk. rewrite Hlx in Hk.
  destruct (Hdrift k Hk) as (xk & Hxk & Hveq).
  assert (xk = row)
    by (apply (inj Some); exact (eq_trans (eq_sym Hxk) Hrow)).
  subst xk.
  etransitivity; [exact Hveq|]. unfold traj.
  repeat (apply List.Forall2_cons;
            [rewrite ?Hvx, ?Hvy, ?Hpa, ?Hqb; ring|]).
  apply List.Forall2_nil.
Qed.

End MinimumAcceleration.

Lemma zero_input_solver_sound : solver_sound zero_input_solver.
Proof.
  intros p sol H Hopt. unfold zero_input_solver in H.
  destruct (cp.goal p) as [e].
  destruct e as [[|]| | | | | |];
    try (injection H as <-; discriminate).
  exact (zero_solver_sound p sol H Hopt).
Qed.

Lemma zero_input_solver_optimal : solver_optimal zero_input_solver.
Proof.
  intros p sol x u H Hopt Hx Hu x' u' _.
  unfold zero_input_solver in H. unfold cp.cost.
  destruct (cp.goal p) as [e].
  destruct e as [[|]| | | | | |];
    try (injection H as <-; discriminate).
  unfold zero_solver in H.
  destruct (cp.feasibleb p _ _); injection H as <-; [|discriminate].
  simpl in Hx, Hu. injection Hx as <-. injection Hu as <-.
  change (sumsq (np.zeros (fst (cp.u_shape p)) (snd (cp.u_shape p)))
          <= sumsq u')%Q.
  rewrite sumsq_zeros. apply sumsq_nonneg.
Qed.

Lemma optimize_coincident_waypoints_stationary_witness :
  exists x u,
    optimize zero_input_solver (fst (get_dynamics 1)) (snd (get_dynamics 1))
      [0; 1; 2]%Q [[0; 0]; [0; 0]]%Q = Ok (Some x, Some u)
    /\ length x = 3%nat /\ length u = 3%nat
    /\ Forall (Forall (fun q => (q == 0)%Q)) u
    /\ Forall (fun row => np.veq row [0; 0; 0; 0]%Q) x.
Proof.
  eapply (optimize_coincident_waypoints_stationary zero_input_solver
            zero_input_solver_sound zero_input_solver_optimal 1
            [0; 1; 2]%Q [[0; 0]; [0; 0]]%Q 0 0).
  - simpl. lia.
  - discriminate.
  - repeat constructor.
  - reflexivity.
  - reflexivity.
  - reflexivity.
Defined.

(** ** The script *)

Lemma save_existing (dir name : string) (arr : np.ntensor3) (fs : FileSystem) :
  dir ∈ directories fs ->
  save dir name arr fs
  = Some {| directories := directories fs;
            files := <[String.append dir (String.append "/" name) := arr]>
                       (files fs) |}.
Proof.
  intros H. unfold save. destruct (decide (dir ∈ directories fs)).
  - reflexivity.
  - contradiction.
Qed.

Lemma save_missing (dir name : string) (arr : np.ntensor3) (fs : FileSystem) :
  dir ∉ directories fs -> save dir name arr fs = None.
Proof.
  intros H. unfold save. destruct (decide (dir ∈ directories fs)).
  - contradiction.
  - reflexivity.
Qed.

Section ScriptFacts.

Variable solve : cp.Problem -> result cp.Solved.

(** X18.  The script saves the states and the inputs and nothing else.
    When the generation raises, so does the script and no file is touched.
    When it succeeds and the directory [data] exists, the two arrays are
    written to [data/states.npy] and [data/inputs.npy] and every other file
    is as before; the waypoints are saved nowhere.  When [data] does not
    exist the first save fails, after all the fitting has been done, and
    no file is touched. *)
Theorem main_saves_states_and_inputs (cfg : Config) (rng : Generator)
    (fs : FileSystem) :
  (forall e, generate_expert_trajectories solve cfg rng = Raise e ->
     main solve cfg rng fs = (Raised e, fs))
  /\ (forall x u points,
        generate_expert_trajectories solve cfg rng = Ok (x, u, points) ->
        ("data"%string ∉ directories fs ->
           main solve cfg rng fs = (RaisedFileNotFoundError, fs))
        /\ ("data"%string ∈ directories fs ->
              exists fs',
                main solve cfg rng fs = (Finished, fs')
                /\ directories fs' = directories fs
                /\ files fs' !! "data/states.npy"%string = Some x
                /\ files fs' !! "data/inputs.npy"%string = Some u
                /\ forall path,
                     path <> "data/states.npy"%string ->
                     path <> "data/inputs.npy"%string ->
                     files fs' !! path = files fs !! path)).
Proof.
  split.
  - intros e He. unfold main. rewrite He. reflexivity.
  - intros x u points Hgen. split.
    + intros Hdir. unfold main. rewrite Hgen.
      rewrite save_missing by exact Hdir. reflexivity.
    + intros Hdir. unfold main. rewrite Hgen.
      rewrite (save_existing _ _ _ fs Hdir).
      rewrite save_existing by exact Hdir.
      eexists. split; [reflexivity|]. cbn [directories files].
      split; [reflexivity|].
      change (String.append "data" (String.append "/" "states.npy"))
        with "data/states.npy"%string.
      change (String.append "data" (String.append "/" "inputs.npy"))
        with "data/inputs.npy"%string.
      split; [|split].
      * rewrite lookup_insert_ne by discriminate. apply lookup_insert_eq.
      * apply lookup_insert_eq.
      * intros path H1 H2.
        rewrite !lookup_insert_ne by congruence. reflexivity.
Qed.

End ScriptFacts.

Lemma main_saves_states_and_inputs_witness :
  let cfg := {| time_step := 1; trajectory_noise := 0; state_noise := 1;
                trajectory_radius := 0; trajectory_margin := 0;
                duration := 3; n_trajectories := 2 |} in
  let fs := {| directories := {["data"%string]}; files := ∅ |} in
  exists fs' x u,
    main zero_solver cfg demo_generator fs = (Finished, fs')
    /\ files fs' !! "data/states.npy"%string = Some x
    /\ files fs' !! "data/inputs.npy"%string = Some u
    /\ files fs' !! "data/points.npy"%string = None.
Proof.
  intros cfg fs.
  destruct (generate_expert_trajectories zero_solver cfg demo_generator)
    as [[[x u] points]|e] eqn:E; [|vm_compute in E; discriminate].
  destruct (main_saves_states_and_inputs zero_solver cfg demo_generator fs)
    as [_ H].
  destruct (H x u points E) as [_ Hok].
  destruct Hok as (fs' & Hmain & _ & Hx & Hu & Hother).
  - unfold fs. cbn [directories]. apply elem_of_singleton_2. reflexivity.
  - exists fs', x, u. split; [exact Hmain|]. split; [exact Hx|].
    split; [exact Hu|].
    rewrite Hother by discriminate. unfold fs. cbn [files].
    apply lookup_empty.
Defined.
